(** * Colibri: rule/selector model, error aggregator, extraction engine
      and orchestrator

    A shallow embedding of the Go packages [colibri] (selectors and rules,
    the conversion of raw input, the orchestrator) and [colibri/parsers]
    (the element interface and the search for selectors), with the
    properties of the design document proved about it.

    Conventions of the embedding.
    - A Go [map[string]any] that is only looked up and copied is a
      [gmap string value]; a map that is ranged over is an association
      list, whose order stands for the iteration order Go happened to pick.
    - Go's nil slice and its empty slice are both the empty list, Go's nil
      map and its empty map are both the empty map: the code below only
      ranges over them, appends to them and takes their length.  The nil
      interface value is [VNil], which is different from both.
    - Pointers and maps carry a location ([loc]) that stands for their
      identity; a function that allocates threads the next free location.
    - Collaborators behind an interface are functions on an abstract world;
      a call that may panic returns an [outcome]. *)

From Stdlib Require Import ZArith Lia Ascii String.
From stdpp Require Import gmap strings list pretty.

Set Warnings "-register-all".
Set Default Proof Using "Type".

(** ** Errors *)

(** A Go [error] value: a leaf error with its message, or the aggregate
    [Errs], an ordered list of keyed errors. *)
Inductive error : Type :=
| ELeaf (msg : string)
| EErrs (entries : list (string * error)).

(** Modelled from the spec: errors.go (the type [Errs] with [Add] and [Get],
    and [AddError]) is not among the sources; only its test TestErrs is.
    An aggregate is an ordered mapping from key to error, in insertion
    order. *)
Definition Errs : Type := list (string * error).

Fixpoint Errs_Get (errs : Errs) (key : string) : option error :=
  match errs with
  | [] => None
  | (k, e) :: rest => if decide (k = key) then Some e else Errs_Get rest key
  end.

Definition Errs_has (errs : Errs) (key : string) : bool :=
  bool_decide (is_Some (Errs_Get errs key)).

(** The key an occurrence is stored under: the bare key for the first one,
    [key#n] for the n-th one after it ([strconv.Itoa] is [pretty]). *)
Definition suffixed (key : string) (n : nat) : string :=
  match n with
  | 0 => key
  | S _ => key +:+ "#" +:+ pretty n
  end.

(** The first [n' >= n] whose key [suffixed key n'] is not taken, looking at
    [fuel] candidates before settling on the next one. *)
Fixpoint free_suffix (errs : Errs) (key : string) (n fuel : nat) : nat :=
  match fuel with
  | 0 => n
  | S fuel' =>
      if Errs_has errs (suffixed key n)
      then free_suffix errs key (S n) fuel'
      else n
  end.

(** Modelled from the spec: [Errs.Add].  "Adding an error under a key that
    already exists does not overwrite: the first occurrence keeps the bare
    key; each subsequent occurrence for the same key is suffixed #1, #2, ...
    in addition order.  Adding a nil error or an empty key is a no-op."
    An aggregate of [length errs] entries cannot hold all of the
    [length errs + 1] candidate keys, so that many candidates are enough. *)
Definition Errs_Add (errs : Errs) (key : string) (err : option error) : Errs :=
  match err with
  | None => errs
  | Some e =>
      if decide (key = "") then errs
      else errs ++ [(suffixed key (free_suffix errs key 0 (length errs)), e)]
  end.

(** Modelled from the spec: [AddError(errs, key, err)], as TestErrs uses it.
    A nil [err] or an empty key gives [errs] back; a nil [errs] starts a new
    aggregate; an [errs] that is not an aggregate is kept under the key "#"
    of a new one (TestErrs/AddError_Error). *)
Definition AddError (errs : option error) (key : string) (err : option error)
  : option error :=
  match err with
  | None => errs
  | Some _ =>
      if decide (key = "") then errs
      else match errs with
           | None => Some (EErrs (Errs_Add [] key err))
           | Some (EErrs es) => Some (EErrs (Errs_Add es key err))
           | Some other => Some (EErrs (Errs_Add (Errs_Add [] "#" (Some other)) key err))
           end
  end.

Global Arguments AddError : simpl never.
Global Arguments Errs_Add : simpl never.

(** The entries of an accumulated error: none for nil. *)
Definition entries_of (errs : option error) : Errs :=
  match errs with
  | Some (EErrs es) => es
  | Some other => [("#", other)]
  | None => []
  end.

(** An accumulated error is nil or an aggregate. *)
Definition accumulated (errs : option error) : Prop :=
  errs = None ∨ ∃ es, errs = Some (EErrs es).

(** A sequence of additions, applied in order. *)
Definition Errs_AddAll (adds : list (string * option error)) (errs : Errs) : Errs :=
  fold_left (λ acc a, Errs_Add acc a.1 a.2) adds errs.


(** The entry an addition leaves when its key is free: none for a no-op. *)
Definition stored_bare (a : string * option error) : option (string * error) :=
  match a.2 with
  | Some e => if decide (a.1 = "") then None else Some (a.1, e)
  | None => None
  end.



(** ** Values, selectors and rules *)

(** The identity of a pointer or of a map. *)
Definition loc : Type := nat.

(** What the embedding needs of Go's [net/url]: [url.Parse], [URL.IsAbs],
    [URL.ResolveReference], [URL.String] and the zero [url.URL]. *)
Class NetURL (U : Type) : Type := {
  url_Parse : string → U + error;
  url_IsAbs : U → bool;
  url_ResolveReference : U → U → U;
  url_String : U → string;
  url_zero : U
}.

Section Model.
Context {U : Type} `{!NetURL U}.

(** A pointer to a [url.URL]: the pointer and what it points to. *)
Record url_URL : Type := mkURL { url_loc : loc; url_val : U }.

(** A [http.Header], a map from canonical key to values; nil is [None]
    where a field holds one. *)
Record http_Header : Type := mkHeader {
  hd_loc : loc;
  hd_map : gmap string (list string)
}.

(** A Go [any] as this code meets it, and a [Selector] behind its pointer (selector.go).
    [time.Duration] is a number of nanoseconds. *)
Inductive value : Type :=
| VNil
| VBool (b : bool)
| VStr (s : string)
| VNum (n : Z)
| VDuration (d : Z)
| VURL (u : url_URL)
| VHeader (h : http_Header)
| VList (l : list value)
| VMap (m : gmap string value)
| VSelectors (l : list Selector)
with Selector : Type :=
| mkSelector (sel_loc : loc) (Name Expr Type_ : string) (All Follow : bool)
    (Selectors : list Selector) (Fields_loc : loc) (Fields : gmap string value).

(** [v == nil] on an [any]. *)
Definition is_nil (v : value) : bool :=
  match v with VNil => true | _ => false end.

Definition sel_loc (s : Selector) : loc :=
  match s with mkSelector l _ _ _ _ _ _ _ _ => l end.
Definition Name (s : Selector) : string :=
  match s with mkSelector _ n _ _ _ _ _ _ _ => n end.
Definition Expr (s : Selector) : string :=
  match s with mkSelector _ _ e _ _ _ _ _ _ => e end.
Definition Type_ (s : Selector) : string :=
  match s with mkSelector _ _ _ t _ _ _ _ _ => t end.
Definition All (s : Selector) : bool :=
  match s with mkSelector _ _ _ _ a _ _ _ _ => a end.
Definition Follow (s : Selector) : bool :=
  match s with mkSelector _ _ _ _ _ f _ _ _ => f end.
Definition Selectors (s : Selector) : list Selector :=
  match s with mkSelector _ _ _ _ _ _ ss _ _ => ss end.
Definition Fields_loc (s : Selector) : loc :=
  match s with mkSelector _ _ _ _ _ _ _ l _ => l end.
Definition Fields (s : Selector) : gmap string value :=
  match s with mkSelector _ _ _ _ _ _ _ _ m => m end.

(** [Rules] (package colibri). *)
Record Rules : Type := mkRules {
  Method : string;
  URL : option url_URL;
  Proxy : option url_URL;
  Header : option http_Header;
  Timeout : Z;
  UseCookies : bool;
  IgnoreRobotsTxt : bool;
  Delay : Z;
  Rules_Selectors : list Selector;
  Rules_Fields_loc : loc;
  Rules_Fields : gmap string value
}.

Definition KeyDelay : string := "Delay".
Definition KeyFields : string := "Fields".
Definition KeyHeader : string := "Header".
Definition KeyIgnoreRobotsTxt : string := "IgnoreRobotsTxt".
Definition KeyMethod : string := "Method".
Definition KeyProxy : string := "Proxy".
Definition KeySelectors : string := "Selectors".
Definition KeyTimeout : string := "Timeout".
Definition KeyUseCookies : string := "UseCookies".
Definition KeyURL : string := "URL".
Definition KeyAll : string := "All".
Definition KeyExpr : string := "Expr".
Definition KeyFollow : string := "Follow".
Definition KeyName : string := "Name".
Definition KeyType : string := "Type".

Definition ErrInvalidSelector : error := ELeaf "invalid selector".
Definition ErrInvalidSelectors : error := ELeaf "invalid selectors".
Definition ErrNotAssignable : error := ELeaf "value is not assignable to field".
Definition ErrMustBeString : error := ELeaf "must be a string".

(** [Header.Clone]: nil stays nil, otherwise a new map with the same
    entries, at the next free location. *)
Definition Header_Clone (h : option http_Header) (n : loc) : option http_Header * loc :=
  match h with
  | None => (None, n)
  | Some h => (Some (mkHeader n (hd_map h)), S n)
  end.

(** [u.ResolveReference(&url.URL{})] on a non-nil [u]: a new URL. *)
Definition URL_copy (u : option url_URL) (n : loc) : option url_URL * loc :=
  match u with
  | None => (None, n)
  | Some u => (Some (mkURL n (url_ResolveReference (url_val u) url_zero)), S n)
  end.

(** [Selector.Clone] and [CloneSelectors]: a new selector with a new field
    bag holding the same values, and clones of the nested selectors. *)
Fixpoint Selector_Clone (selector : Selector) (n : loc) : Selector * loc :=
  match selector with
  | mkSelector _ name expr ty all follow sels _ fields =>
      let '(sels', n') :=
        (fix clones (ss : list Selector) (n : loc) : list Selector * loc :=
           match ss with
           | [] => ([], n)
           | sel :: rest =>
               let '(c, n1) := Selector_Clone sel n in
               let '(cs, n2) := clones rest n1 in
               (c :: cs, n2)
           end) sels (S (S n)) in
      (mkSelector n name expr ty all follow sels' (S n) fields, n')
  end.

Fixpoint CloneSelectors (selectors : list Selector) (n : loc) : list Selector * loc :=
  match selectors with
  | [] => ([], n)
  | sel :: rest =>
      let '(c, n1) := Selector_Clone sel n in
      let '(cs, n2) := CloneSelectors rest n1 in
      (c :: cs, n2)
  end.

(** The type assertions of [Selector.Rules], on a string, a URL pointer, a
    header, a duration and a bool, with the zero value when the dynamic
    type is another one. *)
Definition as_string (v : value) : string :=
  match v with VStr s => s | _ => "" end.
Definition as_URL (v : value) : option url_URL :=
  match v with VURL u => Some u | _ => None end.
Definition as_Header (v : value) : option http_Header :=
  match v with VHeader h => Some h | _ => None end.
Definition as_Duration (v : value) : Z :=
  match v with VDuration d => d | _ => 0%Z end.
Definition as_bool (v : value) : bool :=
  match v with VBool b => b | _ => false end.

(** [Selector.Rules] (selector.go). *)
Definition Selector_Rules (selector : Selector) (src : Rules) (n : loc) : Rules * loc :=
  let '(sels, n1) := CloneSelectors (Selectors selector) n in
  let floc := n1 in
  let n2 := S n1 in
  if decide (size (Fields selector) = 0) then
    let '(proxy, n3) := URL_copy (Proxy src) n2 in
    let '(header, n4) := Header_Clone (Header src) n3 in
    (mkRules "" None proxy header (Timeout src) (UseCookies src)
       (IgnoreRobotsTxt src) (Delay src) sels floc ∅, n4)
  else
    let method :=
      match Fields selector !! KeyMethod with
      | Some v => as_string v
      | None => ""
      end in
    let '(proxy, n3) :=
      match Fields selector !! KeyProxy with
      | Some v => (as_URL v, n2)
      | None => URL_copy (Proxy src) n2
      end in
    let '(header, n4) :=
      match Fields selector !! KeyHeader with
      | Some v => (as_Header v, n3)
      | None => Header_Clone (Header src) n3
      end in
    let timeout :=
      match Fields selector !! KeyTimeout with
      | Some v => as_Duration v
      | None => Timeout src
      end in
    let useCookies :=
      match Fields selector !! KeyUseCookies with
      | Some v => as_bool v
      | None => UseCookies src
      end in
    let ignoreRobotsTxt :=
      match Fields selector !! KeyIgnoreRobotsTxt with
      | Some v => as_bool v
      | None => IgnoreRobotsTxt src
      end in
    let delay :=
      match Fields selector !! KeyDelay with
      | Some v => as_Duration v
      | None => Delay src
      end in
    (mkRules method None proxy header timeout useCookies ignoreRobotsTxt delay
       sels floc ∅, n4).

(** [Rules.Clone] (package colibri). *)
Definition Rules_Clone (rules : Rules) (n : loc) : Rules * loc :=
  let '(header, n1) := Header_Clone (Header rules) n in
  let '(sels, n2) := CloneSelectors (Rules_Selectors rules) n1 in
  let floc := n2 in
  let '(u, n3) := URL_copy (URL rules) (S n2) in
  let '(proxy, n4) := URL_copy (Proxy rules) n3 in
  (mkRules (Method rules) u proxy header (Timeout rules) (UseCookies rules)
     (IgnoreRobotsTxt rules) (Delay rules) sels floc (Rules_Fields rules), n4).

(** The entry an attempt leaves among the errors: none when it succeeded,
    and none under an empty name. *)
Definition failure_of {A : Type} (t : Selector * (A * option error))
  : option (string * error) :=
  stored_bare (Name t.1, t.2.2).

(** A selector without the identities: what [reflect.DeepEqual] compares. *)
Fixpoint erase (selector : Selector) : Selector :=
  match selector with
  | mkSelector _ name expr ty all follow sels _ fields =>
      mkSelector 0 name expr ty all follow (map erase sels) 0 fields
  end.

(** The locations of a selector and of the selectors below it: the
    selectors themselves and their field bags. *)
Fixpoint own_locs (selector : Selector) : list loc :=
  match selector with
  | mkSelector l _ _ _ _ _ sels fl _ => l :: fl :: flat_map own_locs sels
  end.

End Model.

(** ** The extraction engine (package parsers) *)

(** The [Element] interface: a node of a parsed document.  [Find] gives at
    most one child, [FindAll] all of them, each with Go's error result. *)
Class Element (U E : Type) : Type := {
  Find : E → string → string → option E * option error;
  FindAll : E → string → string → list E * option error;
  Value : E → @value U
}.

(** The [colibri.Response] interface as the engine uses it: the URL of the
    response, which is not nil, and [Extract], which goes back through the
    orchestrator and the network, here a transition of an abstract world
    [W] (whatever the transport raised was recovered by [Colibri.Extract]). *)
Class Response (U R W : Type) : Type := {
  Resp_URL : R → U;
  Resp_Extract : R → @Rules U → W → (gmap string (@value U) * option error) * W
}.

Section Engine.
Context {U E R W : Type} `{!NetURL U, !Element U E, !Response U R W}.

(** [fmt.Sprintf("%v", v)]. *)
Context (Sprint : @value U → string).

Local Abbreviation value := (@value U).
Local Abbreviation Selector := (@Selector U).
Local Abbreviation Rules := (@Rules U).
Local Abbreviation url_URL := (@url_URL U).

(** What the engine did, in order: the queries it put to elements and the
    pages it asked for, with the rules it asked with and what came back. *)
Inductive event : Type :=
| EvFind (parent : E) (expr ty : string)
| EvFindAll (parent : E) (expr ty : string)
| EvExtract (rules : Rules) (found : gmap string value) (err : option error).

(** The state the engine threads: the next free location, the world behind
    [Response.Extract], and the trace so far. *)
Record St : Type := mkSt {
  st_next : loc;
  st_world : W;
  st_trace : list event
}.

Definition log (ev : event) (st : St) : St :=
  mkSt (st_next st) (st_world st) (st_trace st ++ [ev]).

(** [ToURL] (convFunc.go): [url.Parse] of a string, [ErrMustBeString] for
    anything else. *)
Definition ToURL (v : value) (n : loc) : (option url_URL * option error) * loc :=
  match v with
  | VStr rawURL =>
      match url_Parse rawURL with
      | inl u => ((Some (mkURL n u), None), S n)
      | inr err => ((None, Some err), n)
      end
  | _ => ((None, Some ErrMustBeString), n)
  end.

(** The first loop of [followSelector]: every raw value is converted, a
    relative URL is resolved against the URL of the response. *)
Fixpoint follow_urls (resp : R) (rawURL : list value) (urls : list url_URL)
    (errs : option error) (n : loc) : (list url_URL * option error) * loc :=
  match rawURL with
  | [] => ((urls, errs), n)
  | rawU :: rest =>
      match ToURL rawU n with
      | ((_, Some err), n1) =>
          follow_urls resp rest urls (AddError errs (Sprint rawU) (Some err)) n1
      | ((None, None), n1) => follow_urls resp rest urls errs n1
      | ((Some u, None), n1) =>
          if url_IsAbs (url_val u)
          then follow_urls resp rest (urls ++ [u]) errs n1
          else
            let u' := mkURL n1 (url_ResolveReference (Resp_URL resp) (url_val u)) in
            follow_urls resp rest (urls ++ [u']) errs (S n1)
      end
  end.

Definition with_URL (rules : Rules) (u : url_URL) : Rules :=
  mkRules (Method rules) (Some u) (Proxy rules) (Header rules) (Timeout rules)
    (UseCookies rules) (IgnoreRobotsTxt rules) (Delay rules)
    (Rules_Selectors rules) (Rules_Fields_loc rules) (Rules_Fields rules).

(** The second loop of [followSelector]: one [Extract] per URL, with a
    clone of the rules. *)
Fixpoint follow_fetch (resp : R) (rules : Rules) (urls : list url_URL)
    (result : gmap string value) (errs : option error) (st : St)
  : (gmap string value * option error) * St :=
  match urls with
  | [] => ((result, errs), st)
  | u :: rest =>
      let '(cRules0, n1) := Rules_Clone rules (st_next st) in
      let cRules := with_URL cRules0 u in
      let '((found, err), w1) := Resp_Extract resp cRules (st_world st) in
      let st1 := mkSt n1 w1 (st_trace st ++ [EvExtract cRules found err]) in
      match err with
      | Some _ =>
          follow_fetch resp rules rest result
            (AddError errs (url_String (url_val u)) err) st1
      | None =>
          follow_fetch resp rules rest
            (<[url_String (url_val u) := VMap found]> result) errs st1
      end
  end.

(** [followSelector].  The rules and their clones go back to the pool at the
    end ([ReleaseRules]); nothing reads them afterwards. *)
Definition followSelector (src : Rules) (resp : R) (selector : Selector)
    (rawURL : list value) (st : St) : (gmap string value * option error) * St :=
  let '((urls, errs), n1) := follow_urls resp rawURL [] None (st_next st) in
  match errs with
  | Some _ => ((∅, errs), mkSt n1 (st_world st) (st_trace st))
  | None =>
      let '(rules, n2) := Selector_Rules selector src n1 in
      follow_fetch resp rules urls ∅ None (mkSt n2 (st_world st) (st_trace st))
  end.

(** The loop of [findSelectors], over the function that evaluates one
    selector. *)
Definition findSelectors_loop
    (findOne : Selector → E → St → (value * option error) * St)
  : list Selector → E → gmap string value → option error → St →
    (gmap string value * option error) * St :=
  fix loop selectors parent result errs st :=
    match selectors with
    | [] => ((result, errs), st)
    | selector :: rest =>
        let '((found, err), st1) := findOne selector parent st in
        match err with
        | Some _ => loop rest parent result (AddError errs (Name selector) err) st1
        | None => loop rest parent (<[Name selector := found]> result) errs st1
        end
    end.

(** The loop of [findAllSelector] over the children when the selector has
    nested selectors and does not follow: [i] is the index of the child. *)
Fixpoint findAll_nested
    (nested : E → St → (gmap string value * option error) * St)
    (name : string) (children : list E) (i : nat)
    (result : list value) (errs : option error) (st : St)
  : (list value * option error) * St :=
  match children with
  | [] => ((result, errs), st)
  | child :: rest =>
      let '((found, err), st1) := nested child st in
      match err with
      | Some _ =>
          findAll_nested nested name rest (S i) result
            (AddError errs (name +:+ "#" +:+ pretty i) err) st1
      | None =>
          findAll_nested nested name rest (S i) (result ++ [VMap found]) errs st1
      end
  end.

(** [findAllSelector], over the function that evaluates the nested
    selectors on a child. *)
Definition findAllSelector_with
    (nested : E → St → (gmap string value * option error) * St)
    (src : Rules) (resp : R) (selector : Selector) (parent : E) (st : St)
  : (value * option error) * St :=
  let st0 := log (EvFindAll parent (Expr selector) (Type_ selector)) st in
  match FindAll parent (Expr selector) (Type_ selector) with
  | (_, Some err) => ((VNil, Some err), st0)
  | (children, None) =>
      if negb (Follow selector) && bool_decide (0 < length (Selectors selector))
      then
        let '((result, errs), st1) :=
          findAll_nested nested (Name selector) children 0 [] None st0 in
        ((VList result, errs), st1)
      else
        let result := map Value children in
        if Follow selector
        then
          let '((found, errs), st1) := followSelector src resp selector result st0 in
          ((VMap found, errs), st1)
        else ((VList result, None), st0)
  end.

(** [findSelector].  A selector in a list is not nil and an element that
    [Find] gave is not nil, so the nil guard at the top has nothing to do. *)
Fixpoint findSelector (src : Rules) (resp : R) (selector : Selector)
    (parent : E) (st : St) {struct selector} : (value * option error) * St :=
  match selector with
  | mkSelector _ name expr ty all follow sels _ _ =>
      let nested := λ (child : E) (st : St),
        findSelectors_loop (λ sel, findSelector src resp sel) sels child ∅ None st in
      if all
      then findAllSelector_with nested src resp selector parent st
      else
        let st0 := log (EvFind parent expr ty) st in
        match Find parent expr ty with
        | (_, Some err) => ((VNil, Some err), st0)
        | (None, None) => ((VNil, None), st0)
        | (Some child, None) =>
            if follow
            then
              let '((found, errs), st1) :=
                followSelector src resp selector [Value child] st0 in
              ((VMap found, errs), st1)
            else if bool_decide (0 < length sels)
            then
              let '((found, errs), st1) := nested child st0 in
              ((VMap found, errs), st1)
            else ((Value child, None), st0)
        end
  end.

(** [findSelectors].  The response and the parent are not nil here
    ([Parsers.Parse] checks the response, and an element is what a parser
    or [Find] gave), and for a nil list of selectors the guard gives what
    the loop gives for an empty one. *)
Definition findSelectors (src : Rules) (resp : R) (selectors : list Selector)
    (parent : E) (st : St) : (gmap string value * option error) * St :=
  findSelectors_loop (findSelector src resp) selectors parent ∅ None st.

(** [findAllSelector]. *)
Definition findAllSelector (src : Rules) (resp : R) (selector : Selector)
    (parent : E) (st : St) : (value * option error) * St :=
  findAllSelector_with (findSelectors src resp (Selectors selector))
    src resp selector parent st.

(** What each selector of a list gives when its turn comes, each one from
    the state the one before it left. *)
Fixpoint attempts (src : Rules) (resp : R) (selectors : list Selector)
    (parent : E) (st : St) : list (Selector * (value * option error)) :=
  match selectors with
  | [] => []
  | selector :: rest =>
      let '(res, st1) := findSelector src resp selector parent st in
      (selector, res) :: attempts src resp rest parent st1
  end.

(** The pages asked for in a trace, in order. *)
Definition extracts (trace : list event)
  : list (Rules * gmap string value * option error) :=
  omap (λ ev, match ev with
              | EvExtract rules found err => Some (rules, found, err)
              | _ => None
              end) trace.

(** The address a page was asked for at. *)
Definition asked (rules : Rules) : string :=
  match URL rules with
  | Some u => url_String (url_val u)
  | None => ""
  end.

(** What a request made while following has of the rules it was cloned
    from. *)
Definition request_of (rules : Rules) (u : url_URL)
    (f : Rules * gmap string value * option error) : Prop :=
  URL f.1.1 = Some u ∧
  map erase (Rules_Selectors f.1.1) = map erase (Rules_Selectors rules) ∧
  Method f.1.1 = Method rules ∧ Timeout f.1.1 = Timeout rules ∧
  UseCookies f.1.1 = UseCookies rules ∧
  IgnoreRobotsTxt f.1.1 = IgnoreRobotsTxt rules ∧
  Delay f.1.1 = Delay rules ∧
  hd_map <$> Header f.1.1 = hd_map <$> Header rules.

Definition event_of (f : Rules * gmap string value * option error) : event :=
  EvExtract f.1.1 f.1.2 f.2.

Definition keep_found (m : gmap string value)
    (f : Rules * gmap string value * option error) : gmap string value :=
  match f.2 with
  | None => <[asked f.1.1 := VMap f.1.2]> m
  | Some _ => m
  end.

Definition keep_error (e : option error)
    (f : Rules * gmap string value * option error) : option error :=
  AddError e (asked f.1.1) f.2.

(** The query a selector puts to its parent. *)
Definition query_of (selector : Selector) (parent : E) : event :=
  if All selector
  then EvFindAll parent (Expr selector) (Type_ selector)
  else EvFind parent (Expr selector) (Type_ selector).

(** An event that asks for a page. *)
Definition is_extract (ev : event) : bool :=
  match ev with EvExtract _ _ _ => true | _ => false end.




End Engine.

(** ** Building selectors from raw input (selector.go, [processRaw]) *)

(** What a call gives when it may panic. *)
Inductive outcome (A : Type) : Type :=
| Ret (a : A)
| Panic (r : string).
Arguments Ret {A} a.
Arguments Panic {A} r.

Section Construction.
Context {U : Type}.

Local Abbreviation value := (@value U).
Local Abbreviation Selector := (@Selector U).

(** A [ConvFunc], or nil. *)
Definition ConvFunc : Type := option (string → value → value * option error).

(** The order in which Go ranges over a map: some order of its entries. *)
Context (map_range : gmap string value → list (string * value)).

Definition with_Name (s : Selector) (name : string) : Selector :=
  mkSelector (sel_loc s) name (Expr s) (Type_ s) (All s) (Follow s)
    (Selectors s) (Fields_loc s) (Fields s).

(** What [processRaw] does with one converted value on a [Selector]: the
    field of that name is set when the value has the type of the field, a
    key that names no field goes to the field bag.  [reflect.ValueOf(nil)]
    is the zero [reflect.Value]: asking for its type panics, and setting a
    map index to it deletes the key.  A raw map assigned to [Fields] becomes
    the bag; the run-time identity of raw maps is not tracked, the bag keeps
    its location. *)
Definition assign_Selector (s : Selector) (key : string) (v : value)
  : outcome (Selector * option error) :=
  let notAssignable := Ret (s, Some ErrNotAssignable) in
  let nilPanic := Panic "reflect: call of reflect.Value.Type on zero Value" in
  let isField :=
    bool_decide (key ∈ [KeyName; KeyExpr; KeyType; KeyAll; KeyFollow;
                        KeySelectors; KeyFields]) in
  if isField then
    match v with
    | VNil => nilPanic
    | VStr x =>
        if decide (key = KeyName) then
          Ret (mkSelector (sel_loc s) x (Expr s) (Type_ s) (All s) (Follow s)
                 (Selectors s) (Fields_loc s) (Fields s), None)
        else if decide (key = KeyExpr) then
          Ret (mkSelector (sel_loc s) (Name s) x (Type_ s) (All s) (Follow s)
                 (Selectors s) (Fields_loc s) (Fields s), None)
        else if decide (key = KeyType) then
          Ret (mkSelector (sel_loc s) (Name s) (Expr s) x (All s) (Follow s)
                 (Selectors s) (Fields_loc s) (Fields s), None)
        else notAssignable
    | VBool b =>
        if decide (key = KeyAll) then
          Ret (mkSelector (sel_loc s) (Name s) (Expr s) (Type_ s) b (Follow s)
                 (Selectors s) (Fields_loc s) (Fields s), None)
        else if decide (key = KeyFollow) then
          Ret (mkSelector (sel_loc s) (Name s) (Expr s) (Type_ s) (All s) b
                 (Selectors s) (Fields_loc s) (Fields s), None)
        else notAssignable
    | VSelectors l =>
        if decide (key = KeySelectors) then
          Ret (mkSelector (sel_loc s) (Name s) (Expr s) (Type_ s) (All s) (Follow s)
                 l (Fields_loc s) (Fields s), None)
        else notAssignable
    | VMap m =>
        if decide (key = KeyFields) then
          Ret (mkSelector (sel_loc s) (Name s) (Expr s) (Type_ s) (All s) (Follow s)
                 (Selectors s) (Fields_loc s) m, None)
        else notAssignable
    | _ => notAssignable
    end
  else
    match v with
    | VNil =>
        Ret (mkSelector (sel_loc s) (Name s) (Expr s) (Type_ s) (All s) (Follow s)
               (Selectors s) (Fields_loc s) (delete key (Fields s)), None)
    | _ =>
        Ret (mkSelector (sel_loc s) (Name s) (Expr s) (Type_ s) (All s) (Follow s)
               (Selectors s) (Fields_loc s) (<[key := v]> (Fields s)), None)
    end.

(** The loop of [processRaw] on a [Selector], over the entries in the order
    Go ranges over them. *)
Fixpoint processRaw_loop (convFunc : ConvFunc) (raw : list (string * value))
    (output : Selector) (errs : option error) : outcome (Selector * option error) :=
  match raw with
  | [] => Ret (output, errs)
  | (key, v) :: rest =>
      let '(v', err) :=
        match convFunc with
        | Some f => f key v
        | None => (v, None)
        end in
      match err with
      | Some _ => processRaw_loop convFunc rest output (AddError errs key err)
      | None =>
          match assign_Selector output key v' with
          | Panic r => Panic r
          | Ret (output', e) =>
              processRaw_loop convFunc rest output' (AddError errs key e)
          end
      end
  end.

(** [processRaw] at [Selector]; a nil raw map has no entries. *)
Definition processRaw (raw : gmap string value) (output : Selector) (convFunc : ConvFunc)
  : outcome (Selector * option error) :=
  processRaw_loop convFunc (map_range raw) output None.

(** [newSelector].  [selectorPool.Get()] gives a cleared selector, at the
    next free locations. *)
Definition newSelector (name : string) (rawSelector : value) (convFunc : ConvFunc)
    (n : loc) : outcome (option Selector * option error) * loc :=
  let selector := mkSelector n "" "" "" false false [] (S n) ∅ in
  match rawSelector with
  | VStr selectorValue =>
      if decide (selectorValue = "") then (Ret (None, None), S (S n))
      else
        (Ret (Some (mkSelector n name selectorValue "" false false [] (S n) ∅),
              None), S (S n))
  | VMap selectorValue =>
      match processRaw (delete KeyName selectorValue) selector convFunc with
      | Panic r => (Panic r, S (S n))
      | Ret (selector', err) => (Ret (Some (with_Name selector' name), err), S (S n))
      end
  | _ => (Ret (None, Some ErrInvalidSelector), S (S n))
  end.

(** The loop of [newSelectors]. *)
Fixpoint newSelectors_loop (convFunc : ConvFunc) (entries : list (string * value))
    (selectors : list Selector) (errs : option error) (n : loc)
  : outcome (list Selector * option error) * loc :=
  match entries with
  | [] => (Ret (selectors, errs), n)
  | (name, v) :: rest =>
      if bool_decide (name = "") || is_nil v then
        newSelectors_loop convFunc rest selectors errs n
      else
        match newSelector name v convFunc n with
        | (Panic r, n1) => (Panic r, n1)
        | (Ret (_, Some err), n1) =>
            newSelectors_loop convFunc rest selectors (AddError errs name (Some err)) n1
        | (Ret (Some selector, None), n1) =>
            newSelectors_loop convFunc rest (selectors ++ [selector]) errs n1
        | (Ret (None, None), n1) =>
            newSelectors_loop convFunc rest selectors errs n1
        end
  end.

(** [newSelectors]. *)
Definition newSelectors (rawSelectors : value) (convFunc : ConvFunc) (n : loc)
  : outcome (list Selector * option error) * loc :=
  match rawSelectors with
  | VNil => (Ret ([], None), n)
  | VMap selectorsMap => newSelectors_loop convFunc (map_range selectorsMap) [] None n
  | _ => (Ret ([], Some ErrInvalidSelectors), n)
  end.

End Construction.

(** ** The orchestrator (colibri.go) *)

Definition DefaultUserAgent : string := "colibri/0.1".
Definition ErrClientIsNil : error := ELeaf "Client is nil".
Definition ErrParserIsNil : error := ELeaf "Parser is nil".
Definition ErrRulesIsNil : error := ELeaf "Rules is nil".

Section Orchestrator.
Context {U R W : Type}.

Local Abbreviation Rules := (@Rules U).
Local Abbreviation url_URL := (@url_URL U).

(** [strings.TrimSpace], and the URL of a response. *)
Context (TrimSpace : string → string) (resp_URL : R → option url_URL).

(** The collaborators, each a transition of the world [W] that may panic.
    They read the rules they are given. *)
Record HTTPClient : Type := mkHTTPClient {
  Client_Do : Rules → W → outcome (option R * option error) * W
}.
Record DelayT : Type := mkDelay {
  Delay_Wait : option url_URL → Z → W → outcome unit * W;
  Delay_Done : option url_URL → W → outcome unit * W;
  Delay_Stamp : option url_URL → W → outcome unit * W
}.
Record RobotsTxtT : Type := mkRobotsTxt {
  Robots_IsAllowed : Rules → W → outcome (option error) * W
}.

(** [Colibri]; a nil collaborator is [None]. *)
Record Colibri : Type := mkColibri {
  Client : option HTTPClient;
  Delay_ : option DelayT;
  RobotsTxt : option RobotsTxtT
}.

(** The calls [Do] made to its collaborators, in order. *)
Inductive call : Type :=
| CallIsAllowed (rules : Rules)
| CallWait (u : option url_URL) (d : Z)
| CallDone (u : option url_URL)
| CallClientDo (rules : Rules)
| CallStamp (u : option url_URL).

Record DSt : Type := mkDSt {
  d_next : loc;
  d_world : W;
  d_calls : list call
}.

(** [Header.Get] and [Header.Set] at a key in canonical form. *)
Definition Header_Get (h : http_Header) (key : string) : string :=
  match hd_map h !! key with
  | Some (v :: _) => v
  | _ => ""
  end.
Definition Header_Set (h : http_Header) (key v : string) : http_Header :=
  mkHeader (hd_loc h) (<[key := [v]]> (hd_map h)).

Definition with_Header (rules : Rules) (h : http_Header) : Rules :=
  mkRules (Method rules) (URL rules) (Proxy rules) (Some h) (Timeout rules)
    (UseCookies rules) (IgnoreRobotsTxt rules) (Delay rules)
    (Rules_Selectors rules) (Rules_Fields_loc rules) (Rules_Fields rules).

(** The first steps of [Do] on rules that are not nil: a nil header becomes
    a new one, and a User-Agent that is blank is set to the default. *)
Definition default_header (rules : Rules) (n : loc) : Rules * loc :=
  let '(h, n1) :=
    match Header rules with
    | None => (mkHeader n ∅, S n)
    | Some h => (h, n)
    end in
  let h' :=
    if decide (TrimSpace (Header_Get h "User-Agent") = "")
    then Header_Set h "User-Agent" DefaultUserAgent
    else h in
  (with_Header rules h', n1).

(** What the deferred [recover] makes of a panic: [fmt.Errorf("%v", r)]. *)
Definition recovered (r : string) : option error := Some (ELeaf r).

(** The end of [Do], from the call of the transport on: the deferred
    [Delay.Done] runs when [waited], whatever happened before it, and a
    panic of its own is the one that is recovered. *)
Definition do_fetch (c : Colibri) (client : HTTPClient) (rules : Rules)
    (waited : bool) (w : W) (calls : list call)
  : (option R * option error) * W * list call :=
  let '(res, w1) := Client_Do client rules w in
  let calls1 := calls ++ [CallClientDo rules] in
  let '(resp, err, w2, calls2) :=
    match res with
    | Panic r => (None, recovered r, w1, calls1)
    | Ret (resp, err) =>
        match Delay_ c, resp with
        | Some d, Some rp =>
            let '(o, w2) := Delay_Stamp d (resp_URL rp) w1 in
            let calls2 := calls1 ++ [CallStamp (resp_URL rp)] in
            match o with
            | Panic r => (resp, recovered r, w2, calls2)
            | Ret _ => (resp, err, w2, calls2)
            end
        | _, _ => (resp, err, w1, calls1)
        end
    end in
  match Delay_ c, waited with
  | Some d, true =>
      let '(o, w3) := Delay_Done d (URL rules) w2 in
      let calls3 := calls2 ++ [CallDone (URL rules)] in
      match o with
      | Panic r => ((resp, recovered r), w3, calls3)
      | Ret _ => ((resp, err), w3, calls3)
      end
  | _, _ => ((resp, err), w2, calls2)
  end.

(** [Colibri.Do].  The result is what [Do] returns, the caller's rules as
    [Do] leaves them, and the state. *)
Definition Do (c : Colibri) (rules : option Rules) (st : DSt)
  : (option R * option error) * option Rules * DSt :=
  match Client c with
  | None => ((None, Some ErrClientIsNil), rules, st)
  | Some client =>
      match rules with
      | None => ((None, Some ErrRulesIsNil), None, st)
      | Some rules0 =>
          let '(rules1, n1) := default_header rules0 (d_next st) in
          let gate :=
            match RobotsTxt c with
            | Some robots =>
                if IgnoreRobotsTxt rules1 then (Ret None, d_world st, d_calls st)
                else
                  let '(o, w1) := Robots_IsAllowed robots rules1 (d_world st) in
                  (o, w1, d_calls st ++ [CallIsAllowed rules1])
            | None => (Ret None, d_world st, d_calls st)
            end in
          match gate with
          | (Panic r, w1, calls1) =>
              ((None, recovered r), Some rules1, mkDSt n1 w1 calls1)
          | (Ret (Some err), w1, calls1) =>
              ((None, Some err), Some rules1, mkDSt n1 w1 calls1)
          | (Ret None, w1, calls1) =>
              match Delay_ c with
              | Some d =>
                  if bool_decide (0 < Delay rules1)%Z then
                    let '(o, w2) := Delay_Wait d (URL rules1) (Delay rules1) w1 in
                    let calls2 := calls1 ++ [CallWait (URL rules1) (Delay rules1)] in
                    match o with
                    | Panic r =>
                        ((None, recovered r), Some rules1, mkDSt n1 w2 calls2)
                    | Ret _ =>
                        let '(res, w3, calls3) :=
                          do_fetch c client rules1 true w2 calls2 in
                        (res, Some rules1, mkDSt n1 w3 calls3)
                    end
                  else
                    let '(res, w3, calls3) :=
                      do_fetch c client rules1 false w1 calls1 in
                    (res, Some rules1, mkDSt n1 w3 calls3)
              | None =>
                  let '(res, w3, calls3) :=
                    do_fetch c client rules1 false w1 calls1 in
                  (res, Some rules1, mkDSt n1 w3 calls3)
              end
          end
      end
  end.

End Orchestrator.

(** ** [Colibri.Extract] (colibri.go) *)

Definition ErrNilDereference : string :=
  "runtime error: invalid memory address or nil pointer dereference".

Section Extraction.
Context {U R W : Type}.

Local Abbreviation Rules := (@Rules U).
Local Abbreviation value := (@value U).
Local Abbreviation url_URL := (@url_URL U).

Context (TrimSpace : string → string) (resp_URL : R → option url_URL).

(** The [Parser] interface as [Extract] uses it: [Parse], on the rules and
    on the response that [Do] gave, which may be nil; a transition of the
    world that may panic.  A nil map is [None]. *)
Record ParserT : Type := mkParser {
  Parser_Parse : Rules → option R → W →
                 outcome (option (gmap string value) * option error) * W
}.

(** The state [Extract] threads: the state of [Do], and the calls of
    [Parse] so far, in order. *)
Record ESt : Type := mkESt {
  e_do : @DSt U W;
  e_parsed : list (Rules * option R)
}.

(** [Colibri.Extract], with the [Parser] field of the [Colibri] beside the
    other three.  The result is what [Extract] returns, the caller's rules
    as it leaves them, and the state.  Reading [rules.Selectors] panics on
    nil rules; the named results keep what was assigned before a panic. *)
Definition Extract (c : @Colibri U R W) (parser : option ParserT)
    (rules : option Rules) (st : ESt)
  : (option R * option (gmap string value) * option error) * option Rules * ESt :=
  match parser with
  | None => ((None, None, Some ErrParserIsNil), rules, st)
  | Some p =>
      let '((resp, err), rules1, dst) := Do TrimSpace resp_URL c rules (e_do st) in
      match err with
      | Some _ => ((None, None, err), rules1, mkESt dst (e_parsed st))
      | None =>
          match rules1 with
          | None =>
              ((resp, None, recovered ErrNilDereference), rules1,
               mkESt dst (e_parsed st))
          | Some r1 =>
              if bool_decide (0 < length (Rules_Selectors r1))
              then
                let '(o, w1) := Parser_Parse p r1 resp (d_world dst) in
                let st1 := mkESt (mkDSt (d_next dst) w1 (d_calls dst))
                                 (e_parsed st ++ [(r1, resp)]) in
                match o with
                | Panic r => ((resp, None, recovered r), rules1, st1)
                | Ret (output, err1) => ((resp, output, err1), rules1, st1)
                end
              else ((resp, None, None), rules1, mkESt dst (e_parsed st))
          end
      end
  end.

End Extraction.

(** ** Clearing and releasing (selector.go, package colibri)

    The two pools are followed by what is put into them.  A selector is
    modelled with the selectors below it, so these definitions are the
    code on a tree that reaches no selector twice; on a shared selector the
    second [Clear] would find it already cleared. *)

Section Pools.
Context {U : Type}.

Local Abbreviation Selector := (@Selector U).
Local Abbreviation Rules := (@Rules U).

(** [Selector.Clear]: the selector as it is left, which keeps its field
    map, now empty, and the selectors put into the pool on the way, in
    order: each nested selector is cleared and put, [ReleaseSelector]. *)
Fixpoint Selector_Clear (selector : Selector) : Selector * list Selector :=
  match selector with
  | mkSelector l _ _ _ _ _ sels fl _ =>
      let puts :=
        (fix release_all (ss : list Selector) : list Selector :=
           match ss with
           | [] => []
           | sel :: rest =>
               let '(cleared, below) := Selector_Clear sel in
               (below ++ [cleared]) ++ release_all rest
           end) sels in
      (mkSelector l "" "" "" false false [] fl ∅, puts)
  end.

(** [ReleaseSelector]: what it puts into the selector pool. *)
Definition ReleaseSelector (selector : Selector) : list Selector :=
  let '(cleared, below) := Selector_Clear selector in
  below ++ [cleared].

(** [Rules.Clear]: the rules as they are left and the selectors put into
    the selector pool. *)
Definition Rules_Clear (rules : Rules) : Rules * list Selector :=
  (mkRules "" None None None 0 false false 0 [] (Rules_Fields_loc rules) ∅,
   flat_map ReleaseSelector (Rules_Selectors rules)).

(** [ReleaseRules]: the rules put into the rules pool, and the selectors
    put into the selector pool. *)
Definition ReleaseRules (rules : Rules) : Rules * list Selector :=
  Rules_Clear rules.

(** A selector as [Clear] leaves it. *)
Definition blank (selector : Selector) : Selector :=
  mkSelector (sel_loc selector) "" "" "" false false [] (Fields_loc selector) ∅.

(** The selectors of a tree, each one after the selectors below it. *)
Fixpoint postorder (selector : Selector) : list Selector :=
  match selector with
  | mkSelector _ _ _ _ _ _ sels _ _ => flat_map postorder sels ++ [selector]
  end.

(** The pointers and maps that rules hold, the ones of their selectors
    included. *)
Definition Rules_locs (rules : Rules) : list loc :=
  from_option (λ h, [hd_loc h]) [] (Header rules) ++
  from_option (λ u, [url_loc u]) [] (URL rules) ++
  from_option (λ u, [url_loc u]) [] (Proxy rules) ++
  Rules_Fields_loc rules :: flat_map own_locs (Rules_Selectors rules).

End Pools.

(** ** Views of the engine *)

Section EngineViews.
Context {U E R W : Type} `{!NetURL U, !Element U E, !Response U R W}.
Context (Sprint : @value U → string).

Local Abbreviation value := (@value U).
Local Abbreviation Selector := (@Selector U).
Local Abbreviation Rules := (@Rules U).
Local Abbreviation St := (@St U E W).

(** Whether a selector follows, or one of the selectors below it. *)
Fixpoint follows (selector : Selector) : bool :=
  match selector with
  | mkSelector _ _ _ _ _ follow sels _ _ => follow || existsb follows sels
  end.

(** What the nested selectors give on each child when its turn comes, each
    child from the state the one before it left. *)
Fixpoint nested_attempts (src : Rules) (resp : R) (selectors : list Selector)
    (children : list E) (st : St) : list (gmap string value * option error) :=
  match children with
  | [] => []
  | child :: rest =>
      let '(res, st1) := findSelectors Sprint src resp selectors child st in
      res :: nested_attempts src resp selectors rest st1
  end.

(** The mapping of a child whose nested selectors gave no error. *)
Definition mapping_of (t : gmap string value * option error) : option value :=
  match t.2 with
  | None => Some (VMap t.1)
  | Some _ => None
  end.

(** The key the error of the [i]-th child is added under. *)
Definition child_key (selector : Selector) (i : nat) : string :=
  Name selector +:+ "#" +:+ pretty i.

(** A step that asks for no page: the world and the allocator stay, and
    the trace grows by queries only. *)
Definition quiet (st st' : St) : Prop :=
  st_world st' = st_world st ∧ st_next st' = st_next st ∧
  ∃ t, st_trace st' = st_trace st ++ t ∧ Forall (λ ev, is_extract ev = false) t.

(** An attempt that gave a value for [name]. *)
Definition gave (name : string) (t : Selector * (value * option error)) : bool :=
  bool_decide (Name t.1 = name) &&
  match t.2.2 with None => true | Some _ => false end.

(** An event whose rules, when it asks for a page, hold only pointers and
    maps made between [a] and [b]. *)
Definition made_in (a b : loc) (ev : @event U E) : Prop :=
  match ev with
  | EvExtract rules _ _ => Forall (λ l, a ≤ l < b) (Rules_locs rules)
  | _ => True
  end.

(** A step that asks for pages with rules of its own making only. *)
Definition own_requests (st st' : St) : Prop :=
  st_next st ≤ st_next st' ∧
  ∃ t, st_trace st' = st_trace st ++ t ∧
       Forall (made_in (st_next st) (st_next st')) t.

End EngineViews.

(** ** What one entry of a raw selector does *)

Section ConstructionViews.
Context {U : Type}.

Local Abbreviation value := (@value U).
Local Abbreviation Selector := (@Selector U).

(** What [processRaw] does to the selector for one entry: it sets a field,
    or puts the value into the field bag under the key, or takes the key
    out of it, or leaves the selector as it is. *)
Inductive action : Type :=
| Keep
| SetName (x : string)
| SetExpr (x : string)
| SetType (x : string)
| SetAll (b : bool)
| SetFollow (b : bool)
| SetSelectors (l : list Selector)
| SetFields (m : gmap string value)
| PutField (key : string) (v : value)
| DropField (key : string).

Definition apply_action (a : action) (s : Selector) : Selector :=
  match a with
  | Keep => s
  | SetName x =>
      mkSelector (sel_loc s) x (Expr s) (Type_ s) (All s) (Follow s)
        (Selectors s) (Fields_loc s) (Fields s)
  | SetExpr x =>
      mkSelector (sel_loc s) (Name s) x (Type_ s) (All s) (Follow s)
        (Selectors s) (Fields_loc s) (Fields s)
  | SetType x =>
      mkSelector (sel_loc s) (Name s) (Expr s) x (All s) (Follow s)
        (Selectors s) (Fields_loc s) (Fields s)
  | SetAll b =>
      mkSelector (sel_loc s) (Name s) (Expr s) (Type_ s) b (Follow s)
        (Selectors s) (Fields_loc s) (Fields s)
  | SetFollow b =>
      mkSelector (sel_loc s) (Name s) (Expr s) (Type_ s) (All s) b
        (Selectors s) (Fields_loc s) (Fields s)
  | SetSelectors l =>
      mkSelector (sel_loc s) (Name s) (Expr s) (Type_ s) (All s) (Follow s)
        l (Fields_loc s) (Fields s)
  | SetFields m =>
      mkSelector (sel_loc s) (Name s) (Expr s) (Type_ s) (All s) (Follow s)
        (Selectors s) (Fields_loc s) m
  | PutField key v =>
      mkSelector (sel_loc s) (Name s) (Expr s) (Type_ s) (All s) (Follow s)
        (Selectors s) (Fields_loc s) (<[key := v]> (Fields s))
  | DropField key =>
      mkSelector (sel_loc s) (Name s) (Expr s) (Type_ s) (All s) (Follow s)
        (Selectors s) (Fields_loc s) (delete key (Fields s))
  end.

(** The field an action sets, the bag for the last three. *)
Definition action_key (a : action) : option string :=
  match a with
  | Keep => None
  | SetName _ => Some KeyName
  | SetExpr _ => Some KeyExpr
  | SetType _ => Some KeyType
  | SetAll _ => Some KeyAll
  | SetFollow _ => Some KeyFollow
  | SetSelectors _ => Some KeySelectors
  | SetFields _ => Some KeyFields
  | PutField key _ => Some key
  | DropField key => Some key
  end.

(** Two outcomes of [processRaw] that leave the same selector: both
    panic with the same value, or both return, with the same selector and
    with an error both or neither. *)
Definition same_selector (o1 o2 : outcome (Selector * option error)) : Prop :=
  match o1, o2 with
  | Ret (s1, e1), Ret (s2, e2) => s1 = s2 ∧ (is_Some e1 ↔ is_Some e2)
  | Panic r1, Panic r2 => r1 = r2
  | _, _ => False
  end.

End ConstructionViews.

(** ** Plain text and the registry of parsers (package parsers) *)

Definition XPathExpr : string := "xpath".
Definition CSSSelector : string := "css".
Definition RegularExpr : string := "regular".
Definition ErrNotMatch : error := ELeaf "Content-Type does not match".
Definition ErrExprType : error := ELeaf "ExprType not compatible with Element".

(** A [TextElement]: its bytes.  A nil slice has no bytes, as the empty
    one. *)
Record TextElement : Type := mkText { text_data : string }.

Section Text.
Context {U : Type}.

(** [strings.EqualFold], and package regexp: the error of
    [regexp.Compile], if any, and for an expression that compiles the
    leftmost match of [Find] in the bytes, nil being [None], and the
    successive matches of [FindAll]. *)
Context (EqualFold : string → string → bool).
Context (re_Compile : string → option error).
Context (re_Find : string → string → option string).
Context (re_FindAll : string → string → list string).

(** [TextElement.Find]: the element it gives is never nil, it holds the
    match, or no bytes when there is none. *)
Definition Text_Find (text : TextElement) (expr exprType : string)
  : option TextElement * option error :=
  if negb (bool_decide (exprType = "")) && negb (EqualFold exprType RegularExpr)
  then (None, Some ErrExprType)
  else
    match re_Compile expr with
    | Some err => (None, Some err)
    | None => (Some (mkText (default "" (re_Find expr (text_data text)))), None)
    end.

(** [TextElement.FindAll]. *)
Definition Text_FindAll (text : TextElement) (expr exprType : string)
  : list TextElement * option error :=
  if negb (bool_decide (exprType = "")) && negb (EqualFold exprType RegularExpr)
  then ([], Some ErrExprType)
  else
    match re_Compile expr with
    | Some err => ([], Some err)
    | None => (mkText <$> re_FindAll expr (text_data text), None)
    end.

(** [TextElement.Value]: the bytes as a string. *)
Definition Text_Value (text : TextElement) : @value U := VStr (text_data text).

(** [TextElement] is an [Element]. *)
Definition Text_Element : Element U TextElement :=
  {| Find := Text_Find; FindAll := Text_FindAll; Value := Text_Value |}.

End Text.

Section Registry.
Context {U E R W : Type} `{!NetURL U, !Element U E, !Response U R W}.
Context (Sprint : @value U → string).

Local Abbreviation value := (@value U).
Local Abbreviation Rules := (@Rules U).
Local Abbreviation St := (@St U E W).

(** A [ParserFunc]: the root element of the content of a response, or an
    error; the content is what the body of the response holds. *)
Definition ParserFunc : Type := R → option E * option error.

(** [Parsers]: the functions by their expression.  The compiled expression
    an entry holds is the one of its key. *)
Record Parsers : Type := mkParsers { funcs : gmap string ParserFunc }.

(** [regexp.Compile] and [MatchString] of the compiled expression, the
    Content-Type of a response, and the order in which Go ranges over the
    functions. *)
Context (re_Compile : string → option error).
Context (re_MatchString : string → string → bool).
Context (ContentType : R → string).
Context (funcs_range : gmap string ParserFunc → list (string * ParserFunc)).

(** [Set]; nil parsers and a nil function are [None]. *)
Definition Parsers_Set (parsers : option Parsers) (expr : string)
    (parserFunc : option ParserFunc) : option Parsers * option error :=
  match parsers, parserFunc with
  | Some p, Some f =>
      if decide (expr = "") then (parsers, None)
      else
        match re_Compile expr with
        | Some err => (parsers, Some err)
        | None => (Some (mkParsers (<[expr := f]> (funcs p))), None)
        end
  | _, _ => (parsers, None)
  end.

(** [Parsers.Match]. *)
Definition Parsers_Match (parsers : Parsers) (contentType : string) : bool :=
  existsb (λ ef, re_MatchString ef.1 contentType) (funcs_range (funcs parsers)).

(** The end of [Parsers.Parse], from the call of the function that was
    picked on.  A nil map is the empty one. *)
Definition parse_with (parserFunc : ParserFunc) (rules : Rules) (resp : R)
    (st : St) : (gmap string value * option error) * St :=
  match parserFunc resp with
  | (_, Some err) => ((∅, Some err), st)
  | (None, None) => ((∅, None), st)
  | (Some parent, None) =>
      findSelectors Sprint rules resp (Rules_Selectors rules) parent st
  end.

(** [Parsers.Parse]: the first function in the order of the range whose
    expression matches. *)
Definition Parsers_Parse (parsers : Parsers) (rules : option Rules)
    (resp : option R) (st : St) : (gmap string value * option error) * St :=
  match rules, resp with
  | Some rules, Some resp =>
      match find (λ ef, re_MatchString ef.1 (ContentType resp))
                 (funcs_range (funcs parsers)) with
      | None => ((∅, Some ErrNotMatch), st)
      | Some (_, parserFunc) => parse_with parserFunc rules resp st
      end
  | _, _ => ((∅, None), st)
  end.

(** [Parsers.Clear]. *)
Definition Parsers_Clear (parsers : Parsers) : Parsers := mkParsers ∅.

End Registry.

(** ** Stand-ins for the examples

    A document whose children are found by their tag, URLs as plain
    strings, and a site that serves every page but the ones whose address
    ends in a ['!']. *)

(** What is left of [s] after its first [n] characters. *)
Fixpoint string_drop (n : nat) (s : string) : string :=
  match n, s with
  | S n', String _ s' => string_drop n' s'
  | _, _ => s
  end.

Fixpoint last_char (s : string) : option ascii :=
  match s with
  | EmptyString => None
  | String c EmptyString => Some c
  | String _ s' => last_char s'
  end.

Definition ex_absolute (s : string) : bool :=
  bool_decide (String.substring 0 4 s = "http").

#[local] Instance ex_NetURL : NetURL string := {|
  url_Parse s :=
    if bool_decide (String.substring 0 1 s = ":")
    then inr (ELeaf "missing protocol scheme") else inl s;
  url_IsAbs := ex_absolute;
  url_ResolveReference base ref :=
    if ex_absolute ref then ref
    else if decide (ref = "") then base
    else "https://ex.test" +:+ ref;
  url_String s := s;
  url_zero := ""
|}.

Inductive ex_doc : Type :=
| ExDoc (v : @value string) (children : list (string * ex_doc)).

Definition ex_value (d : ex_doc) : @value string :=
  match d with ExDoc v _ => v end.
Definition ex_children (d : ex_doc) : list (string * ex_doc) :=
  match d with ExDoc _ cs => cs end.

(** An expression that starts with [(] does not compile. *)
Definition ex_compile (expr : string) : option error :=
  if bool_decide (String.substring 0 1 expr = "(")
  then Some (ELeaf "expression must evaluate to a node-set") else None.

Definition ex_matches (d : ex_doc) (expr : string) : list ex_doc :=
  map snd (filter (λ c, c.1 = expr) (ex_children d)).

#[local] Instance ex_Element : Element string ex_doc := {|
  Find d expr _ :=
    match ex_compile expr with
    | Some err => (None, Some err)
    | None => (head (ex_matches d expr), None)
    end;
  FindAll d expr _ :=
    match ex_compile expr with
    | Some err => ([], Some err)
    | None => (ex_matches d expr, None)
    end;
  Value := ex_value
|}.

(** A response is its URL; the world counts the pages asked for. *)
#[local] Instance ex_Response : Response string string nat := {|
  Resp_URL r := r;
  Resp_Extract _ rules w :=
    let u := match URL rules with Some u => url_val u | None => "" end in
    if bool_decide (last_char u = Some "!"%char)
    then ((∅, Some (ELeaf "Not Found")), S w)
    else (({[ "page" := VStr u ]}, None), S w)
|}.

Definition ex_Sprint (v : @value string) : string :=
  match v with
  | VStr s => s
  | VNum n => pretty n
  | _ => "<nil>"
  end.

(** Leading spaces only: enough to tell a blank User-Agent. *)
Fixpoint ex_TrimSpace (s : string) : string :=
  match s with
  | String " " s' => ex_TrimSpace s'
  | _ => s
  end.

Definition ex_rules : @Rules string :=
  mkRules "GET" (Some (mkURL 1 "https://ex.test/p")) None None 0 false false 0 [] 2 ∅.

Definition ex_st : @St string ex_doc nat := mkSt 100 0 [].

Definition ex_sel (name expr : string) (all follow : bool)
    (sels : list (@Selector string)) : @Selector string :=
  mkSelector 0 name expr "" all follow sels 0 ∅.

Definition ex_resp : string := "https://ex.test/p".

(** A page with a title, two links (the second one to a page that is not
    there) and a number. *)
Definition ex_page : ex_doc :=
  ExDoc (VStr "root")
    [("title", ExDoc (VStr "My page") []);
     ("a", ExDoc (VStr "/a") []);
     ("a", ExDoc (VStr "/b!") []);
     ("n", ExDoc (VNum 2011) [])].

(** A transport that always answers, a robots gate that denies everything,
    and a world that counts the calls. *)
Definition ex_resp_URL (r : string) : option (@url_URL string) := Some (mkURL 0 r).

Definition ex_client : @HTTPClient string string nat :=
  mkHTTPClient (λ _ w, (Ret (Some "https://ex.test/p", None), S w)).

Definition ErrorRobotstxtRestriction : error :=
  ELeaf "Page not accessible due to robots.txt restriction".

Definition ex_robots : @RobotsTxtT string nat :=
  mkRobotsTxt (λ _ w, (Ret (Some ErrorRobotstxtRestriction), S w)).

Definition ex_dst : @DSt string nat := mkDSt 100 0 [].

(** A page whose two links are a path and a number. *)
Definition ex_mixed : ex_doc :=
  ExDoc (VStr "root") [("a", ExDoc (VStr "/a") []); ("a", ExDoc (VNum 2011) [])].

(** A parser that finds the address of the page. *)
Definition ex_parser : @ParserT string string nat :=
  mkParser (λ rules resp w,
    (Ret (Some {[ "page" := VStr (default "" resp) ]}, None), S w)).

Definition ex_est : @ESt string string nat := mkESt ex_dst [].

(** ** The robots.txt checker (package webextractor) *)

Definition robotsTxtPath : string := "/robots.txt".

Section Robots.
Context {U R W RD : Type} `{!NetURL U}.

Local Abbreviation Rules := (@Rules U).
Local Abbreviation url_URL := (@url_URL U).

Context (TrimSpace : string → string) (resp_URL : R → option url_URL).

(** The path and the host of a URL; what [io.ReadAll] gives on the body of
    a response and its status code; and package robotstxt:
    [FromStatusAndBytes], and [TestAgent] on the data it gave. *)
Context (url_Path url_Host : U → string).
Context (resp_ReadAll : R → string * option error).
Context (resp_StatusCode : R → Z).
Context (FromStatusAndBytes : Z → string → RD + error).
Context (TestAgent : RD → string → string → bool).

(** The last step of [IsAllowed]: the data against the path and the
    User-Agent of the rules; [Get] on a nil header gives [""]. *)
Definition robots_verdict (robotsData : RD) (u : url_URL) (rules : Rules)
  : option error :=
  let agent :=
    match Header rules with
    | Some h => Header_Get h "User-Agent"
    | None => ""
    end in
  if TestAgent robotsData (url_Path (url_val u)) agent
  then None else Some ErrorRobotstxtRestriction.

(** The rules [IsAllowed] asks for robots.txt with: the rules that an
    empty selector makes of the caller's, with the method, the URL and the
    flag set.  The empty selector is new; its field map is nil and takes
    no location of its own. *)
Definition robots_rules (rules : Rules) (u : url_URL) (ref : U) (n : loc)
  : Rules * loc :=
  let aux := mkSelector n "" "" "" false false [] n ∅ in
  let '(r, n1) := Selector_Rules aux rules (S n) in
  (mkRules "GET" (Some (mkURL n1 (url_ResolveReference (url_val u) ref)))
     (Proxy r) (Header r) (Timeout r) (UseCookies r) true (Delay r)
     (Rules_Selectors r) (Rules_Fields_loc r) (Rules_Fields r), S n1).

(** [RobotsData.IsAllowed], on the data the checker holds by host.
    Reading the URL of rules that have none panics, and so does reading
    the body of a response that is nil.  The empty selector and the rules
    go back to their pools at the end; nothing reads them afterwards.  The
    result is what [IsAllowed] returns, the data as it leaves them, and the
    state of [Do]. *)
Definition IsAllowed (data : gmap string RD) (c : @Colibri U R W) (rules : Rules)
    (st : @DSt U W) : outcome (option error) * gmap string RD * @DSt U W :=
  match URL rules with
  | None => (Panic ErrNilDereference, data, st)
  | Some u =>
      if decide (url_Path (url_val u) = robotsTxtPath) then (Ret None, data, st)
      else
        match data !! url_Host (url_val u) with
        | Some robotsData => (Ret (robots_verdict robotsData u rules), data, st)
        | None =>
            match url_Parse robotsTxtPath with
            | inr err => (Ret (Some err), data, st)
            | inl ref =>
                let '(robotsRules, n1) := robots_rules rules u ref (d_next st) in
                let '((resp, err), _, st1) :=
                  Do TrimSpace resp_URL c (Some robotsRules)
                    (mkDSt n1 (d_world st) (d_calls st)) in
                match err, resp with
                | Some _, _ => (Ret err, data, st1)
                | None, None => (Panic ErrNilDereference, data, st1)
                | None, Some rp =>
                    match resp_ReadAll rp with
                    | (_, Some err1) => (Ret (Some err1), data, st1)
                    | (buf, None) =>
                        match FromStatusAndBytes (resp_StatusCode rp) buf with
                        | inr err2 => (Ret (Some err2), data, st1)
                        | inl robotsData =>
                            (Ret (robots_verdict robotsData u rules),
                             <[url_Host (url_val u) := robotsData]> data, st1)
                        end
                    end
                end
            end
        end
  end.

End Robots.

(** An expression that matches the strings that start with it, a site
    that serves HTML, and a registry with a parser for it. *)
Definition ex_MatchString (expr s : string) : bool :=
  bool_decide (String.substring 0 (String.length expr) s = expr).

Definition ex_ContentType (r : string) : string := "text/html; charset=utf-8".

Definition ex_parsers : @Parsers ex_doc string :=
  mkParsers {[ "text/html" := λ _ : string, (Some ex_page, None);
               "text/plain" := λ _ : string, (None, Some (ELeaf "unexpected EOF")) ]}.

(** Addresses as the examples write them, with the host [ex.test], and a
    robots.txt that allows everything or nothing. *)
Definition ex_Host (s : string) : string := String.substring 8 7 s.
Definition ex_Path (s : string) : string := string_drop 15 s.
Definition ex_ReadAll (r : string) : string * option error := ("User-agent: *", None).
Definition ex_StatusCode (r : string) : Z := 200.
Definition ex_FromStatusAndBytes (status : Z) (buf : string) : bool + error :=
  inl (bool_decide (status = 200%Z)).
Definition ex_TestAgent (robotsData : bool) (path agent : string) : bool := robotsData.

(** Membership in a list that is written out: take a hypothesis apart, or
    find the element. *)
Ltac elem_cases :=
  repeat match goal with
         | H : _ ∈ [] |- _ => by apply elem_of_nil in H
         | H : _ ∈ _ :: _ |- _ => apply elem_of_cons in H as [H|H]; try discriminate
         end.
Ltac elem_find :=
  solve [repeat first [apply list_elem_of_here | apply list_elem_of_further]].

(** * Properties *)

(** ** The error aggregator *)


Lemma Errs_Get_None (errs : Errs) (key : string) :
  Errs_Get errs key = None ↔ key ∉ errs.*1.
Proof.
  induction errs as [|[k e] errs IH]; simpl.
  - split; [intros _; apply not_elem_of_nil | done].
  - rewrite not_elem_of_cons. destruct (decide (k = key)) as [Heq|Hne].
    + split; [done|]. by intros [? _].
    + rewrite IH. split; [by split | by intros [_ ?]].
Qed.

Lemma Errs_has_true (errs : Errs) (key : string) :
  Errs_has errs key = true ↔ key ∈ errs.*1.
Proof.
  unfold Errs_has. rewrite bool_decide_eq_true.
  destruct (Errs_Get errs key) eqn:Hget.
  - split; [intros _ | by eauto].
    destruct (decide (key ∈ errs.*1)) as [|Hn]; [done|].
    apply Errs_Get_None in Hn. congruence.
  - apply Errs_Get_None in Hget. split; [by intros [? ?] | done].
Qed.

Lemma Errs_has_false (errs : Errs) (key : string) :
  Errs_has errs key = false ↔ key ∉ errs.*1.
Proof.
  rewrite <- Errs_has_true. by destruct (Errs_has errs key).
Qed.

Lemma string_app_empty_r (s : string) : s +:+ "" = s.
Proof. induction s as [|c s IH]; [done|]. unfold String.app; simpl; f_equal; exact IH. Qed.




(** For one key the candidates are all different, whatever the key. *)
Lemma suffixed_inj (k : string) : Inj (=) (=) (suffixed k).
Proof.
  intros n n'. destruct n as [|n], n' as [|n']; simpl; intros Heq.
  - done.
  - rewrite <- (string_app_empty_r k) in Heq at 1. by apply (inj _) in Heq.
  - rewrite <- (string_app_empty_r k) in Heq at 2. by apply (inj _) in Heq.
  - apply (inj _) in Heq. unfold String.app in Heq; simpl in Heq.
    injection Heq as Heq. by apply (inj pretty) in Heq.
Qed.

Lemma free_suffix_spec (errs : Errs) (key : string) (fuel n : nat) :
  let r := free_suffix errs key n fuel in
  n ≤ r ≤ n + fuel ∧
  (∀ m, n ≤ m < r → Errs_has errs (suffixed key m) = true) ∧
  (r < n + fuel → Errs_has errs (suffixed key r) = false).
Proof.
  revert n. induction fuel as [|fuel IH]; intros n; simpl.
  - split; [lia|]. split; intros; lia.
  - destruct (Errs_has errs (suffixed key n)) eqn:Hn.
    + destruct (IH (S n)) as (Hr & Hbelow & Hfree).
      split; [lia|]. split.
      * intros m Hm. destruct (decide (m = n)) as [->|]; [done|].
        apply Hbelow. lia.
      * intros Hlt. apply Hfree. lia.
    + split; [lia|]. split; [intros; lia | done].
Qed.

(** The key [Errs.Add] stores under is not taken. *)
Lemma free_suffix_fresh (errs : Errs) (key : string) :
  suffixed key (free_suffix errs key 0 (length errs)) ∉ errs.*1.
Proof.
  destruct (free_suffix_spec errs key (length errs) 0) as (Hr & Hbelow & Hfree).
  set (r := free_suffix errs key 0 (length errs)) in *.
  destruct (decide (r < 0 + length errs)) as [Hlt|Hge].
  { by apply Errs_has_false, Hfree. }
  assert (r = length errs) as Hlen by lia.
  intros Hin.
  assert (suffixed key <$> seq 0 (S (length errs)) ⊆+ errs.*1) as Hsub.
  { apply NoDup_submseteq.
    - apply NoDup_fmap_2; [apply suffixed_inj | apply NoDup_seq].
    - intros x (m & -> & Hm)%list_elem_of_fmap.
      apply elem_of_seq in Hm.
      destruct (decide (m = r)) as [->|]; [done|].
      apply Errs_has_true, Hbelow. lia. }
  apply submseteq_length in Hsub.
  rewrite !length_fmap, length_seq in Hsub. lia.
Qed.

Lemma free_suffix_is (errs : Errs) (key : string) (t : nat) :
  (∀ m, m < t → Errs_has errs (suffixed key m) = true) →
  Errs_has errs (suffixed key t) = false →
  free_suffix errs key 0 (length errs) = t.
Proof.
  intros Hbelow Hfree.
  destruct (free_suffix_spec errs key (length errs) 0) as (Hr & Hb & Hf).
  set (r := free_suffix errs key 0 (length errs)) in *.
  destruct (decide (r < t)) as [Hlt|Hge].
  { assert (r < 0 + length errs ∨ r = length errs) as [Hc|Hc] by lia.
    - specialize (Hf Hc). rewrite Hbelow in Hf; [done|lia].
    - exfalso. apply (free_suffix_fresh errs key). fold r.
      apply Errs_has_true, Hbelow. done. }
  destruct (decide (r = t)) as [|Hne]; [done|].
  rewrite Hb in Hfree; [done|lia].
Qed.




Lemma Errs_Add_effective (errs : Errs) (key : string) (e : error) :
  key ≠ "" →
  Errs_Add errs key (Some e) =
  errs ++ [(suffixed key (free_suffix errs key 0 (length errs)), e)].
Proof. intros Hk. unfold Errs_Add. by destruct (decide (key = "")). Qed.





(** The additions of TestErrs: a second error under [err1] goes to
    [err1#1], an aggregate is nested, a nil error and an empty key are
    ignored. *)
Example TestErrs_Add :
  let err1 := ELeaf "err 1" in
  let err2 := ELeaf "err 2" in
  let err3 := ELeaf "err 3" in
  let subErr := AddError None "err3" (Some err3) in
  Errs_AddAll [("err1", Some err1); ("err2", Some err2); ("sub", subErr);
               ("err1", Some err1); ("err4", None); ("", Some err3)] [] =
  [("err1", err1); ("err2", err2); ("sub", EErrs [("err3", err3)]);
   ("err1#1", err1)].
Proof. vm_compute. reflexivity. Qed.

Example TestErrs_AddError :
  let err1 := ELeaf "err 1" in
  let err2 := ELeaf "err 2" in
  let err3 := ELeaf "err 3" in
  AddError None "err2" (Some err2) = Some (EErrs [("err2", err2)]) ∧
  AddError (Some err2) "err3" (Some err3) = Some (EErrs [("#", err2); ("err3", err3)]) ∧
  AddError (AddError None "err1" None) "" (Some err1) = None.
Proof. vm_compute. repeat split. Qed.

(** ** Selectors as trees *)

Section SelectorTree.
Context {U : Type}.

Local Abbreviation Selector := (@Selector U).

(** Induction on a selector, with the property for the nested selectors. *)
Lemma Selector_tree_ind (P : Selector → Prop) :
  (∀ l name expr ty all follow sels fl fields,
     Forall P sels → P (mkSelector l name expr ty all follow sels fl fields)) →
  ∀ selector, P selector.
Proof.
  intros Hstep. fix IH 1.
  intros [l name expr ty all follow sels fl fields].
  apply Hstep. induction sels as [|sel sels IHsels]; constructor.
  - apply IH.
  - exact IHsels.
Qed.

Lemma CloneSelectors_clones (sels : list Selector) (n : loc) :
  (fix clones (ss : list Selector) (n : loc) : list Selector * loc :=
     match ss with
     | [] => ([], n)
     | sel :: rest =>
         let '(c, n1) := Selector_Clone sel n in
         let '(cs, n2) := clones rest n1 in
         (c :: cs, n2)
     end) sels n = CloneSelectors sels n.
Proof.
  revert n. induction sels as [|sel sels IH]; intros n; simpl; [done|].
  destruct (Selector_Clone sel n) as [c n1]. by rewrite IH.
Qed.

Lemma Selector_Clone_unfold (selector : Selector) (n : loc) :
  Selector_Clone selector n =
  let '(sels', n') := CloneSelectors (Selectors selector) (S (S n)) in
  (mkSelector n (Name selector) (Expr selector) (Type_ selector) (All selector)
     (Follow selector) sels' (S n) (Fields selector), n').
Proof.
  destruct selector as [l name expr ty all follow sels fl fields]. simpl.
  by rewrite CloneSelectors_clones.
Qed.

(** A clone is the selector again, at new locations: every location of the
    clone is one of those handed out by the call. *)
Lemma Selector_Clone_spec (selector : Selector) (n : loc) :
  let '(c, n') := Selector_Clone selector n in
  erase c = erase selector ∧ n < n' ∧ Forall (λ l, n ≤ l < n') (own_locs c).
Proof.
  revert n. induction selector as [l name expr ty all follow sels fl fields IH]
    using Selector_tree_ind. intros n.
  rewrite Selector_Clone_unfold. simpl.
  assert (∀ m, let '(cs, m') := CloneSelectors sels m in
               map erase cs = map erase sels ∧ m ≤ m' ∧
               Forall (λ l, m ≤ l < m') (flat_map own_locs cs)) as Hsels.
  { clear -IH. induction IH as [|sel sels Hsel _ IHsels]; intros m; simpl.
    - split; [done|]. split; [lia|constructor].
    - specialize (Hsel m). destruct (Selector_Clone sel m) as [c m1].
      destruct Hsel as (He & Hm1 & Hlocs).
      specialize (IHsels m1). destruct (CloneSelectors sels m1) as [cs m2].
      destruct IHsels as (Hes & Hm2 & Hlocss). simpl.
      split; [by rewrite He, Hes|]. split; [lia|].
      apply Forall_app. split.
      + eapply Forall_impl; [exact Hlocs|]. simpl. intros; lia.
      + eapply Forall_impl; [exact Hlocss|]. simpl. intros; lia. }
  specialize (Hsels (S (S n))).
  destruct (CloneSelectors sels (S (S n))) as [cs n'].
  destruct Hsels as (Hes & Hn' & Hlocs). simpl.
  split; [by rewrite Hes|]. split; [lia|].
  repeat constructor; try lia.
  eapply Forall_impl; [exact Hlocs|]. simpl. intros; lia.
Qed.

Lemma CloneSelectors_spec (sels : list Selector) (n : loc) :
  let '(cs, n') := CloneSelectors sels n in
  map erase cs = map erase sels ∧ n ≤ n' ∧
  Forall (λ l, n ≤ l < n') (flat_map own_locs cs).
Proof.
  revert n. induction sels as [|sel sels IH]; intros n; simpl.
  - split; [done|]. split; [lia|constructor].
  - pose proof (Selector_Clone_spec sel n) as Hsel.
    destruct (Selector_Clone sel n) as [c n1]. destruct Hsel as (He & Hn1 & Hlocs).
    specialize (IH n1). destruct (CloneSelectors sels n1) as [cs n2].
    destruct IH as (Hes & Hn2 & Hlocss). simpl.
    split; [by rewrite He, Hes|]. split; [lia|].
    apply Forall_app. split.
    + eapply Forall_impl; [exact Hlocs|]. simpl. intros; lia.
    + eapply Forall_impl; [exact Hlocss|]. simpl. intros; lia.
Qed.

End SelectorTree.

(** ** The rules of a followed selector *)

Section SelectorRules.
Context {U : Type} `{!NetURL U}.

Local Abbreviation Selector := (@Selector U).
Local Abbreviation Rules := (@Rules U).

(** C2, as the code has it.  [selector.Rules(src)] takes method, proxy,
    header, timeout, cookie use, robots ignore and delay from the field bag
    of the selector when the key is there, through a type assertion (a value
    of another type gives the zero value).  When the key is not there,
    proxy, header, timeout, cookie use, robots ignore and delay are those of
    [src]; the method is left empty and the URL nil, whatever [src] has.
    An inherited header is a new map with the same entries, an inherited
    proxy a new URL, the nested selectors are new clones of the nested
    selectors of the selector with new field bags, and the field bag of the
    rules is a new empty map: their locations are among those the call
    hands out, from [n] up to [n'].  A header or proxy taken from the field
    bag is the object in the bag. *)
Theorem selector_rules_fields (selector : Selector) (src : Rules) (n : loc) :
  let '(r, n') := Selector_Rules selector src n in
  let bag := Fields selector in
  Method r = match bag !! KeyMethod with Some v => as_string v | None => "" end ∧
  match bag !! KeyProxy with
  | Some v => Proxy r = as_URL v
  | None =>
      match Proxy src with
      | None => Proxy r = None
      | Some p =>
          ∃ l, Proxy r = Some (mkURL l (url_ResolveReference (url_val p) url_zero)) ∧
               n ≤ l < n'
      end
  end ∧
  match bag !! KeyHeader with
  | Some v => Header r = as_Header v
  | None =>
      match Header src with
      | None => Header r = None
      | Some h => ∃ l, Header r = Some (mkHeader l (hd_map h)) ∧ n ≤ l < n'
      end
  end ∧
  Timeout r = match bag !! KeyTimeout with Some v => as_Duration v | None => Timeout src end ∧
  UseCookies r = match bag !! KeyUseCookies with Some v => as_bool v | None => UseCookies src end ∧
  IgnoreRobotsTxt r =
    match bag !! KeyIgnoreRobotsTxt with Some v => as_bool v | None => IgnoreRobotsTxt src end ∧
  Delay r = match bag !! KeyDelay with Some v => as_Duration v | None => Delay src end ∧
  URL r = None ∧
  Rules_Fields r = ∅ ∧ n ≤ Rules_Fields_loc r < n' ∧
  map erase (Rules_Selectors r) = map erase (Selectors selector) ∧
  Forall (λ l, n ≤ l < n') (flat_map own_locs (Rules_Selectors r)).
Proof.
  unfold Selector_Rules.
  pose proof (CloneSelectors_spec (Selectors selector) n) as Hsels.
  destruct (CloneSelectors (Selectors selector) n) as [cs n1].
  destruct Hsels as (Hes & Hn1 & Hlocs).
  assert (∀ m, n1 < m → Forall (λ l, n ≤ l < m) (flat_map own_locs cs)) as Hlocs'.
  { intros m Hm. eapply Forall_impl; [exact Hlocs|]. simpl. intros; lia. }
  destruct (decide (size (Fields selector) = 0)) as [Hempty|Hne].
  - apply map_size_empty_iff in Hempty. rewrite Hempty, !lookup_empty.
    destruct (Proxy src) as [p|], (Header src) as [h|]; simpl;
      repeat split; eauto with lia.
  - destruct (Fields selector !! KeyMethod), (Fields selector !! KeyProxy),
      (Fields selector !! KeyHeader), (Fields selector !! KeyTimeout),
      (Fields selector !! KeyUseCookies), (Fields selector !! KeyIgnoreRobotsTxt),
      (Fields selector !! KeyDelay), (Proxy src) as [p|], (Header src) as [h|];
      simpl; repeat split; eauto with lia.
Qed.

End SelectorRules.

(** Against C2 as stated, on the method: with nothing in
    the field bag the rules of a followed selector have an empty method,
    not the ["GET"] of the rules they come from. *)
Lemma selector_rules_method_not_inherited :
  let selector := ex_sel "next" "a" false true [] in
  let r := (Selector_Rules selector ex_rules 100).1 in
  Fields selector !! KeyMethod = None ∧
  Method ex_rules = "GET" ∧ Method r = "" ∧ Method r ≠ Method ex_rules.
Proof. repeat split. discriminate. Qed.

(** ** The extraction engine *)

Section EngineProps.
Context {U E R W : Type} `{!NetURL U, !Element U E, !Response U R W}.
Context (Sprint : @value U → string).

Local Abbreviation value := (@value U).
Local Abbreviation Selector := (@Selector U).
Local Abbreviation Rules := (@Rules U).
Local Abbreviation St := (@St U E W).
Local Abbreviation event := (@event U E).

(** [findSelector] in the words of the source. *)
Lemma findSelector_unfold (src : Rules) (resp : R) (selector : Selector)
    (parent : E) (st : St) :
  findSelector Sprint src resp selector parent st =
  if All selector
  then findAllSelector Sprint src resp selector parent st
  else
    let st0 := log (EvFind parent (Expr selector) (Type_ selector)) st in
    match Find parent (Expr selector) (Type_ selector) with
    | (_, Some err) => ((VNil, Some err), st0)
    | (None, None) => ((VNil, None), st0)
    | (Some child, None) =>
        if Follow selector
        then
          let '((found, errs), st1) :=
            followSelector Sprint src resp selector [Value child] st0 in
          ((VMap found, errs), st1)
        else if bool_decide (0 < length (Selectors selector))
        then
          let '((found, errs), st1) :=
            findSelectors Sprint src resp (Selectors selector) child st0 in
          ((VMap found, errs), st1)
        else ((Value child, None), st0)
    end.
Proof. by destruct selector. Qed.

Lemma findSelectors_loop_cons (src : Rules) (resp : R) (selector : Selector)
    (rest : list Selector) (parent : E) (result : gmap string value)
    (errs : option error) (st : St) :
  findSelectors_loop (findSelector Sprint src resp) (selector :: rest) parent result errs st =
  let '((found, err), st1) := findSelector Sprint src resp selector parent st in
  match err with
  | Some _ =>
      findSelectors_loop (findSelector Sprint src resp) rest parent result
        (AddError errs (Name selector) err) st1
  | None =>
      findSelectors_loop (findSelector Sprint src resp) rest parent
        (<[Name selector := found]> result) errs st1
  end.
Proof. done. Qed.

(** What one attempt adds to the result and to the errors. *)
Lemma findSelectors_loop_attempts (src : Rules) (resp : R)
    (selectors : list Selector) (parent : E) (result : gmap string value)
    (errs : option error) (st : St) :
  let tries := attempts Sprint src resp selectors parent st in
  (findSelectors_loop (findSelector Sprint src resp) selectors parent result errs st).1 =
  (fold_left (λ m t, match t.2.2 with
                     | None => <[Name t.1 := t.2.1]> m
                     | Some _ => m
                     end) tries result,
   fold_left (λ e t, AddError e (Name t.1) t.2.2) tries errs) ∧
  tries.*1 = selectors.
Proof.
  revert result errs st.
  induction selectors as [|selector rest IH]; intros result errs st; simpl; [done|].
  destruct (findSelector Sprint src resp selector parent st) as [[found err] st1].
  simpl. destruct (IH (<[Name selector := found]> result) errs st1) as [IH1 IH2].
  destruct (IH result (AddError errs (Name selector) err) st1) as [IH3 _].
  destruct err as [e|]; simpl; (split; [assumption | f_equal; exact IH2]).
Qed.

(** [AddError] on an accumulated error is [Errs.Add] on its entries. *)
Lemma entries_of_AddError (errs : option error) (key : string) (err : option error) :
  accumulated errs →
  accumulated (AddError errs key err) ∧
  entries_of (AddError errs key err) = Errs_Add (entries_of errs) key err.
Proof.
  unfold AddError, Errs_Add, accumulated.
  intros [->|[es ->]]; destruct err as [e|]; simpl;
    destruct (decide (key = "")); simpl; eauto.
Qed.

Lemma Errs_Add_absent (errs : Errs) (key : string) (e : error) :
  key ≠ "" → key ∉ errs.*1 → Errs_Add errs key (Some e) = errs ++ [(key, e)].
Proof.
  intros Hkey Habs. rewrite Errs_Add_effective by done.
  rewrite (free_suffix_is errs key 0); [done|intros; lia|].
  by apply Errs_has_false.
Qed.

Lemma Errs_Get_NoDup (errs : Errs) (key : string) (e : error) :
  NoDup errs.*1 → (key, e) ∈ errs → Errs_Get errs key = Some e.
Proof.
  induction errs as [|[k e0] errs IH]; simpl; intros Hnd Hin.
  - by apply elem_of_nil in Hin.
  - apply NoDup_cons in Hnd as [Hk Hnd].
    apply elem_of_cons in Hin as [Heq|Hin].
    + simplify_eq. by rewrite decide_True.
    + destruct (decide (k = key)) as [->|]; [|by apply IH].
      destruct Hk. apply list_elem_of_fmap. by exists (key, e).
Qed.

Lemma stored_bare_keys (adds : list (string * option error)) :
  (omap stored_bare adds).*1 `sublist_of` adds.*1.
Proof.
  induction adds as [|[k o] adds IH]; simpl; [constructor|].
  unfold stored_bare at 1. simpl. destruct o as [e|].
  - destruct (decide (k = "")); simpl; by constructor.
  - by constructor.
Qed.

(** Additions under keys that are all different and all free are stored
    under the bare keys. *)
Lemma Errs_AddAll_distinct (adds : list (string * option error)) (errs : Errs) :
  NoDup adds.*1 →
  (∀ a, a ∈ adds → a.1 ∉ errs.*1) →
  Errs_AddAll adds errs = errs ++ omap stored_bare adds.
Proof.
  revert errs. induction adds as [|[k o] adds IH]; intros errs Hnd Habs; simpl.
  - by rewrite app_nil_r.
  - apply NoDup_cons in Hnd as [Hk Hnd].
    assert (k ∉ errs.*1) as Hfree by (apply (Habs (k, o)); left).
    unfold stored_bare at 1. simpl.
    destruct o as [e|]; [destruct (decide (k = "")) as [->|Hne]|].
    + apply IH; [done|]. intros a Ha. apply Habs. by right.
    + fold (Errs_AddAll adds (Errs_Add errs k (Some e))).
      rewrite Errs_Add_absent by done.
      rewrite IH; [by rewrite <- app_assoc|done|].
      intros a Ha. rewrite fmap_app, not_elem_of_app. split.
      * apply Habs. by right.
      * simpl. rewrite list_elem_of_singleton. intros Heq. apply Hk.
        rewrite <- Heq. apply list_elem_of_fmap. by exists a.
    + apply IH; [done|]. intros a Ha. apply Habs. by right.
Qed.

(** A loop that accumulates with [AddError] is a sequence of additions. *)
Lemma fold_AddError_entries {X : Type} (key : X → string) (err : X → option error)
    (xs : list X) (errs : option error) :
  accumulated errs →
  entries_of (fold_left (λ e x, AddError e (key x) (err x)) xs errs) =
  Errs_AddAll ((λ x, (key x, err x)) <$> xs) (entries_of errs).
Proof.
  revert errs. induction xs as [|x xs IH]; intros errs Hacc; simpl; [done|].
  destruct (entries_of_AddError errs (key x) (err x) Hacc) as [Hacc' Hent].
  rewrite IH by done. by rewrite Hent.
Qed.

Lemma fold_insert_distinct (tries : list (Selector * (value * option error)))
    (result : gmap string value) :
  NoDup (Name <$> tries.*1) →
  let final := fold_left (λ m t, match t.2.2 with
                                 | None => <[Name t.1 := t.2.1]> m
                                 | Some _ => m
                                 end) tries result in
  (∀ t, t ∈ tries → t.2.2 = None → final !! Name t.1 = Some t.2.1) ∧
  (∀ k, (∀ t, t ∈ tries → t.2.2 = None → Name t.1 ≠ k) → final !! k = result !! k).
Proof.
  revert result. induction tries as [|t tries IH]; intros result Hnd; simpl.
  - split; [intros t Ht; by apply elem_of_nil in Ht | done].
  - apply NoDup_cons in Hnd as [Ht Hnd].
    assert (∀ t', t' ∈ tries → Name t'.1 ≠ Name t.1) as Hother.
    { intros t' Ht' Heq. apply Ht. rewrite <- Heq.
      apply list_elem_of_fmap. exists t'.1. split; [done|].
      apply list_elem_of_fmap. by exists t'. }
    set (result' := match t.2.2 with
                    | None => <[Name t.1 := t.2.1]> result
                    | Some _ => result
                    end).
    destruct (IH result' Hnd) as [IH1 IH2]. split.
    + intros t' [->|Ht']%elem_of_cons Hok.
      * rewrite IH2 by (intros t' Ht' _; by apply Hother).
        unfold result'. rewrite Hok. apply lookup_insert_eq.
      * by apply IH1.
    + intros k Hk. rewrite IH2 by (intros t' Ht'; apply Hk; by right).
      unfold result'. destruct (t.2.2) eqn:Hres; [done|].
      apply lookup_insert_ne. apply Hk; [by left|done].
Qed.

(** *** Following *)

Lemma Rules_Clone_spec (rules : Rules) (n : loc) :
  let '(c, n') := Rules_Clone rules n in
  n ≤ n' ∧
  map erase (Rules_Selectors c) = map erase (Rules_Selectors rules) ∧
  Method c = Method rules ∧ Timeout c = Timeout rules ∧
  UseCookies c = UseCookies rules ∧ IgnoreRobotsTxt c = IgnoreRobotsTxt rules ∧
  Delay c = Delay rules ∧ Rules_Fields c = Rules_Fields rules ∧
  hd_map <$> Header c = hd_map <$> Header rules.
Proof.
  unfold Rules_Clone, Header_Clone, URL_copy.
  destruct (Header rules) as [h|];
    [pose proof (CloneSelectors_spec (Rules_Selectors rules) (S n)) as Hs;
     destruct (CloneSelectors (Rules_Selectors rules) (S n)) as [cs n2]
    |pose proof (CloneSelectors_spec (Rules_Selectors rules) n) as Hs;
     destruct (CloneSelectors (Rules_Selectors rules) n) as [cs n2]];
    destruct Hs as (Hes & Hn2 & _);
    destruct (URL rules), (Proxy rules); simpl; repeat split; try done; lia.
Qed.

(** The second loop asks for every URL in turn, whatever the others gave,
    keeps what was found under the address of a page for the ones without
    an error and the error under the address for the others. *)
Lemma follow_fetch_spec (resp : R) (rules : Rules) (urls : list (@url_URL U))
    (result : gmap string value) (errs : option error) (st : St) :
  let '((result', errs'), st') := follow_fetch resp rules urls result errs st in
  ∃ fetched,
    st_trace st' = st_trace st ++ (event_of <$> fetched) ∧
    Forall2 (request_of rules) urls fetched ∧
    result' = fold_left keep_found fetched result ∧
    errs' = fold_left keep_error fetched errs.
Proof.
  revert result errs st. induction urls as [|u urls IH]; intros result errs st; simpl.
  - exists []. simpl. by rewrite app_nil_r.
  - pose proof (Rules_Clone_spec rules (st_next st)) as Hc.
    destruct (Rules_Clone rules (st_next st)) as [c n1].
    destruct Hc as (_ & Hsels & Hm & Ht & Hu & Hi & Hd & _ & Hh).
    destruct (Resp_Extract resp (with_URL c u) (st_world st)) as [[found err] w1].
    set (st1 := mkSt n1 w1 (st_trace st ++ [EvExtract (with_URL c u) found err])).
    assert (request_of rules u (with_URL c u, found, err)) as Hreq.
    { by repeat split. }
    destruct err as [e|].
    + specialize (IH result (AddError errs (url_String (url_val u)) (Some e)) st1).
      destruct (follow_fetch resp rules urls result _ st1) as [[result' errs'] st'].
      destruct IH as (fetched & Htr & Hreqs & Hres & Herr).
      exists ((with_URL c u, found, Some e) :: fetched).
      split; [|split; [|split]].
      * rewrite Htr. simpl. by rewrite <- app_assoc.
      * by constructor.
      * done.
      * done.
    + specialize (IH (<[url_String (url_val u) := VMap found]> result) errs st1).
      destruct (follow_fetch resp rules urls _ errs st1) as [[result' errs'] st'].
      destruct IH as (fetched & Htr & Hreqs & Hres & Herr).
      exists ((with_URL c u, found, None) :: fetched).
      split; [|split; [|split]].
      * rewrite Htr. simpl. by rewrite <- app_assoc.
      * by constructor.
      * done.
      * done.
Qed.

Lemma Selector_Rules_selectors (selector : Selector) (src : Rules) (n : loc) :
  map erase (Rules_Selectors (Selector_Rules selector src n).1) =
  map erase (Selectors selector).
Proof.
  unfold Selector_Rules.
  pose proof (CloneSelectors_spec (Selectors selector) n) as Hs.
  destruct (CloneSelectors (Selectors selector) n) as [cs n1].
  destruct Hs as (Hes & _ & _).
  destruct (decide (size (Fields selector) = 0)).
  - by destruct (URL_copy (Proxy src) (S n1)) as [p n3],
      (Header_Clone (Header src) n3) as [h n4].
  - destruct (Fields selector !! KeyProxy);
      [destruct (Fields selector !! KeyHeader);
        [done | by destruct (Header_Clone (Header src) (S n1))]
      |destruct (URL_copy (Proxy src) (S n1)) as [p n3];
       destruct (Fields selector !! KeyHeader);
        [done | by destruct (Header_Clone (Header src) n3)]].
Qed.

(** [followSelector]: when a raw value does not convert to a URL nothing is
    asked for; otherwise every URL is asked for, with the nested selectors
    of the selector as the selectors of the request. *)
Lemma followSelector_spec (src : Rules) (resp : R) (selector : Selector)
    (rawURL : list value) (st : St) :
  let '((urls, cerrs), n1) := follow_urls Sprint resp rawURL [] None (st_next st) in
  let '((result, errs), st') := followSelector Sprint src resp selector rawURL st in
  match cerrs with
  | Some _ =>
      result = ∅ ∧ errs = cerrs ∧
      st_trace st' = st_trace st ∧ st_world st' = st_world st
  | None =>
      ∃ fetched,
        st_trace st' = st_trace st ++ (event_of <$> fetched) ∧
        Forall2 (request_of (Selector_Rules selector src n1).1) urls fetched ∧
        Forall (λ f, map erase (Rules_Selectors f.1.1) = map erase (Selectors selector))
          fetched ∧
        result = fold_left keep_found fetched ∅ ∧
        errs = fold_left keep_error fetched None
  end.
Proof.
  unfold followSelector.
  destruct (follow_urls Sprint resp rawURL [] None (st_next st)) as [[urls cerrs] n1].
  destruct cerrs as [e|]; [done|].
  pose proof (Selector_Rules_selectors selector src n1) as Hsel.
  destruct (Selector_Rules selector src n1) as [rules n2]. simpl in Hsel |- *.
  pose proof (follow_fetch_spec resp rules urls ∅ None
                (mkSt n2 (st_world st) (st_trace st))) as Hf.
  destruct (follow_fetch resp rules urls ∅ None _) as [[result errs] st'].
  destruct Hf as (fetched & Htr & Hreq & Hres & Herr).
  exists fetched. repeat split; try done.
  clear -Hreq Hsel. induction Hreq as [|u f urls fetched Huf _ IH]; constructor; [|done].
  destruct Huf as (_ & Hs & _). by rewrite Hs.
Qed.

Lemma followSelector_trace (src : Rules) (resp : R) (selector : Selector)
    (rawURL : list value) (st : St) :
  ∃ t, st_trace (followSelector Sprint src resp selector rawURL st).2 = st_trace st ++ t ∧
       Forall (λ ev, is_extract ev) t.
Proof.
  pose proof (followSelector_spec src resp selector rawURL st) as Hspec.
  destruct (follow_urls Sprint resp rawURL [] None (st_next st)) as [[urls cerrs] n1].
  destruct (followSelector Sprint src resp selector rawURL st) as [[result errs] st'].
  destruct cerrs as [e|].
  - destruct Hspec as (_ & _ & Htr & _). exists []. simpl.
    by rewrite app_nil_r.
  - destruct Hspec as (fetched & Htr & _). exists (event_of <$> fetched).
    split; [done|]. apply Forall_fmap, Forall_true. done.
Qed.

(** *** The trace only grows *)

Lemma findAll_nested_grows
    (nested : E → St → (gmap string value * option error) * St)
    (name : string) (children : list E) (i : nat) (result : list value)
    (errs : option error) (st : St) :
  (∀ child st, st_trace st `prefix_of` st_trace (nested child st).2) →
  st_trace st `prefix_of`
    st_trace (findAll_nested nested name children i result errs st).2.
Proof.
  intros Hnested. revert i result errs st.
  induction children as [|child children IH]; intros i result errs st; simpl; [done|].
  specialize (Hnested child st).
  destruct (nested child st) as [[found err] st1]. simpl in Hnested.
  destruct err as [e|]; (etrans; [exact Hnested | apply IH]).
Qed.

Lemma findSelectors_loop_grows (src : Rules) (resp : R) (selectors : list Selector)
    (parent : E) (result : gmap string value) (errs : option error) (st : St) :
  Forall (λ s, ∀ parent st, ∃ t,
            st_trace (findSelector Sprint src resp s parent st).2 =
            st_trace st ++ query_of s parent :: t) selectors →
  let st' := (findSelectors_loop (findSelector Sprint src resp) selectors
                parent result errs st).2 in
  st_trace st `prefix_of` st_trace st' ∧
  ∀ s, s ∈ selectors → query_of s parent ∈ st_trace st'.
Proof.
  intros Hsels. revert result errs st.
  induction Hsels as [|selector rest Hsel _ IH]; intros result errs st.
  - split; [done|]. intros s Hs. by apply elem_of_nil in Hs.
  - rewrite findSelectors_loop_cons.
    destruct (Hsel parent st) as [t Ht].
    destruct (findSelector Sprint src resp selector parent st) as [[found err] st1].
    simpl in Ht.
    assert (∀ result' errs',
      let st' := (findSelectors_loop (findSelector Sprint src resp) rest
                    parent result' errs' st1).2 in
      st_trace st `prefix_of` st_trace st' ∧
      ∀ s, s ∈ selector :: rest → query_of s parent ∈ st_trace st') as Hrest.
    { intros result' errs'. destruct (IH result' errs' st1) as [Hpre Hq].
      destruct Hpre as [t' Ht']. split.
      - exists (query_of selector parent :: t ++ t').
        rewrite Ht', Ht. by rewrite <- app_assoc.
      - intros s [->|Hs]%elem_of_cons; [|by apply Hq].
        rewrite Ht', Ht. apply elem_of_app. left. apply elem_of_app. right. by left. }
    destruct err as [e|]; apply Hrest.
Qed.

(** Every evaluation of a selector starts with its query to the parent, and
    leaves what was in the trace before it. *)
Lemma findSelector_trace (src : Rules) (resp : R) (selector : Selector) :
  ∀ parent st, ∃ t,
    st_trace (findSelector Sprint src resp selector parent st).2 =
    st_trace st ++ query_of selector parent :: t.
Proof.
  induction selector as [l name expr ty all follow sels fl fields IH]
    using Selector_tree_ind.
  intros parent st. rewrite findSelector_unfold. unfold query_of. simpl.
  assert (∀ child st,
            st_trace st `prefix_of`
              st_trace (findSelectors Sprint src resp sels child st).2) as Hnested.
  { intros child st0. unfold findSelectors.
    by destruct (findSelectors_loop_grows src resp sels child ∅ None st0 IH). }
  destruct all.
  - unfold findAllSelector, findAllSelector_with. simpl.
    set (st0 := log (EvFindAll parent expr ty) st).
    destruct (FindAll parent expr ty) as [children [err|]].
    { by exists []. }
    destruct (negb follow && bool_decide (0 < length sels)) eqn:Hnest.
    + pose proof (findAll_nested_grows (findSelectors Sprint src resp sels)
                    name children 0 [] None st0 Hnested) as [t Ht].
      destruct (findAll_nested _ name children 0 [] None st0) as [[result errs] st1].
      simpl in Ht |- *. exists t. rewrite Ht. unfold st0. simpl.
      by rewrite <- app_assoc.
    + destruct follow.
      * destruct (followSelector_trace src resp
                    (mkSelector l name expr ty true true sels fl fields)
                    (map Value children) st0) as (t & Ht & _).
        destruct (followSelector _ _ _ _ _ st0) as [[found errs] st1].
        simpl in Ht |- *. exists t. rewrite Ht. unfold st0. simpl.
        by rewrite <- app_assoc.
      * by exists [].
  - set (st0 := log (EvFind parent expr ty) st).
    destruct (Find parent expr ty) as [[child|] [err|]]; try by exists [].
    destruct follow.
    + destruct (followSelector_trace src resp
                  (mkSelector l name expr ty false true sels fl fields)
                  [Value child] st0) as (t & Ht & _).
      destruct (followSelector _ _ _ _ _ st0) as [[found errs] st1].
      simpl in Ht |- *. exists t. rewrite Ht. unfold st0. simpl.
      by rewrite <- app_assoc.
    + destruct (bool_decide (0 < length sels)); [|by exists []].
      destruct (Hnested child st0) as [t Ht].
      destruct (findSelectors Sprint src resp sels child st0) as [[found errs] st1].
      simpl in Ht |- *. exists t. rewrite Ht. unfold st0. simpl.
      by rewrite <- app_assoc.
Qed.

(** *** Siblings *)

Lemma NoDup_fmap_eq {A B : Type} (f : A → B) (l : list A) (x y : A) :
  NoDup (f <$> l) → x ∈ l → y ∈ l → f x = f y → x = y.
Proof.
  intros Hnd [i Hi]%list_elem_of_lookup [j Hj]%list_elem_of_lookup Heq.
  assert (i = j) as ->; [|congruence].
  eapply NoDup_lookup; [exact Hnd| |].
  - rewrite list_lookup_fmap, Hi. done.
  - rewrite list_lookup_fmap, Hj. simpl. by rewrite Heq.
Qed.

(** What an attempt gave is what [findSelector] gives from some state. *)
Lemma attempts_elem (src : Rules) (resp : R) (selectors : list Selector)
    (parent : E) (st : St) (t : Selector * (value * option error)) :
  t ∈ attempts Sprint src resp selectors parent st →
  t.1 ∈ selectors ∧ ∃ st0, t.2 = (findSelector Sprint src resp t.1 parent st0).1.
Proof.
  revert st. induction selectors as [|selector rest IH]; intros st; simpl.
  - intros Ht. by apply elem_of_nil in Ht.
  - destruct (findSelector Sprint src resp selector parent st) as [res st1] eqn:Hres.
    intros [->|Ht]%elem_of_cons.
    + split; [by left|]. exists st. simpl. by rewrite Hres.
    + destruct (IH st1 Ht) as [Hin Hst]. split; [by right | done].
Qed.

Lemma failure_of_stored (tries : list (Selector * (value * option error))) :
  omap stored_bare ((λ t : Selector * (value * option error), (Name t.1, t.2.2)) <$> tries) =
  omap failure_of tries.
Proof.
  induction tries as [|t tries IH]; [done|].
  rewrite fmap_cons. cbn [omap list_omap]. fold (failure_of t).
  destruct (failure_of t); f_equal; exact IH.
Qed.

(** With names that are all different, the result holds what the attempts
    without an error gave, each under the name of its selector, and the
    errors hold what the other attempts gave, each under the name of its
    selector when that name is not empty. *)
Lemma findSelectors_siblings (src : Rules) (resp : R) (selectors : list Selector)
    (parent : E) (st : St) :
  NoDup (Name <$> selectors) →
  let tries := attempts Sprint src resp selectors parent st in
  let out := (findSelectors Sprint src resp selectors parent st).1 in
  tries.*1 = selectors ∧
  entries_of out.2 = omap failure_of tries ∧
  (∀ t, t ∈ tries → t.2.2 = None →
     out.1 !! Name t.1 = Some t.2.1 ∧ Errs_Get (entries_of out.2) (Name t.1) = None) ∧
  (∀ t e, t ∈ tries → t.2.2 = Some e →
     out.1 !! Name t.1 = None ∧
     (Name t.1 ≠ "" → Errs_Get (entries_of out.2) (Name t.1) = Some e)).
Proof.
  intros Hnd tries out.
  destruct (findSelectors_loop_attempts src resp selectors parent ∅ None st)
    as [Hout Htries].
  fold tries in Hout, Htries. unfold findSelectors in out. fold out in Hout.
  assert (NoDup ((λ t : Selector * (value * option error), Name t.1) <$> tries))
    as Hnames.
  { rewrite <- Htries in Hnd. by rewrite <- list_fmap_compose in Hnd. }
  assert (NoDup (Name <$> tries.*1)) as Hnames' by by rewrite Htries.
  set (adds := (λ t : Selector * (value * option error), (Name t.1, t.2.2)) <$> tries).
  assert (adds.*1 = (λ t : Selector * (value * option error), Name t.1) <$> tries)
    as Hkeys.
  { unfold adds. rewrite <- list_fmap_compose. done. }
  assert (entries_of out.2 = omap stored_bare adds) as Hent.
  { rewrite Hout. simpl.
    rewrite (fold_AddError_entries (λ t, Name t.1) (λ t, t.2.2)) by by left.
    fold adds. rewrite Errs_AddAll_distinct; [done|by rewrite Hkeys|].
    intros a _. apply not_elem_of_nil. }
  assert (omap stored_bare adds = omap failure_of tries) as Hfail.
  { apply failure_of_stored. }
  assert (NoDup (entries_of out.2).*1) as Hnd_keys.
  { rewrite Hent. eapply sublist_NoDup; [|apply stored_bare_keys].
    by rewrite Hkeys. }
  destruct (fold_insert_distinct tries ∅ Hnames') as [Hins Hkeep].
  assert (out.1 = fold_left (λ m t, match t.2.2 with
                                    | None => <[Name t.1 := t.2.1]> m
                                    | Some _ => m
                                    end) tries ∅) as Hres by by rewrite Hout.
  split; [done|]. split; [by rewrite Hent|]. split.
  - intros t Ht Hok. split; [rewrite Hres; by apply Hins|].
    apply Errs_Get_None. rewrite Hent, Hfail.
    intros ([k e] & Hk & Hin)%list_elem_of_fmap. simpl in Hk.
    apply list_elem_of_omap in Hin as (t' & Ht' & Hf).
    unfold failure_of, stored_bare in Hf. simpl in Hf.
    destruct (t'.2.2) as [e'|] eqn:Hres'; [|done].
    destruct (decide (Name t'.1 = "")); [done|]. simplify_eq.
    assert (t = t') as ->; [|congruence].
    by eapply (NoDup_fmap_eq (λ t, Name t.1) tries).
  - intros t e Ht Herr. split.
    + rewrite Hres, Hkeep; [apply lookup_empty|].
      intros t' Ht' Hok Heq.
      assert (t' = t) as ->; [|congruence].
      by eapply (NoDup_fmap_eq (λ t, Name t.1) tries).
    + intros Hname. apply Errs_Get_NoDup; [done|].
      rewrite Hent, Hfail. apply list_elem_of_omap. exists t. split; [done|].
      unfold failure_of, stored_bare. simpl. rewrite Herr.
      by destruct (decide (Name t.1 = "")).
Qed.

(** C1.  In a list of sibling selectors with names that are all different
    and not empty, every selector is attempted, whatever the others gave:
    each one has its attempt, in order, and its query to the parent is in
    the trace.  A sibling whose attempt gave an error has the error under its
    name in the aggregated error and nothing under its name in the result;
    a sibling whose attempt gave a value has the value under its name in the
    result and nothing under its name in the aggregated error.  The
    aggregated error has one entry for each failing sibling and no other. *)
Theorem find_selectors_siblings_independent (src : Rules) (resp : R)
    (selectors : list Selector) (parent : E) (st : St) :
  NoDup (Name <$> selectors) →
  Forall (λ s, Name s ≠ "") selectors →
  let tries := attempts Sprint src resp selectors parent st in
  let out := findSelectors Sprint src resp selectors parent st in
  tries.*1 = selectors ∧
  (∀ s, s ∈ selectors → query_of s parent ∈ st_trace out.2) ∧
  (∀ s found, (s, (found, None)) ∈ tries →
     out.1.1 !! Name s = Some found ∧
     Errs_Get (entries_of out.1.2) (Name s) = None) ∧
  (∀ s found err, (s, (found, Some err)) ∈ tries →
     out.1.1 !! Name s = None ∧
     Errs_Get (entries_of out.1.2) (Name s) = Some err) ∧
  entries_of out.1.2 =
    omap (λ t : Selector * (value * option error),
            (λ e, (Name t.1, e)) <$> t.2.2) tries.
Proof.
  intros Hnd Hnames tries out.
  destruct (findSelectors_siblings src resp selectors parent st Hnd)
    as (Htries & Hent & Hok & Herr).
  fold tries in Htries, Hent, Hok, Herr. fold out in Hent, Hok, Herr.
  split; [done|]. split; [|split; [|split]].
  - apply findSelectors_loop_grows.
    apply Forall_forall. intros s _. apply findSelector_trace.
  - intros s found Hin. by apply (Hok _ Hin).
  - intros s found err Hin. destruct (Herr _ err Hin eq_refl) as [Hres Hget].
    split; [done|]. apply Hget. simpl.
    apply attempts_elem in Hin as [Hin _].
    by eapply (proj1 (Forall_forall _ _) Hnames) in Hin.
  - rewrite Hent.
    assert (Forall (λ t : Selector * (value * option error), Name t.1 ≠ "") tries)
      as Hne.
    { apply Forall_forall. intros t Ht. apply attempts_elem in Ht as [Hin _].
      by eapply (proj1 (Forall_forall _ _) Hnames) in Hin. }
    clear -Hne. induction Hne as [|t tries Ht _ IH]; [done|].
    cbn [omap list_omap]. rewrite <- IH.
    unfold failure_of, stored_bare. simpl.
    destruct (t.2.2); [|done]. by destruct (decide (Name t.1 = "")).
Qed.

(** C8.  A selector with [All] false whose query to the parent gives no
    child and no error evaluates to nil without an error; in the loop over
    siblings nil is stored under its name and the errors stay as they were;
    and among siblings with different names the result holds nil under its
    name and the aggregated error holds nothing under it. *)
Theorem find_selector_no_match (src : Rules) (resp : R) (selector : Selector)
    (parent : E) (st : St) :
  All selector = false →
  Find parent (Expr selector) (Type_ selector) = (None, None) →
  findSelector Sprint src resp selector parent st =
    ((VNil, None), log (EvFind parent (Expr selector) (Type_ selector)) st) ∧
  (∀ rest result errs,
     findSelectors_loop (findSelector Sprint src resp) (selector :: rest)
       parent result errs st =
     findSelectors_loop (findSelector Sprint src resp) rest parent
       (<[Name selector := VNil]> result) errs
       (log (EvFind parent (Expr selector) (Type_ selector)) st)) ∧
  (∀ selectors st0,
     selector ∈ selectors → NoDup (Name <$> selectors) →
     let out := (findSelectors Sprint src resp selectors parent st0).1 in
     out.1 !! Name selector = Some VNil ∧
     Errs_Get (entries_of out.2) (Name selector) = None).
Proof.
  intros Hall Hfind.
  assert (∀ st1, findSelector Sprint src resp selector parent st1 =
            ((VNil, None), log (EvFind parent (Expr selector) (Type_ selector)) st1))
    as Hone.
  { intros st1. rewrite findSelector_unfold, Hall. simpl. by rewrite Hfind. }
  split; [apply Hone|]. split.
  - intros rest result errs. rewrite findSelectors_loop_cons. by rewrite Hone.
  - intros selectors st0 Hin Hnd out.
    destruct (findSelectors_siblings src resp selectors parent st0 Hnd)
      as (Htries & _ & Hok & _).
    rewrite <- Htries in Hin.
    apply list_elem_of_fmap in Hin as (t & -> & Ht).
    pose proof (attempts_elem _ _ _ _ _ _ Ht) as [_ [st1 Hres]].
    rewrite Hone in Hres. simpl in Hres.
    destruct (Hok t Ht) as [Hval Hget]; [by rewrite Hres|].
    rewrite Hres in Hval. done.
Qed.

(** *** Following all the matches *)





Lemma findSelector_follow_all (src : Rules) (resp : R) (selector : Selector)
    (parent : E) (st : St) (children : list E) :
  All selector = true → Follow selector = true →
  FindAll parent (Expr selector) (Type_ selector) = (children, None) →
  findSelector Sprint src resp selector parent st =
  let '((found, errs), st1) :=
    followSelector Sprint src resp selector (map Value children)
      (log (EvFindAll parent (Expr selector) (Type_ selector)) st) in
  ((VMap found, errs), st1).
Proof.
  intros Hall Hfollow Hfind. rewrite findSelector_unfold, Hall.
  unfold findAllSelector, findAllSelector_with. by rewrite Hfind, Hfollow.
Qed.


(** C4, as the code has it.  A selector with [All] whose query gives no
    child and no error evaluates, when it does not follow, to the empty
    list, which is a list and not nil; when it follows, to the empty
    mapping, without asking for a page. *)
Theorem find_all_no_match (src : Rules) (resp : R) (selector : Selector)
    (parent : E) (st : St) :
  All selector = true →
  FindAll parent (Expr selector) (Type_ selector) = ([], None) →
  let query := EvFindAll parent (Expr selector) (Type_ selector) in
  let out := findSelector Sprint src resp selector parent st in
  (Follow selector = false → out = ((VList [], None), log query st)) ∧
  (Follow selector = true →
     out.1 = (VMap ∅, None) ∧ st_trace out.2 = st_trace st ++ [query]) ∧
  is_nil out.1.1 = false.
Proof.
  intros Hall Hfind query out.
  assert (Follow selector = false → out = ((VList [], None), log query st)) as Hlist.
  { intros Hfollow. unfold out. rewrite findSelector_unfold, Hall.
    unfold findAllSelector, findAllSelector_with. rewrite Hfind, Hfollow. simpl.
    by destruct (bool_decide (0 < length (Selectors selector))). }
  assert (Follow selector = true →
          out.1 = (VMap ∅, None) ∧ st_trace out.2 = st_trace st ++ [query]) as Hmap.
  { intros Hfollow. unfold out.
    rewrite (findSelector_follow_all _ _ _ _ _ _ Hall Hfollow Hfind).
    unfold followSelector. simpl.
    by destruct (Selector_Rules selector src (st_next st)) as [rules n2]. }
  split; [done|]. split; [done|].
  destruct (Follow selector).
  - destruct (Hmap eq_refl) as [-> _]. done.
  - by rewrite (Hlist eq_refl).
Qed.


End EngineProps.

(** *** The engine on a page *)

Lemma find_selectors_siblings_independent_witness :
  let selectors := [ex_sel "title" "title" false false [];
                    ex_sel "bad" "(x" false false []] in
  let out := findSelectors ex_Sprint ex_rules ex_resp selectors ex_page ex_st in
  NoDup (Name <$> selectors) ∧
  Forall (λ s : @Selector string, Name s ≠ "") selectors ∧
  out.1.1 !! "title" = Some (VStr "My page") ∧
  out.1.1 !! "bad" = None ∧
  entries_of out.1.2 = [("bad", ELeaf "expression must evaluate to a node-set")].
Proof.
  intros selectors out.
  assert (NoDup (Name <$> selectors)) as Hnd.
  { apply (bool_decide_unpack _). vm_compute. exact I. }
  assert (Forall (λ s : @Selector string, Name s ≠ "") selectors) as Hne.
  { repeat constructor; discriminate. }
  destruct (find_selectors_siblings_independent ex_Sprint ex_rules ex_resp
              selectors ex_page ex_st Hnd Hne) as (_ & _ & Hok & Herr & Hent).
  split; [exact Hnd|]. split; [exact Hne|]. split; [|split].
  - apply (Hok (ex_sel "title" "title" false false []) (VStr "My page")).
    vm_compute. apply list_elem_of_here.
  - refine (proj1 (Herr (ex_sel "bad" "(x" false false []) VNil
                     (ELeaf "expression must evaluate to a node-set") _)).
    vm_compute. apply list_elem_of_further, list_elem_of_here.
  - unfold out. rewrite Hent. vm_compute. reflexivity.
Defined.

Lemma find_selector_no_match_witness :
  let selector := ex_sel "p" "p" false false [] in
  All selector = false ∧
  Find ex_page (Expr selector) (Type_ selector) = (None, None) ∧
  findSelector ex_Sprint ex_rules ex_resp selector ex_page ex_st =
    ((VNil, None), log (EvFind ex_page "p" "") ex_st).
Proof.
  intros selector. split; [reflexivity|]. split; [reflexivity|].
  exact (proj1 (find_selector_no_match ex_Sprint ex_rules ex_resp selector
                  ex_page ex_st eq_refl eq_refl)).
Defined.

(** Against C4 as stated, when the selector follows: with
    no match the result is the empty mapping, which is not a list. *)
Lemma find_all_follow_no_match_is_mapping :
  let selector := ex_sel "links" "div" true true [] in
  let out := findSelector ex_Sprint ex_rules ex_resp selector ex_page ex_st in
  All selector = true ∧
  FindAll ex_page (Expr selector) (Type_ selector) = ([], None) ∧
  out.1 = (VMap ∅, None) ∧ out.1.1 ≠ VList [].
Proof. repeat split. discriminate. Qed.

Lemma find_all_no_match_witness :
  let selector := ex_sel "span" "span" true false [] in
  All selector = true ∧
  FindAll ex_page (Expr selector) (Type_ selector) = ([], None) ∧
  findSelector ex_Sprint ex_rules ex_resp selector ex_page ex_st =
    ((VList [], None), log (EvFindAll ex_page "span" "") ex_st).
Proof.
  intros selector. split; [reflexivity|]. split; [reflexivity|].
  exact (proj1 (find_all_no_match ex_Sprint ex_rules ex_resp selector
                  ex_page ex_st eq_refl eq_refl) eq_refl).
Defined.




(** The stand-in page under the selectors of the parser tests: a value, an
    absent element, all the values of a tag, a tag without match, nested
    selectors on every match, and links that are followed (the second one to
    a page that is not there, which puts the selector among the errors). *)
Example engine_on_page :
  let selectors :=
    [ex_sel "title" "title" false false [];
     ex_sel "p" "p" false false [];
     ex_sel "a" "a" true false [];
     ex_sel "span" "span" true false [];
     ex_sel "a-url" "a" true false [ex_sel "id" "id" false false []];
     ex_sel "a-follow" "a" true true [ex_sel "title" "title" false false []]] in
  let out := findSelectors ex_Sprint ex_rules ex_resp selectors ex_page ex_st in
  out.1.1 = {[ "title" := VStr "My page";
               "p" := VNil;
               "a" := VList [VStr "/a"; VStr "/b!"];
               "span" := VList [];
               "a-url" := VList [VMap {[ "id" := VNil ]}; VMap {[ "id" := VNil ]}] ]} ∧
  out.1.2 = Some (EErrs [("a-follow",
                          EErrs [("https://ex.test/b!", ELeaf "Not Found")])]) ∧
  length (extracts (st_trace out.2)) = 2.
Proof. vm_compute. repeat split. Qed.

(** ** The orchestrator *)

Section OrchestratorProps.
Context {U R W : Type}.
Context (TrimSpace : string → string) (resp_URL : R → option (@url_URL U)).

Local Abbreviation Rules := (@Rules U).
Local Abbreviation Colibri := (@Colibri U R W).
Local Abbreviation DSt := (@DSt U W).

Lemma default_header_frame (rules : Rules) (n : loc) :
  ∃ h, (default_header TrimSpace rules n).1 = with_Header rules h.
Proof.
  unfold default_header. destruct (Header rules) as [h|]; simpl; eauto.
Qed.

Lemma do_fetch_calls (c : Colibri) (client : @HTTPClient U R W) (rules : Rules)
    (waited : bool) (w : W) (calls : list (@call U)) :
  ∃ more, (do_fetch resp_URL c client rules waited w calls).2 =
          calls ++ CallClientDo rules :: more.
Proof.
  unfold do_fetch.
  destruct (Client_Do client rules w) as [[[resp err]|r] w1];
    destruct (Delay_ c) as [d|]; try destruct resp as [rp|];
    try destruct (Delay_Stamp d (resp_URL rp) w1) as [[?|?] w2];
    destruct waited; try destruct (Delay_Done d (URL rules) _) as [[?|?] w3];
    simpl; rewrite <- ?app_assoc; simpl; eauto.
Qed.

(** What [Do] leaves of the rules it was given, once there is a client:
    the rules with the header defaulted, however the call ends. *)
Lemma Do_rules (c : Colibri) (client : @HTTPClient U R W) (rules : Rules) (st : DSt) :
  Client c = Some client →
  (Do TrimSpace resp_URL c (Some rules) st).1.2 =
  Some (default_header TrimSpace rules (d_next st)).1.
Proof.
  intros Hclient. unfold Do. rewrite Hclient.
  destruct (default_header TrimSpace rules (d_next st)) as [rules1 n1]. simpl.
  destruct (RobotsTxt c) as [robots|];
    [destruct (IgnoreRobotsTxt rules1);
      [|destruct (Robots_IsAllowed robots rules1 (d_world st)) as [[[e|]|r] w1]]|];
    try done;
    (destruct (Delay_ c) as [d|];
      [destruct (bool_decide (0 < Delay rules1)%Z);
        [destruct (Delay_Wait d (URL rules1) (Delay rules1) _) as [[?|?] w2]|]|];
      try done;
      by destruct (do_fetch resp_URL c client rules1 _ _ _) as [[res w3] calls3]).
Qed.

(** C7.  With a client and a robots gate configured and rules that do not
    ask to ignore robots.txt, when the gate denies the request (the rules
    with the header defaulted), [Do] returns no response and the error of
    the gate, and the only call it made is the one to the gate: the client
    was not called. *)
Theorem robots_denied_no_fetch (c : Colibri) (client : @HTTPClient U R W)
    (robots : @RobotsTxtT U W) (rules : Rules) (st : DSt) (err : error) (w1 : W) :
  Client c = Some client →
  RobotsTxt c = Some robots →
  IgnoreRobotsTxt rules = false →
  Robots_IsAllowed robots (default_header TrimSpace rules (d_next st)).1 (d_world st) =
    (Ret (Some err), w1) →
  let out := Do TrimSpace resp_URL c (Some rules) st in
  out.1.1 = (None, Some err) ∧
  d_calls out.2 =
    d_calls st ++ [CallIsAllowed (default_header TrimSpace rules (d_next st)).1] ∧
  (∀ r, CallClientDo r ∉ drop (length (d_calls st)) (d_calls out.2)) ∧
  d_world out.2 = w1.
Proof.
  intros Hclient Hrobots Hignore Hdenied. unfold Do. rewrite Hclient, Hrobots.
  destruct (default_header_frame rules (d_next st)) as [h Hh].
  destruct (default_header TrimSpace rules (d_next st)) as [rules1 n1].
  simpl in Hh, Hdenied |- *.
  assert (IgnoreRobotsTxt rules1 = false) as -> by by rewrite Hh.
  rewrite Hdenied. simpl. repeat split.
  intros r. rewrite drop_app_length. intros Hin.
  apply list_elem_of_singleton in Hin. discriminate.
Qed.

(** C9, as the code has it.  Once a client is configured, [Do] on rules
    that are not nil leaves the caller's rules with their header defaulted
    and every other field as it was, however the call ends: the header map
    is the one the rules had, or a new one when they had none; its
    User-Agent is the default when the one it had is blank or missing after
    trimming, and is untouched otherwise, as is every other entry; so the
    header is never empty afterwards. *)
Theorem do_defaults_header (c : Colibri) (client : @HTTPClient U R W)
    (rules : Rules) (st : DSt) :
  TrimSpace "" = "" →
  Client c = Some client →
  let out := Do TrimSpace resp_URL c (Some rules) st in
  let old := match Header rules with
             | Some h0 => h0
             | None => mkHeader (d_next st) ∅
             end in
  ∃ h, out.1.2 = Some (with_Header rules h) ∧
       hd_loc h = hd_loc old ∧
       hd_map h =
         (if decide (TrimSpace (Header_Get old "User-Agent") = "")
          then <["User-Agent" := [DefaultUserAgent]]> (hd_map old)
          else hd_map old) ∧
       hd_map h ≠ ∅.
Proof.
  intros Htrim Hclient out old.
  unfold out. rewrite (Do_rules c client rules st Hclient).
  unfold default_header. fold old.
  assert ((match Header rules with
           | Some h => (h, d_next st)
           | None => (mkHeader (d_next st) ∅, S (d_next st))
           end).1 = old) as Hold by (unfold old; by destruct (Header rules)).
  destruct (match Header rules with
            | Some h => (h, d_next st)
            | None => (mkHeader (d_next st) ∅, S (d_next st))
            end) as [h0 n1]. simpl in Hold. subst h0. simpl.
  destruct (decide (TrimSpace (Header_Get old "User-Agent") = "")) as [Hblank|Hset].
  - exists (Header_Set old "User-Agent" DefaultUserAgent).
    repeat split. simpl. apply insert_non_empty.
  - exists old. repeat split.
    intros Hempty. apply Hset. unfold Header_Get. rewrite Hempty, lookup_empty.
    exact Htrim.
Qed.

End OrchestratorProps.

Lemma robots_denied_no_fetch_witness :
  let c := mkColibri (Some ex_client) None (Some ex_robots) in
  let out := Do ex_TrimSpace ex_resp_URL c (Some ex_rules) ex_dst in
  IgnoreRobotsTxt ex_rules = false ∧
  out.1.1 = (None, Some ErrorRobotstxtRestriction) ∧
  (∀ r, CallClientDo r ∉ drop (length (d_calls ex_dst)) (d_calls out.2)).
Proof.
  intros c out. split; [reflexivity|].
  destruct (robots_denied_no_fetch ex_TrimSpace ex_resp_URL c ex_client ex_robots
              ex_rules ex_dst ErrorRobotstxtRestriction 1
              eq_refl eq_refl eq_refl eq_refl) as (Hres & _ & Hcalls & _).
  split; [exact Hres | exact Hcalls].
Defined.

(** Against C9 as stated, without a client: [Do] returns
    before it looks at the rules, and a nil header stays nil. *)
Lemma do_without_client_leaves_header :
  let c := @mkColibri string string nat None None None in
  let out := Do ex_TrimSpace ex_resp_URL c (Some ex_rules) ex_dst in
  Header ex_rules = None ∧
  out.1.1 = (None, Some ErrClientIsNil) ∧
  out.1.2 = Some ex_rules ∧
  (Header <$> out.1.2) = Some None.
Proof. repeat split. Qed.

Lemma do_defaults_header_witness :
  let c := mkColibri (Some ex_client) None (Some ex_robots) in
  let out := Do ex_TrimSpace ex_resp_URL c (Some ex_rules) ex_dst in
  ex_TrimSpace "" = "" ∧
  out.1.1 = (None, Some ErrorRobotstxtRestriction) ∧
  ∃ h, out.1.2 = Some (with_Header ex_rules h) ∧
       hd_map h = {[ "User-Agent" := [DefaultUserAgent] ]}.
Proof.
  intros c out. split; [reflexivity|]. split; [reflexivity|].
  destruct (do_defaults_header ex_TrimSpace ex_resp_URL c ex_client ex_rules ex_dst
              eq_refl eq_refl) as (h & Hrules & _ & Hmap & _).
  exists h. split; [exact Hrules | exact Hmap].
Defined.

(** ** Building selectors *)

Section ConstructionProps.
Context {U : Type}.
Context (map_range : gmap string (@value U) → list (string * @value U)).

(** Go ranges over the entries of the map, each one once. *)
Hypothesis map_range_perm : ∀ m, map_range m ≡ₚ map_to_list m.

Local Abbreviation value := (@value U).
Local Abbreviation Selector := (@Selector U).

Lemma newSelector_empty (name : string) (convFunc : ConvFunc) (n : loc) :
  newSelector map_range name (VStr "") convFunc n = (Ret (None, None), S (S n)).
Proof. done. Qed.

(** A selector that [newSelector] gives has the name it was asked for, and
    an error or a selector only comes from a value that is not [""]. *)
Lemma newSelector_named (name : string) (v : value) (convFunc : ConvFunc)
    (n n' : loc) (s : option Selector) (e : option error) :
  newSelector map_range name v convFunc n = (Ret (s, e), n') →
  (is_Some s ∨ is_Some e → v ≠ VStr "") ∧
  (∀ selector, s = Some selector → Name selector = name).
Proof.
  unfold newSelector. intros Hnew. split.
  - intros Hsome ->. simpl in Hnew. simplify_eq.
    destruct Hsome as [[? ?]|[? ?]]; done.
  - intros selector ->. destruct v; simplify_eq; try done.
    + destruct (decide (s = "")); by simplify_eq.
    + destruct (processRaw map_range (delete KeyName m) _ convFunc)
        as [[selector' err]|r]; by simplify_eq.
Qed.

Lemma newSelectors_loop_spec (convFunc : ConvFunc) (entries : list (string * value))
    (selectors : list Selector) (errs : option error) (n : loc)
    (selectors' : list Selector) (errs' : option error) (n' : loc) :
  accumulated errs →
  newSelectors_loop map_range convFunc entries selectors errs n =
    (Ret (selectors', errs'), n') →
  ∃ new adds,
    selectors' = selectors ++ new ∧
    (∀ s, s ∈ new → ∃ v, (Name s, v) ∈ entries ∧ v ≠ VStr "") ∧
    entries_of errs' = Errs_AddAll adds (entries_of errs) ∧
    adds.*1 `sublist_of` entries.*1 ∧
    (∀ a, a ∈ adds → ∃ v, (a.1, v) ∈ entries ∧ v ≠ VStr "").
Proof.
  revert selectors errs n.
  induction entries as [|[name v] entries IH]; intros selectors errs n Hacc Hloop.
  - simpl in Hloop. simplify_eq. exists [], []. rewrite app_nil_r.
    repeat split; try done; intros ? Hin; by apply elem_of_nil in Hin.
  - simpl in Hloop.
    assert (∀ (new : list Selector) (adds : list (string * option error)),
              (∀ s, s ∈ new → ∃ v, (Name s, v) ∈ entries ∧ v ≠ VStr "") →
              adds.*1 `sublist_of` entries.*1 →
              (∀ a : string * option error,
                 a ∈ adds → ∃ v, (a.1, v) ∈ entries ∧ v ≠ VStr "") →
              (∀ s, s ∈ new → ∃ v0, (Name s, v0) ∈ (name, v) :: entries ∧ v0 ≠ VStr "") ∧
              adds.*1 `sublist_of` ((name, v) :: entries).*1 ∧
              (∀ a : string * option error,
                 a ∈ adds → ∃ v0, (a.1, v0) ∈ (name, v) :: entries ∧ v0 ≠ VStr ""))
      as Hweaken.
    { intros new adds Hnew Hsub Hadds. split; [|split].
      - intros s Hs. destruct (Hnew s Hs) as (v0 & Hin & Hv0).
        exists v0. split; [by right|done].
      - by constructor.
      - intros a Ha. destruct (Hadds a Ha) as (v0 & Hin & Hv0).
        exists v0. split; [by right|done]. }
    destruct (bool_decide (name = "") || is_nil v).
    { destruct (IH _ _ _ Hacc Hloop) as (new & adds & Hsels & Hnew & Hent & Hsub & Hadds).
      exists new, adds. destruct (Hweaken new adds Hnew Hsub Hadds) as (? & ? & ?).
      done. }
    destruct (newSelector map_range name v convFunc n) as [[[s e]|r] n1] eqn:Hone;
      [|done].
    destruct (newSelector_named _ _ _ _ _ _ _ Hone) as [Hv Hname].
    destruct e as [err|]; [|destruct s as [selector|]].
    + destruct (entries_of_AddError errs name (Some err) Hacc) as [Hacc' Hadd].
      assert (newSelectors_loop map_range convFunc entries selectors
                (AddError errs name (Some err)) n1 = (Ret (selectors', errs'), n'))
        as Hloop' by by destruct s.
      destruct (IH _ _ _ Hacc' Hloop') as (new & adds & Hsels & Hnew & Hent & Hsub & Hadds).
      destruct (Hweaken new adds Hnew Hsub Hadds) as (Hnew' & Hsub' & Hadds').
      exists new, ((name, Some err) :: adds). split; [done|]. split; [done|].
      split; [by rewrite Hent, Hadd|]. split; [by constructor|].
      intros a [->|Ha]%elem_of_cons; [|by apply Hadds'].
      exists v. split; [by left|]. apply Hv. right. eauto.
    + destruct (IH _ _ _ Hacc Hloop) as (new & adds & Hsels & Hnew & Hent & Hsub & Hadds).
      destruct (Hweaken new adds Hnew Hsub Hadds) as (Hnew' & Hsub' & Hadds').
      exists (selector :: new), adds.
      split; [by rewrite Hsels, <- app_assoc|]. split; [|done].
      intros s [->|Hs]%elem_of_cons; [|by apply Hnew'].
      exists v. rewrite (Hname selector eq_refl). split; [by left|].
      apply Hv. left. eauto.
    + destruct (IH _ _ _ Hacc Hloop) as (new & adds & Hsels & Hnew & Hent & Hsub & Hadds).
      exists new, adds. destruct (Hweaken new adds Hnew Hsub Hadds) as (? & ? & ?).
      done.
Qed.

(** C10.  For a raw selector that is the empty string [newSelector] gives
    neither a selector nor an error; the loop of [newSelectors] goes past
    such an entry as it goes past one with an empty name or a nil value,
    with the selectors and the errors as they were; and the selectors built
    from a raw mapping have no selector, and their errors no entry, under
    the name of an entry whose value is the empty string. *)
Theorem empty_string_selector_skipped :
  (∀ name convFunc n,
     (newSelector map_range name (VStr "") convFunc n).1 = Ret (None, None)) ∧
  (∀ convFunc name rest selectors errs n,
     (newSelectors_loop map_range convFunc ((name, VStr "") :: rest) selectors errs n).1 =
       (newSelectors_loop map_range convFunc rest selectors errs
          (if decide (name = "") then n else S (S n))).1 ∧
     newSelectors_loop map_range convFunc ((name, VNil) :: rest) selectors errs n =
       newSelectors_loop map_range convFunc rest selectors errs n ∧
     (∀ v, newSelectors_loop map_range convFunc (("", v) :: rest) selectors errs n =
           newSelectors_loop map_range convFunc rest selectors errs n)) ∧
  (∀ (m : gmap string value) name convFunc n selectors errs n',
     m !! name = Some (VStr "") →
     newSelectors map_range (VMap m) convFunc n = (Ret (selectors, errs), n') →
     (∀ s : Selector, s ∈ selectors → Name s ≠ name) ∧
     Errs_Get (entries_of errs) name = None).
Proof using map_range_perm.
  split; [done|]. split.
  - intros convFunc name rest selectors errs n. split; [|split].
    + simpl. destruct (decide (name = "")) as [->|Hne]; [done|].
      by rewrite bool_decide_eq_false_2.
    + simpl. by rewrite orb_true_r.
    + done.
  - intros m name convFunc n selectors errs n' Hm Hnew. unfold newSelectors in Hnew.
    assert (NoDup (map_range m).*1) as Hnd.
    { rewrite (map_range_perm m). apply NoDup_fst_map_to_list. }
    assert ((name, VStr "") ∈ map_range m) as Hin.
    { rewrite (map_range_perm m). by apply elem_of_map_to_list. }
    assert (∀ v, (name, v) ∈ map_range m → v = VStr "") as Hunique.
    { intros v Hv. rewrite (map_range_perm m) in Hv.
      apply elem_of_map_to_list in Hv. congruence. }
    destruct (newSelectors_loop_spec convFunc (map_range m) [] None n
                selectors errs n' (or_introl eq_refl) Hnew)
      as (new & adds & -> & Hnames & Hent & Hsub & Hadds).
    split.
    + intros s Hs Heq. destruct (Hnames s Hs) as (v & Hv & Hne).
      rewrite Heq in Hv. by apply Hne, Hunique.
    + simpl in Hent. rewrite Hent.
      rewrite Errs_AddAll_distinct;
        [|by eapply sublist_NoDup|intros a _; apply not_elem_of_nil].
      simpl. apply Errs_Get_None.
      intros Hkey. assert (name ∈ adds.*1) as Hadd.
      { eapply elem_of_sublist; [exact Hkey|]. apply stored_bare_keys. }
      apply list_elem_of_fmap in Hadd as (a & -> & Ha).
      destruct (Hadds a Ha) as (v & Hv & Hne). by apply Hne, Hunique.
Qed.

End ConstructionProps.

Lemma empty_string_selector_skipped_witness :
  let raw : gmap string (@value string) :=
    {[ "title" := VStr "//title"; "media" := VStr "" ]} in
  let out := newSelectors map_to_list (VMap raw) None 10 in
  (∀ m : gmap string (@value string), map_to_list m ≡ₚ map_to_list m) ∧
  raw !! "media" = Some (VStr "") ∧
  out.1 = Ret ([mkSelector 12 "title" "//title" "" false false [] 13 ∅], None) ∧
  ∀ selectors errs,
    out.1 = Ret (selectors, errs) →
    (∀ s : @Selector string, s ∈ selectors → Name s ≠ "media") ∧
    Errs_Get (entries_of errs) "media" = None.
Proof.
  intros raw out.
  assert (∀ m : gmap string (@value string), map_to_list m ≡ₚ map_to_list m)
    as Hrange by reflexivity.
  split; [exact Hrange|]. split; [reflexivity|]. split; [reflexivity|].
  intros selectors errs Hout.
  apply (proj2 (proj2 (empty_string_selector_skipped map_to_list Hrange))
           raw "media" None 10 selectors errs out.2).
  - reflexivity.
  - rewrite <- Hout. apply surjective_pairing.
Defined.

(** * More of the code *)

(** ** The calls of [Do] *)

Section DoCalls.
Context {U R W : Type}.
Context (TrimSpace : string → string) (resp_URL : R → option (@url_URL U)).

Local Abbreviation Rules := (@Rules U).
Local Abbreviation Colibri := (@Colibri U R W).
Local Abbreviation DSt := (@DSt U W).
Local Abbreviation call := (@call U).

(** From the transport on: the transport, then the stamp of the URL of the
    response when there is a response and pacing, then the deferred
    [Done] when [Wait] had returned. *)
Lemma do_fetch_shape (c : Colibri) (client : @HTTPClient U R W) (rules : Rules)
    (waited : bool) (w : W) (calls : list call) :
  let out := do_fetch resp_URL c client rules waited w calls in
  ∃ stamp done,
    out.2 = calls ++ [CallClientDo rules] ++ stamp ++ done ∧
    (stamp = [] ∧ (is_Some (Delay_ c) → out.1.1.1 = None) ∨
     ∃ rp, stamp = [CallStamp (resp_URL rp)] ∧ out.1.1.1 = Some rp ∧
           is_Some (Delay_ c)) ∧
    (done = [] ∧ (waited = false ∨ Delay_ c = None) ∨
     done = [CallDone (URL rules)] ∧ waited = true ∧ is_Some (Delay_ c)).
Proof.
  unfold do_fetch.
  destruct (Client_Do client rules w) as [[[[rp|] err]|r] w1];
    destruct (Delay_ c) as [d|] eqn:Hd;
    try destruct (Delay_Stamp d (resp_URL rp) w1) as [[?|?] w2];
    destruct waited;
    try destruct (Delay_Done d (URL rules) _) as [[?|?] w3];
    simpl;
    first
      [ exists [CallStamp (resp_URL rp)], [CallDone (URL rules)];
        split; [by rewrite <- !app_assoc|];
        split; [right; by eauto|right; by eauto]
      | exists [CallStamp (resp_URL rp)], [];
        split; [by rewrite <- !app_assoc|];
        split; [right; by eauto|left; by eauto]
      | exists [], [CallDone (URL rules)];
        split; [by rewrite <- !app_assoc|];
        split; [left; split; [done|]; by intros [? ?]|right; by eauto]
      | exists [], [];
        split; [by rewrite ?app_nil_r|];
        split; [left; split; [done|]; by intros [? ?]|left; by eauto] ].
Qed.

(** The robots gate of [Do]: asked once, with the defaulted rules, when
    there is one and the rules do not ask to ignore it. *)
Lemma Do_shape (c : Colibri) (client : @HTTPClient U R W) (rules : Rules) (st : DSt) :
  Client c = Some client →
  let r1 := (default_header TrimSpace rules (d_next st)).1 in
  let out := Do TrimSpace resp_URL c (Some rules) st in
  ∃ gate wait fetch stamp done,
    d_calls out.2 = d_calls st ++ gate ++ wait ++ fetch ++ stamp ++ done ∧
    (gate = [] ∨
     gate = [CallIsAllowed r1] ∧ is_Some (RobotsTxt c) ∧ IgnoreRobotsTxt r1 = false) ∧
    (wait = [] ∨
     wait = [CallWait (URL r1) (Delay r1)] ∧ is_Some (Delay_ c) ∧ (0 < Delay r1)%Z) ∧
    (fetch = [] ∧ stamp = [] ∧ done = [] ∧ out.1.1.1 = None ∨
     fetch = [CallClientDo r1]) ∧
    (stamp = [] ∧ (is_Some (Delay_ c) → out.1.1.1 = None) ∨
     ∃ rp, stamp = [CallStamp (resp_URL rp)] ∧ out.1.1.1 = Some rp ∧
           is_Some (Delay_ c)) ∧
    (done = [] ∧ (wait = [] ∨ fetch = []) ∨
     done = [CallDone (URL r1)] ∧ wait ≠ [] ∧ fetch ≠ []).
Proof.
  intros Hclient. unfold Do. rewrite Hclient.
  destruct (default_header TrimSpace rules (d_next st)) as [r1 n1]. simpl.
  assert (∀ gate wait waited w calls,
            calls = d_calls st ++ gate ++ wait →
            (gate = [] ∨ gate = [CallIsAllowed r1] ∧ is_Some (RobotsTxt c) ∧
                         IgnoreRobotsTxt r1 = false) →
            (wait = [] ∧ waited = false ∨
             wait = [CallWait (URL r1) (Delay r1)] ∧ waited = true ∧
             is_Some (Delay_ c) ∧ (0 < Delay r1)%Z) →
            let out :=
              let '(res, w3, calls3) := do_fetch resp_URL c client r1 waited w calls in
              (res, Some r1, mkDSt n1 w3 calls3) in
            ∃ gate wait fetch stamp done,
              d_calls out.2 = d_calls st ++ gate ++ wait ++ fetch ++ stamp ++ done ∧
              (gate = [] ∨ gate = [CallIsAllowed r1] ∧ is_Some (RobotsTxt c) ∧
                           IgnoreRobotsTxt r1 = false) ∧
              (wait = [] ∨ wait = [CallWait (URL r1) (Delay r1)] ∧
                           is_Some (Delay_ c) ∧ (0 < Delay r1)%Z) ∧
              (fetch = [] ∧ stamp = [] ∧ done = [] ∧ out.1.1.1 = None ∨
               fetch = [CallClientDo r1]) ∧
              (stamp = [] ∧ (is_Some (Delay_ c) → out.1.1.1 = None) ∨
               ∃ rp, stamp = [CallStamp (resp_URL rp)] ∧ out.1.1.1 = Some rp ∧
                     is_Some (Delay_ c)) ∧
              (done = [] ∧ (wait = [] ∨ fetch = []) ∨
               done = [CallDone (URL r1)] ∧ wait ≠ [] ∧ fetch ≠ [])) as Hfetch.
  { intros gate wait waited w calls -> Hgate Hwait.
    destruct (do_fetch_shape c client r1 waited w (d_calls st ++ gate ++ wait))
      as (stamp & done & Hcalls & Hstamp & Hdone).
    destruct (do_fetch resp_URL c client r1 waited w _) as [[res w3] calls3].
    cbn in Hcalls, Hstamp |- *.
    exists gate, wait, [CallClientDo r1], stamp, done.
    split; [by rewrite Hcalls, <- !app_assoc|]. split; [done|].
    split; [destruct Hwait as [[-> _]|(-> & _ & ? & ?)]; eauto|].
    split; [by right|]. split; [done|].
    destruct Hdone as [[-> Hw]|(-> & -> & _)].
    - left. split; [done|]. destruct Hwait as [[-> _]|(_ & -> & Hd & _)]; [by left|].
      destruct Hw as [?|Hnone]; [done|]. rewrite Hnone in Hd. by destruct Hd.
    - right. split; [done|]. destruct Hwait as [[_ ?]|(-> & _)]; done. }
  assert (∀ gate w calls,
            calls = d_calls st ++ gate →
            (gate = [] ∨ gate = [CallIsAllowed r1] ∧ is_Some (RobotsTxt c) ∧
                         IgnoreRobotsTxt r1 = false) →
            let out :=
              match Delay_ c with
              | Some d =>
                  if bool_decide (0 < Delay r1)%Z then
                    let '(o, w2) := Delay_Wait d (URL r1) (Delay r1) w in
                    let calls2 := calls ++ [CallWait (URL r1) (Delay r1)] in
                    match o with
                    | Panic r => ((None, recovered r), Some r1, mkDSt n1 w2 calls2)
                    | Ret _ =>
                        let '(res, w3, calls3) :=
                          do_fetch resp_URL c client r1 true w2 calls2 in
                        (res, Some r1, mkDSt n1 w3 calls3)
                    end
                  else
                    let '(res, w3, calls3) :=
                      do_fetch resp_URL c client r1 false w calls in
                    (res, Some r1, mkDSt n1 w3 calls3)
              | None =>
                  let '(res, w3, calls3) :=
                    do_fetch resp_URL c client r1 false w calls in
                  (res, Some r1, mkDSt n1 w3 calls3)
              end in
            ∃ gate wait fetch stamp done,
              d_calls out.2 = d_calls st ++ gate ++ wait ++ fetch ++ stamp ++ done ∧
              (gate = [] ∨ gate = [CallIsAllowed r1] ∧ is_Some (RobotsTxt c) ∧
                           IgnoreRobotsTxt r1 = false) ∧
              (wait = [] ∨ wait = [CallWait (URL r1) (Delay r1)] ∧
                           is_Some (Delay_ c) ∧ (0 < Delay r1)%Z) ∧
              (fetch = [] ∧ stamp = [] ∧ done = [] ∧ out.1.1.1 = None ∨
               fetch = [CallClientDo r1]) ∧
              (stamp = [] ∧ (is_Some (Delay_ c) → out.1.1.1 = None) ∨
               ∃ rp, stamp = [CallStamp (resp_URL rp)] ∧ out.1.1.1 = Some rp ∧
                     is_Some (Delay_ c)) ∧
              (done = [] ∧ (wait = [] ∨ fetch = []) ∨
               done = [CallDone (URL r1)] ∧ wait ≠ [] ∧ fetch ≠ [])) as Hpace.
  { intros gate w calls -> Hgate.
    destruct (Delay_ c) as [d|] eqn:Hd.
    - destruct (bool_decide (0 < Delay r1)%Z) eqn:Hpos.
      + apply bool_decide_eq_true in Hpos.
        destruct (Delay_Wait d (URL r1) (Delay r1) w) as [[?|r] w2].
        * apply (Hfetch gate [CallWait (URL r1) (Delay r1)] true w2
                   ((d_calls st ++ gate) ++ [CallWait (URL r1) (Delay r1)])
                   (eq_sym (app_assoc _ _ _)) Hgate).
          right. repeat split; eauto.
        * exists gate, [CallWait (URL r1) (Delay r1)], [], [], []. simpl.
          split; [by rewrite <- !app_assoc|]. split; [done|].
          split; [right; repeat split; eauto|]. split; [by left|].
          split; [by left|]. left. split; [done|]. by right.
      + apply (Hfetch gate [] false w (d_calls st ++ gate));
          [by rewrite app_nil_r|done|by left].
    - apply (Hfetch gate [] false w (d_calls st ++ gate));
        [by rewrite app_nil_r|done|by left]. }
  destruct (RobotsTxt c) as [robots|] eqn:Hrobots.
  - destruct (IgnoreRobotsTxt r1) eqn:Hignore.
    + apply (Hpace [] (d_world st) (d_calls st)); [by rewrite app_nil_r|by left].
    + destruct (Robots_IsAllowed robots r1 (d_world st)) as [[[e|]|r] w1].
      * exists [CallIsAllowed r1], [], [], [], []. simpl.
        split; [done|]. split; [right; eauto|]. split; [by left|].
        split; [by left|]. split; [by left|]. left. split; [done|]. by left.
      * apply (Hpace [CallIsAllowed r1] w1); [done|]. right. eauto.
      * exists [CallIsAllowed r1], [], [], [], []. simpl.
        split; [done|]. split; [right; eauto|]. split; [by left|].
        split; [by left|]. split; [by left|]. left. split; [done|]. by left.
  - apply (Hpace [] (d_world st) (d_calls st)); [by rewrite app_nil_r|by left].
Qed.

Lemma default_header_fields (rules : Rules) (n : loc) :
  let r1 := (default_header TrimSpace rules n).1 in
  URL r1 = URL rules ∧ Delay r1 = Delay rules ∧
  IgnoreRobotsTxt r1 = IgnoreRobotsTxt rules.
Proof.
  destruct (default_header_frame TrimSpace rules n) as [h Hh]. simpl.
  by rewrite Hh.
Qed.

(** X1.  [Do] calls its collaborators in one order, each at most once and
    each with the rules as defaulted: the robots gate, [Delay.Wait], the
    transport, [Delay.Stamp], [Delay.Done].  The gate is only asked when
    there is one and the rules do not ask to ignore robots.txt, [Wait] is
    only called when pacing is configured and the delay is positive, and
    nothing is stamped or released unless the transport was called. *)
Theorem do_calls_in_order (c : Colibri) (rules : Rules) (st : DSt) :
  let r1 := (default_header TrimSpace rules (d_next st)).1 in
  let out := Do TrimSpace resp_URL c (Some rules) st in
  ∃ new u,
    d_calls out.2 = d_calls st ++ new ∧
    (new `sublist_of` [CallIsAllowed r1; CallWait (URL rules) (Delay rules);
                       CallClientDo r1; CallStamp u; CallDone (URL rules)]) ∧
    (CallIsAllowed r1 ∈ new →
       is_Some (RobotsTxt c) ∧ IgnoreRobotsTxt rules = false) ∧
    (CallWait (URL rules) (Delay rules) ∈ new →
       is_Some (Delay_ c) ∧ (0 < Delay rules)%Z) ∧
    (CallClientDo r1 ∈ new ∨
     out.1.1.1 = None ∧ (CallStamp u ∉ new) ∧ (CallDone (URL rules) ∉ new)).
Proof.
  intros r1 out.
  destruct (default_header_fields rules (d_next st)) as (Hurl & Hdelay & Hignore).
  fold r1 in Hurl, Hdelay, Hignore.
  destruct (Client c) as [client|] eqn:Hclient.
  2:{ exists [], None. unfold out, Do. rewrite Hclient. simpl.
      split; [by rewrite app_nil_r|]. split; [apply sublist_nil_l|].
      split; [by intros ?%elem_of_nil|]. split; [by intros ?%elem_of_nil|].
      right. split; [done|]. split; apply not_elem_of_nil. }
  destruct (Do_shape c client rules st Hclient)
    as (gate & wait & fetch & stamp & done & Hcalls & Hgate & Hwait & Hfetch
        & Hstamp & Hdone).
  fold r1 in Hgate, Hwait, Hfetch, Hdone. fold out in Hcalls, Hfetch, Hstamp.
  rewrite Hurl, Hdelay in Hwait. rewrite Hignore in Hgate. rewrite Hurl in Hdone.
  exists (gate ++ wait ++ fetch ++ stamp ++ done),
    (match stamp with CallStamp u :: _ => u | _ => None end).
  split; [done|].
  assert (Hin : ∀ x (l1 l2 : list call), x ∈ l1 ++ l2 ↔ x ∈ l1 ∨ x ∈ l2)
    by (intros; apply elem_of_app).
  destruct Hgate as [-> |(-> & Hrob & Hign)];
    destruct Hwait as [-> |(-> & Hdel & Hpos)];
    destruct Hfetch as [(-> & -> & -> & Hnone)| ->];
    try (destruct Hstamp as [[-> Hnone]|(rp & -> & Hsome & Hdel')]);
    try (destruct Hdone as [[-> _]|(-> & Hw & Hf)]);
    try done; simpl;
    (split; [repeat first [apply sublist_nil | apply sublist_skip | apply sublist_cons]|]);
    (split; [intros Hx; repeat (apply elem_of_cons in Hx as [Hx|Hx]; try discriminate);
             try (by apply elem_of_nil in Hx); done|]);
    (split; [intros Hx; repeat (apply elem_of_cons in Hx as [Hx|Hx]; try discriminate);
             try (by apply elem_of_nil in Hx); done|]);
    first [ left;
            solve [repeat first [apply list_elem_of_here | apply list_elem_of_further]]
          | right; split; [done|];
            split; intros Hx;
            repeat (apply elem_of_cons in Hx as [Hx|Hx]; try discriminate);
            by apply elem_of_nil in Hx ].
Qed.

(** X2.  Once [Do] has called the transport, [Delay.Done] closes the call
    exactly when [Delay.Wait] opened it, whatever the transport and
    [Delay.Stamp] did, panics included; and [Done] is never called without
    a [Wait] and a call of the transport before it. *)
Theorem do_wait_released (c : Colibri) (rules : Rules) (st : DSt) :
  let out := Do TrimSpace resp_URL c (Some rules) st in
  let new := drop (length (d_calls st)) (d_calls out.2) in
  (∀ r, CallClientDo r ∈ new →
     (CallWait (URL rules) (Delay rules) ∈ new ↔
      last new = Some (CallDone (URL rules)))) ∧
  (∀ u, CallDone u ∈ new →
     u = URL rules ∧ CallWait (URL rules) (Delay rules) ∈ new ∧
     ∃ r, CallClientDo r ∈ new).
Proof.
  intros out new.
  destruct (default_header_fields rules (d_next st)) as (Hurl & Hdelay & _).
  destruct (Client c) as [client|] eqn:Hclient.
  2:{ unfold new, out, Do. rewrite Hclient. simpl. rewrite drop_all.
      split; intros ? Hx; elem_cases. }
  destruct (Do_shape c client rules st Hclient)
    as (gate & wait & fetch & stamp & done & Hcalls & Hgate & Hwait & Hfetch
        & Hstamp & Hdone).
  fold out in Hcalls, Hfetch, Hstamp.
  rewrite Hurl, Hdelay in Hwait. rewrite Hurl in Hdone.
  unfold new. rewrite Hcalls, drop_app_length. clear new Hcalls.
  destruct Hgate as [-> |(-> & _ & _)];
    destruct Hwait as [-> |(-> & _ & _)];
    destruct Hfetch as [(-> & -> & -> & _)| ->];
    try (destruct Hstamp as [[-> _]|(rp & -> & _ & _)]);
    try (destruct Hdone as [[-> [Hw|Hf]]|(-> & Hw & Hf)]);
    try done; simpl;
    (split;
     [intros r Hr; split; intros Hx; simpl in Hx; elem_cases;
      first [done | elem_find]
     |intros u Hu; elem_cases; simplify_eq;
      repeat split; first [done | elem_find | eexists; elem_find]]).
Qed.

(** X3.  When pacing is configured, the URL that is stamped is the URL of
    the response that [Do] returns, also when the transport gave an error
    with the response; nothing is stamped when [Do] returns no response or
    when pacing is not configured. *)
Theorem do_stamps_response (c : Colibri) (rules : Rules) (st : DSt) :
  let out := Do TrimSpace resp_URL c (Some rules) st in
  let new := drop (length (d_calls st)) (d_calls out.2) in
  (∀ u, CallStamp u ∈ new →
     is_Some (Delay_ c) ∧ ∃ rp, out.1.1.1 = Some rp ∧ u = resp_URL rp) ∧
  (is_Some (Delay_ c) →
   ∀ rp, out.1.1.1 = Some rp → CallStamp (resp_URL rp) ∈ new).
Proof.
  intros out new.
  destruct (Client c) as [client|] eqn:Hclient.
  2:{ unfold new, out, Do. rewrite Hclient. simpl. rewrite drop_all.
      split; [intros ? Hx; elem_cases|done]. }
  destruct (Do_shape c client rules st Hclient)
    as (gate & wait & fetch & stamp & done & Hcalls & Hgate & Hwait & Hfetch
        & Hstamp & Hdone).
  fold out in Hcalls, Hfetch, Hstamp.
  unfold new. rewrite Hcalls, drop_app_length. clear new Hcalls.
  destruct Hgate as [-> |(-> & _ & _)];
    destruct Hwait as [-> |(-> & _ & _)];
    destruct Hfetch as [(-> & -> & -> & Hnone)| ->];
    try (destruct Hstamp as [[-> Hnone]|(rp & -> & Hsome & Hdel)]);
    try (destruct Hdone as [[-> [Hw|Hf]]|(-> & Hw & Hf)]);
    try done; simpl;
    (split;
     [intros u Hu; elem_cases; simplify_eq; eauto
     |intros Hd rp' Hrp;
      first [ rewrite Hnone in Hrp; [done|exact Hd]
            | rewrite Hnone in Hrp; done
            | rewrite Hsome in Hrp; simplify_eq; elem_find ]]).
Qed.

(** X4.  The defaulting of the header is stable: on rules that [Do] has
    left, a second [Do] changes nothing, with no new header map and the
    User-Agent as it is, as long as the default User-Agent is not blank. *)
Theorem do_header_default_idempotent (c : Colibri) (client : @HTTPClient U R W)
    (rules : Rules) (st st' : DSt) :
  TrimSpace DefaultUserAgent ≠ "" →
  Client c = Some client →
  let once := (Do TrimSpace resp_URL c (Some rules) st).1.2 in
  (Do TrimSpace resp_URL c once st').1.2 = once ∧
  d_next (Do TrimSpace resp_URL c once st').2 = d_next st'.
Proof.
  intros Hdefault Hclient once.
  assert (once = Some (default_header TrimSpace rules (d_next st)).1) as Honce
    by apply (Do_rules _ _ _ _ _ _ Hclient).
  assert (∃ h, (default_header TrimSpace rules (d_next st)).1 = with_Header rules h ∧
               TrimSpace (Header_Get h "User-Agent") ≠ "") as (h & Hh & Hua).
  { unfold default_header.
    destruct (match Header rules with
              | Some h => (h, d_next st)
              | None => (mkHeader (d_next st) ∅, S (d_next st))
              end) as [h0 n1]. simpl.
    destruct (decide (TrimSpace (Header_Get h0 "User-Agent") = "")) as [Hblank|Hset].
    - eexists. split; [done|]. unfold Header_Get, Header_Set. simpl.
      by rewrite lookup_insert_eq.
    - by exists h0. }
  rewrite Hh in Honce. rewrite Honce.
  rewrite (Do_rules _ _ _ _ _ _ Hclient).
  assert (default_header TrimSpace (with_Header rules h) (d_next st') =
          (with_Header rules h, d_next st')) as Hstable.
  { unfold default_header. simpl. by rewrite decide_False. }
  split; [by rewrite Hstable|].
  unfold Do. rewrite Hclient, Hstable.
  destruct (RobotsTxt c) as [robots|];
    [destruct (IgnoreRobotsTxt (with_Header rules h));
      [|destruct (Robots_IsAllowed robots _ (d_world st')) as [[[e|]|r] w1]]|];
    try done;
    (destruct (Delay_ c) as [d|];
      [destruct (bool_decide (0 < Delay (with_Header rules h))%Z);
        [destruct (Delay_Wait d _ _ _) as [[?|?] w2]|]|];
      try done;
      by destruct (do_fetch resp_URL c client _ _ _ _) as [[res w3] calls3]).
Qed.

End DoCalls.

Lemma do_header_default_idempotent_witness :
  let c := mkColibri (Some ex_client) None None in
  let once := (Do ex_TrimSpace ex_resp_URL c (Some ex_rules) ex_dst).1.2 in
  ex_TrimSpace DefaultUserAgent ≠ "" ∧
  (Do ex_TrimSpace ex_resp_URL c once ex_dst).1.2 = once.
Proof.
  intros c once.
  assert (ex_TrimSpace DefaultUserAgent ≠ "") as Hua by (vm_compute; discriminate).
  split; [exact Hua|].
  apply (do_header_default_idempotent ex_TrimSpace ex_resp_URL c ex_client
           ex_rules ex_dst ex_dst Hua eq_refl).
Defined.

(** ** [Extract] *)

Section ExtractProps.
Context {U R W : Type}.
Context (TrimSpace : string → string) (resp_URL : R → option (@url_URL U)).

Local Abbreviation Rules := (@Rules U).
Local Abbreviation Colibri := (@Colibri U R W).
Local Abbreviation ESt := (@ESt U R W).
Local Abbreviation ParserT := (@ParserT U R W).

(** X5.  [Extract] calls the collaborators as [Do] does and then the parser
    at most once: exactly when [Do] gave no error and the rules have a
    selector, and then with the rules as [Do] left them and the response
    of [Do].  Without the call the output is nil; with an error from [Do]
    the response is nil as well, also when [Do] returned one. *)
Theorem extract_parses_after_do (c : Colibri) (p : ParserT)
    (rules : option Rules) (st : ESt) :
  let d := Do TrimSpace resp_URL c rules (e_do st) in
  let out := Extract TrimSpace resp_URL c (Some p) rules st in
  out.1.2 = d.1.2 ∧
  d_calls (e_do out.2) = d_calls d.2 ∧
  d_next (e_do out.2) = d_next d.2 ∧
  (d.1.1.2 = None ∧ (∃ r1, d.1.2 = Some r1 ∧ Rules_Selectors r1 ≠ []) →
   ∃ r1, d.1.2 = Some r1 ∧
         e_parsed out.2 = e_parsed st ++ [(r1, d.1.1.1)] ∧
         out.1.1.1.1 = d.1.1.1) ∧
  (¬ (d.1.1.2 = None ∧ ∃ r1, d.1.2 = Some r1 ∧ Rules_Selectors r1 ≠ []) →
   e_parsed out.2 = e_parsed st ∧ e_do out.2 = d.2 ∧ out.1.1.1.2 = None) ∧
  (d.1.1.2 ≠ None → out.1.1 = (None, None, d.1.1.2)).
Proof.
  intros d out. unfold out, Extract. fold d.
  destruct d as [[[resp err] rules1] dst]. simpl.
  destruct err as [e|];
    [simpl; split_and!; try done; by intros [? _]|].
  destruct rules1 as [r1|];
    [|simpl; split_and!; try done; by intros (_ & ? & ? & _)].
  destruct (Rules_Selectors r1) as [|sel sels] eqn:Hsels; simpl.
  { split_and!; try done. intros (_ & r & Hr & Hne). simplify_eq. }
  destruct (Parser_Parse p r1 resp (d_world dst)) as [[[output err1]|r] w1]; simpl;
    (split_and!; try done;
     [intros _; by exists r1
     |intros Hnot; exfalso; apply Hnot; split; [done|];
      exists r1; by rewrite Hsels]).
Qed.

(** X6.  The nil checks come in one order: a nil parser gives
    [ErrParserIsNil] whatever the client and the rules are, then a nil
    client gives [ErrClientIsNil] whatever the rules are, then nil rules
    give [ErrRulesIsNil]; in the three cases nothing is called, the state
    is as it was, and no response or output is returned. *)
Theorem extract_nil_checks (c : Colibri) (parser : option ParserT)
    (rules : option Rules) (st : ESt) :
  let out := Extract TrimSpace resp_URL c parser rules st in
  parser = None ∨ Client c = None ∨ rules = None →
  out.1.1.1 = (None, None) ∧
  out.1.1.2 = Some (match parser, Client c with
                    | None, _ => ErrParserIsNil
                    | Some _, None => ErrClientIsNil
                    | Some _, Some _ => ErrRulesIsNil
                    end) ∧
  out.1.2 = rules ∧ out.2 = st.
Proof.
  intros out Hnil. unfold out, Extract, Do.
  destruct parser as [p|]; [|done].
  destruct (Client c) as [client|]; [|by destruct st].
  destruct rules as [rules|]; [|by destruct st].
  by destruct Hnil as [?|[?|?]].
Qed.

End ExtractProps.

Lemma extract_nil_checks_witness :
  let c := mkColibri None None (Some ex_robots) in
  let out := Extract ex_TrimSpace ex_resp_URL c (Some ex_parser) None ex_est in
  out.1.1 = (None, None, Some ErrClientIsNil) ∧ out.2 = ex_est.
Proof.
  intros c out.
  destruct (extract_nil_checks ex_TrimSpace ex_resp_URL c (Some ex_parser) None
              ex_est (or_intror (or_introl eq_refl))) as (Hres & Herr & _ & Hst).
  split; [|exact Hst].
  apply injective_projections; [exact Hres | exact Herr].
Defined.

(** ** Copies, and what is released *)

Section PoolProps.
Context {U : Type} `{!NetURL U}.

Local Abbreviation Selector := (@Selector U).
Local Abbreviation Rules := (@Rules U).

Lemma NoDup_ranges (l1 l2 : list loc) (a b c : loc) :
  NoDup l1 → NoDup l2 →
  Forall (λ l, a ≤ l < b) l1 → Forall (λ l, b ≤ l < c) l2 →
  NoDup (l1 ++ l2).
Proof.
  intros H1 H2 Hr1 Hr2. apply NoDup_app. split; [done|]. split; [|done].
  intros l Hl1 Hl2.
  rewrite Forall_forall in Hr1. rewrite Forall_forall in Hr2.
  specialize (Hr1 l Hl1). specialize (Hr2 l Hl2). lia.
Qed.

Lemma CloneSelectors_NoDup (sels : list Selector) (n : loc) :
  Forall (λ sel, ∀ m, NoDup (own_locs (Selector_Clone sel m).1)) sels →
  NoDup (flat_map own_locs (CloneSelectors sels n).1).
Proof.
  intros Hall. revert n. induction Hall as [|sel sels Hsel _ IH]; intros n; simpl.
  - constructor.
  - specialize (Hsel n). pose proof (Selector_Clone_spec sel n) as Hs.
    destruct (Selector_Clone sel n) as [c n1]. destruct Hs as (_ & _ & Hr1).
    specialize (IH n1). pose proof (CloneSelectors_spec sels n1) as Hss.
    destruct (CloneSelectors sels n1) as [cs n2]. destruct Hss as (_ & _ & Hr2).
    simpl in *. by eapply NoDup_ranges.
Qed.

Lemma Selector_Clone_NoDup (selector : Selector) (n : loc) :
  NoDup (own_locs (Selector_Clone selector n).1).
Proof.
  revert n. induction selector as [l name expr ty all follow sels fl fields IH]
    using Selector_tree_ind. intros n.
  rewrite Selector_Clone_unfold. simpl.
  pose proof (CloneSelectors_NoDup sels (S (S n)) IH) as Hnd.
  pose proof (CloneSelectors_spec sels (S (S n))) as Hs.
  destruct (CloneSelectors sels (S (S n))) as [cs n']. destruct Hs as (_ & _ & Hr).
  simpl in *. rewrite Forall_forall in Hr.
  repeat apply NoDup_cons_2; try done.
  - rewrite elem_of_cons. intros [?|Hin]; [lia|]. apply Hr in Hin. lia.
  - intros Hin. apply Hr in Hin. lia.
Qed.

Lemma release_all_flat_map (sels : list Selector) :
  (fix release_all (ss : list Selector) : list Selector :=
     match ss with
     | [] => []
     | sel :: rest =>
         let '(cleared, below) := Selector_Clear sel in
         (below ++ [cleared]) ++ release_all rest
     end) sels = flat_map ReleaseSelector sels.
Proof.
  induction sels as [|sel sels IH]; simpl; [done|].
  unfold ReleaseSelector at 1. destruct (Selector_Clear sel) as [cleared below].
  by rewrite IH.
Qed.

Lemma ReleaseSelector_postorder (selector : Selector) :
  ReleaseSelector selector = map blank (postorder selector).
Proof.
  induction selector as [l name expr ty all follow sels fl fields IH]
    using Selector_tree_ind.
  unfold ReleaseSelector. simpl. rewrite release_all_flat_map.
  rewrite map_app. simpl. f_equal.
  induction IH as [|sel sels Hsel _ IHsels]; simpl; [done|].
  by rewrite map_app, Hsel, IHsels.
Qed.

Lemma postorder_locs (selector : Selector) :
  map sel_loc (postorder selector) ⊆+ own_locs selector.
Proof.
  induction selector as [l name expr ty all follow sels fl fields IH]
    using Selector_tree_ind.
  simpl. rewrite map_app. simpl.
  rewrite <- Permutation_cons_append. apply submseteq_skip, submseteq_cons.
  induction IH as [|sel sels Hsel _ IHsels]; simpl; [done|].
  rewrite map_app. by apply submseteq_app.
Qed.

Lemma released_locs (sels : list Selector) :
  map sel_loc (flat_map ReleaseSelector sels) ⊆+ flat_map own_locs sels.
Proof.
  induction sels as [|sel sels IH]; simpl; [done|].
  rewrite map_app. apply submseteq_app; [|done].
  rewrite ReleaseSelector_postorder, <- list_fmap_compose.
  apply postorder_locs.
Qed.

Lemma submseteq_NoDup_inv {A : Type} (l1 l2 : list A) :
  l1 ⊆+ l2 → NoDup l2 → NoDup l1.
Proof.
  intros Hsub Hnd. apply submseteq_Permutation in Hsub as [k Hk].
  rewrite Hk in Hnd. by apply NoDup_app in Hnd as [? _].
Qed.

Lemma submseteq_Forall {A : Type} (P : A → Prop) (l1 l2 : list A) :
  l1 ⊆+ l2 → Forall P l2 → Forall P l1.
Proof.
  intros Hsub. rewrite !Forall_forall. intros Hall x Hx.
  apply Hall. by eapply elem_of_submseteq.
Qed.

(** X7.  [Selector.Clone] gives a deep copy: the clone is the selector
    again, nested selectors and field entries included, and every selector
    and field map of the clone is a new one, no two of them the same; so
    the clone shares none with the original, whose own were there before
    the call. *)
Theorem selector_clone_deep (selector : Selector) (n : loc) :
  let c := (Selector_Clone selector n).1 in
  let n' := (Selector_Clone selector n).2 in
  erase c = erase selector ∧
  NoDup (own_locs c) ∧
  Forall (λ l, n ≤ l < n') (own_locs c) ∧
  (Forall (λ l, l < n) (own_locs selector) →
   ∀ l, l ∈ own_locs c → l ∉ own_locs selector).
Proof.
  intros c n'. pose proof (Selector_Clone_spec selector n) as Hspec.
  pose proof (Selector_Clone_NoDup selector n) as Hnd.
  unfold c, n'. destruct (Selector_Clone selector n) as [c0 n0].
  destruct Hspec as (He & _ & Hr). simpl in *.
  split_and!; try done.
  intros Hold l Hl Hl'. rewrite Forall_forall in Hr. rewrite Forall_forall in Hold.
  apply Hr in Hl. apply Hold in Hl'. lia.
Qed.

(** X8.  On a tree that reaches no selector twice, [ReleaseSelector] puts
    into the pool the selector and every selector below it, each once and
    nested ones before the selector they are nested in, and every one of
    them blank: no name, expression or type, no flag, no nested selector,
    and its own field map with nothing in it. *)
Theorem release_selector_blank (selector : Selector) :
  NoDup (map sel_loc (postorder selector)) →
  ReleaseSelector selector = map blank (postorder selector) ∧
  NoDup (map sel_loc (ReleaseSelector selector)) ∧
  last (ReleaseSelector selector) = Some (blank selector).
Proof.
  intros Hnd. rewrite ReleaseSelector_postorder. split; [done|].
  split.
  - rewrite <- list_fmap_compose.
    by replace (sel_loc ∘ blank) with (@sel_loc U) by done.
  - destruct selector as [l name expr ty all follow sels fl fields]. simpl.
    rewrite map_app. simpl. apply last_snoc.
Qed.

(** X9.  Releasing the rules that [Rules.Clone] or [Selector.Rules] built
    puts only selectors that the call itself made into the pool, each at
    most once: no selector of the rules or of the selector they were built
    from is cleared by it. *)
Theorem release_of_copies (rules src : Rules) (selector : Selector) (n : loc) :
  let fresh (out : Rules * loc) :=
    let puts := (ReleaseRules out.1).2 in
    NoDup (map sel_loc puts) ∧ Forall (λ s, n ≤ sel_loc s < out.2) puts in
  fresh (Rules_Clone rules n) ∧ fresh (Selector_Rules selector src n).
Proof.
  assert (∀ (sels : list Selector) m m0 m', m0 ≤ m →
            let cs := (CloneSelectors sels m).1 in
            (CloneSelectors sels m).2 ≤ m' →
            NoDup (map sel_loc (flat_map ReleaseSelector cs)) ∧
            Forall (λ s, m0 ≤ sel_loc s < m') (flat_map ReleaseSelector cs))
    as Hcopies.
  { intros sels m m0 m' Hm0 cs Hm'.
    pose proof (CloneSelectors_spec sels m) as Hs.
    pose proof (CloneSelectors_NoDup sels m) as Hnd. unfold cs.
    destruct (CloneSelectors sels m) as [cs0 m1]. destruct Hs as (_ & _ & Hr).
    simpl in *. split.
    - eapply submseteq_NoDup_inv; [apply released_locs|].
      apply Hnd, Forall_forall. intros ? _ ?. apply Selector_Clone_NoDup.
    - assert (Forall (λ l, m0 ≤ l < m')
                (map sel_loc (flat_map ReleaseSelector cs0))) as Hin.
      { eapply submseteq_Forall; [apply released_locs|].
        eapply Forall_impl; [exact Hr|]. simpl. intros; lia. }
      by apply Forall_fmap in Hin. }
  intros fresh. unfold fresh, ReleaseRules, Rules_Clear. simpl. split.
  - unfold Rules_Clone, Header_Clone, URL_copy.
    destruct (Header rules) as [h|];
      [pose proof (Hcopies (Rules_Selectors rules) (S n) n) as Hc;
       pose proof (CloneSelectors_spec (Rules_Selectors rules) (S n)) as Hs;
       destruct (CloneSelectors (Rules_Selectors rules) (S n)) as [cs n2]
      |pose proof (Hcopies (Rules_Selectors rules) n n) as Hc;
       pose proof (CloneSelectors_spec (Rules_Selectors rules) n) as Hs;
       destruct (CloneSelectors (Rules_Selectors rules) n) as [cs n2]];
      destruct (URL rules), (Proxy rules); simpl in *; apply Hc; lia.
  - unfold Selector_Rules, Header_Clone, URL_copy.
    pose proof (Hcopies (Selectors selector) n n) as Hc.
    destruct (CloneSelectors (Selectors selector) n) as [cs n1].
    destruct (decide (size (Fields selector) = 0));
      [|destruct (Fields selector !! KeyProxy), (Fields selector !! KeyHeader)];
      destruct (Proxy src), (Header src); simpl in *; apply Hc; lia.
Qed.

(** X10.  [Rules.Clone] gives a deep copy: method, timeout, flags and delay
    are the ones of the rules, header and field entries and selectors are
    the same, a nil header, URL or proxy stays nil and a URL is resolved
    against the empty reference; and every pointer and map of the clone is
    a new one, no two of them the same. *)
Theorem rules_clone_deep (rules : Rules) (n : loc) :
  let c := (Rules_Clone rules n).1 in
  let n' := (Rules_Clone rules n).2 in
  NoDup (Rules_locs c) ∧ Forall (λ l, n ≤ l < n') (Rules_locs c) ∧
  map erase (Rules_Selectors c) = map erase (Rules_Selectors rules) ∧
  hd_map <$> Header c = hd_map <$> Header rules ∧
  Rules_Fields c = Rules_Fields rules ∧
  url_val <$> URL c =
    (λ u, url_ResolveReference (url_val u) url_zero) <$> URL rules ∧
  url_val <$> Proxy c =
    (λ u, url_ResolveReference (url_val u) url_zero) <$> Proxy rules ∧
  (Method c, Timeout c, UseCookies c, IgnoreRobotsTxt c, Delay c) =
  (Method rules, Timeout rules, UseCookies rules, IgnoreRobotsTxt rules,
   Delay rules).
Proof.
  intros c n'. unfold c, n', Rules_Clone, Header_Clone, URL_copy, Rules_locs.
  destruct (Header rules) as [h|];
    [pose proof (CloneSelectors_spec (Rules_Selectors rules) (S n)) as Hs;
     pose proof (CloneSelectors_NoDup (Rules_Selectors rules) (S n)) as Hnd;
     destruct (CloneSelectors (Rules_Selectors rules) (S n)) as [cs n2]
    |pose proof (CloneSelectors_spec (Rules_Selectors rules) n) as Hs;
     pose proof (CloneSelectors_NoDup (Rules_Selectors rules) n) as Hnd;
     destruct (CloneSelectors (Rules_Selectors rules) n) as [cs n2]];
    destruct Hs as (Hes & Hn2 & Hr);
    (assert (NoDup (flat_map own_locs cs)) as Hnd'
       by (apply Hnd, Forall_forall; intros ? _ ?; apply Selector_Clone_NoDup));
    clear Hnd; rewrite Forall_forall in Hr;
    destruct (URL rules), (Proxy rules); simpl in *;
    (split_and!; try done;
     [repeat (apply NoDup_cons_2;
              [rewrite ?elem_of_cons;
               intros Hin; repeat (destruct Hin as [Heq|Hin]; [lia|]);
               apply Hr in Hin; lia|]); exact Hnd'
     |repeat (apply Forall_cons_2; [lia|]);
      apply Forall_forall; intros l Hl; apply Hr in Hl; lia]).
Qed.

End PoolProps.

Lemma release_selector_blank_witness :
  let nested : @Selector string :=
    mkSelector 3 "b" "//b" "xpath" true false [] 4 {[ KeyMethod := VStr "POST" ]} in
  let top := mkSelector 1 "a" "//a" "" false true [nested] 2 ∅ in
  ReleaseSelector top = [blank nested; blank top].
Proof.
  intros nested top.
  assert (NoDup (map sel_loc (postorder top))) as Hnd.
  { simpl. apply NoDup_cons_2; [intros Hin; elem_cases|apply NoDup_singleton]. }
  exact (proj1 (release_selector_blank top Hnd)).
Defined.

(** ** More on the engine *)

Section EngineMore.
Context {U E R W : Type} `{!NetURL U, !Element U E, !Response U R W}.
Context (Sprint : @value U → string).

Local Abbreviation value := (@value U).
Local Abbreviation Selector := (@Selector U).
Local Abbreviation Rules := (@Rules U).
Local Abbreviation St := (@St U E W).
Local Abbreviation event := (@event U E).

Lemma quiet_refl (st : St) : quiet st st.
Proof.
  split; [done|]. split; [done|]. exists []. by rewrite app_nil_r.
Qed.

Lemma quiet_trans (st1 st2 st3 : St) : quiet st1 st2 → quiet st2 st3 → quiet st1 st3.
Proof.
  intros (Hw1 & Hn1 & t1 & Ht1 & Hq1) (Hw2 & Hn2 & t2 & Ht2 & Hq2).
  split; [congruence|]. split; [congruence|].
  exists (t1 ++ t2). split; [by rewrite Ht2, Ht1, app_assoc|by apply Forall_app].
Qed.

Lemma quiet_log (ev : event) (st : St) : is_extract ev = false → quiet st (log ev st).
Proof.
  intros Hev. split; [done|]. split; [done|]. exists [ev]. split; [done|].
  by constructor.
Qed.

Lemma findSelectors_loop_quiet (src : Rules) (resp : R) (selectors : list Selector)
    (parent : E) (result : gmap string value) (errs : option error) (st : St) :
  Forall (λ s, ∀ parent st,
            quiet st (findSelector Sprint src resp s parent st).2) selectors →
  quiet st (findSelectors_loop (findSelector Sprint src resp) selectors parent
              result errs st).2.
Proof.
  intros Hall. revert result errs st.
  induction Hall as [|s sels Hs _ IH]; intros result errs st.
  - apply quiet_refl.
  - rewrite findSelectors_loop_cons. specialize (Hs parent st).
    destruct (findSelector Sprint src resp s parent st) as [[found err] st1].
    destruct err; (eapply quiet_trans; [exact Hs|apply IH]).
Qed.

Lemma findAll_nested_quiet
    (nested : E → St → (gmap string value * option error) * St)
    (name : string) (children : list E) (i : nat) (result : list value)
    (errs : option error) (st : St) :
  (∀ child st, quiet st (nested child st).2) →
  quiet st (findAll_nested nested name children i result errs st).2.
Proof.
  intros Hnested. revert i result errs st.
  induction children as [|child rest IH]; intros i result errs st; simpl.
  - apply quiet_refl.
  - specialize (Hnested child st).
    destruct (nested child st) as [[found err] st1].
    destruct err; (eapply quiet_trans; [exact Hnested|apply IH]).
Qed.

Lemma findSelector_quiet (src : Rules) (resp : R) (selector : Selector) :
  follows selector = false →
  ∀ parent st, quiet st (findSelector Sprint src resp selector parent st).2.
Proof.
  induction selector as [l name expr ty all follow sels fl fields IH]
    using Selector_tree_ind.
  intros Hno parent st. simpl in Hno. apply orb_false_elim in Hno as [-> Hsels].
  assert (Forall (λ s, ∀ parent st,
                    quiet st (findSelector Sprint src resp s parent st).2) sels)
    as Hbelow.
  { clear -IH Hsels. induction IH as [|s sels Hs _ IHsels]; [constructor|].
    simpl in Hsels. apply orb_false_elim in Hsels as [Hs' Hsels].
    constructor; [by apply Hs|by apply IHsels]. }
  assert (∀ child st0,
            quiet st0 (findSelectors Sprint src resp sels child st0).2) as Hnested.
  { intros child st0. by apply findSelectors_loop_quiet. }
  rewrite findSelector_unfold. simpl. destruct all.
  - unfold findAllSelector, findAllSelector_with. simpl.
    destruct (FindAll parent expr ty) as [children [err|]];
      [by apply quiet_log|].
    destruct (bool_decide (0 < length sels)); simpl; [|by apply quiet_log].
    pose proof (findAll_nested_quiet (findSelectors Sprint src resp sels) name
                  children 0 [] None (log (EvFindAll parent expr ty) st) Hnested)
      as Hq.
    destruct (findAll_nested _ _ _ _ _ _ _) as [[result errs] st1].
    eapply quiet_trans; [|exact Hq]. by apply quiet_log.
  - destruct (Find parent expr ty) as [[child|] [err|]]; try by apply quiet_log.
    destruct (bool_decide (0 < length sels)); [|by apply quiet_log].
    specialize (Hnested child (log (EvFind parent expr ty) st)).
    destruct (findSelectors Sprint src resp sels child _) as [[found errs] st1].
    eapply quiet_trans; [|exact Hnested]. by apply quiet_log.
Qed.

(** X11.  Selectors none of which follows, nor any selector below them,
    are evaluated without asking for a page: the world behind
    [Response.Extract] is as it was, no rules are built, and all that is
    added to the trace is queries to elements. *)
Theorem no_follow_no_request (src : Rules) (resp : R) (selectors : list Selector)
    (parent : E) (st : St) :
  Forall (λ s, follows s = false) selectors →
  let out := findSelectors Sprint src resp selectors parent st in
  st_world out.2 = st_world st ∧ st_next out.2 = st_next st ∧
  extracts (st_trace out.2) = extracts (st_trace st).
Proof.
  intros Hno out.
  assert (quiet st out.2) as (Hw & Hn & t & Ht & Hq).
  { apply findSelectors_loop_quiet. eapply Forall_impl; [exact Hno|].
    intros s Hs. by apply findSelector_quiet. }
  split; [done|]. split; [done|]. rewrite Ht. unfold extracts.
  rewrite omap_app.
  assert (omap (λ ev : event, match ev with
                              | EvExtract rules found err => Some (rules, found, err)
                              | _ => None
                              end) t = []) as ->; [|by rewrite app_nil_r].
  clear Ht. induction Hq as [|ev t Hev _ IHt]; [done|].
  destruct ev; simpl; done.
Qed.

Lemma findAll_nested_unroll (src : Rules) (resp : R) (sels : list Selector)
    (name : string) (children : list E) (i : nat) (result : list value)
    (errs : option error) (st : St) :
  let tries := nested_attempts Sprint src resp sels children st in
  (findAll_nested (findSelectors Sprint src resp sels) name children i
     result errs st).1 =
  (result ++ omap mapping_of tries,
   fold_left (λ e (it : nat * (gmap string value * option error)),
                AddError e (name +:+ "#" +:+ pretty it.1) it.2.2)
     (imap (λ j t, (i + j, t)) tries) errs) ∧
  length tries = length children.
Proof.
  revert i result errs st.
  induction children as [|child rest IH]; intros i result errs st; simpl.
  - by rewrite app_nil_r.
  - destruct (findSelectors Sprint src resp sels child st) as [[found err] st1].
    specialize (IH (S i)). simpl.
    rewrite Nat.add_0_r.
    rewrite (imap_ext ((λ j t, (i + j, t)) ∘ S) (λ j t, (S i + j, t)))
      by (intros; simpl; f_equal; lia).
    destruct err as [e|]; simpl.
    + destruct (IH result (AddError errs (name +:+ "#" +:+ pretty i) (Some e)) st1)
        as [-> ->]. done.
    + destruct (IH (result ++ [VMap found]) errs st1) as [-> ->].
      by rewrite <- app_assoc.
Qed.

(** X12.  A selector with [All] and nested selectors that does not follow
    evaluates its nested selectors on every child that its query gave, in
    order.  The result is the list of the mappings of the children whose
    nested selectors gave no error, so it is shorter than the children
    when one fails; the error of the i-th child is added under the name of
    the selector, a [#] and i, the index among all the children. *)
Theorem find_all_nested_children (src : Rules) (resp : R) (selector : Selector)
    (parent : E) (st : St) (children : list E) :
  All selector = true → Follow selector = false → Selectors selector ≠ [] →
  FindAll parent (Expr selector) (Type_ selector) = (children, None) →
  let st0 := log (EvFindAll parent (Expr selector) (Type_ selector)) st in
  let tries :=
    nested_attempts Sprint src resp (Selectors selector) children st0 in
  let out := findSelector Sprint src resp selector parent st in
  length tries = length children ∧
  out.1.1 = VList (omap mapping_of tries) ∧
  out.1.2 = fold_left (λ e (it : nat * (gmap string value * option error)),
                         AddError e (child_key selector it.1) it.2.2)
              (imap pair tries) None.
Proof.
  intros Hall Hfollow Hsels Hfind st0 tries out.
  unfold out. rewrite findSelector_unfold, Hall.
  unfold findAllSelector, findAllSelector_with. rewrite Hfind, Hfollow.
  assert (bool_decide (0 < length (Selectors selector)) = true) as ->.
  { apply bool_decide_eq_true. destruct (Selectors selector); [done|simpl; lia]. }
  simpl. fold st0.
  pose proof (findAll_nested_unroll src resp (Selectors selector) (Name selector)
                children 0 [] None st0) as [Hres Hlen].
  fold tries in Hres, Hlen.
  destruct (findAll_nested _ _ _ _ _ _ _) as [[result errs] st1].
  simpl in *. injection Hres as -> ->. done.
Qed.

End EngineMore.

Section EngineRequests.
Context {U E R W : Type} `{!NetURL U, !Element U E, !Response U R W}.
Context (Sprint : @value U → string).

Local Abbreviation value := (@value U).
Local Abbreviation Selector := (@Selector U).
Local Abbreviation Rules := (@Rules U).
Local Abbreviation St := (@St U E W).
Local Abbreviation event := (@event U E).

(** The engine keeps what its steps keep: a relation between states that
    holds along queries and along [followSelector] holds along
    [findSelector]. *)
Lemma findSelector_closure (Rel : St → St → Prop) (src : Rules) (resp : R) :
  (∀ st, Rel st st) →
  (∀ st1 st2 st3, Rel st1 st2 → Rel st2 st3 → Rel st1 st3) →
  (∀ ev st, is_extract ev = false → Rel st (log ev st)) →
  (∀ selector rawURL st,
     Rel st (followSelector Sprint src resp selector rawURL st).2) →
  ∀ selector parent st, Rel st (findSelector Sprint src resp selector parent st).2.
Proof.
  intros Hrefl Htrans Hlog Hfollow.
  assert (∀ sels, Forall (λ s, ∀ parent st,
                     Rel st (findSelector Sprint src resp s parent st).2) sels →
            ∀ child result errs st,
              Rel st (findSelectors_loop (findSelector Sprint src resp) sels child
                        result errs st).2) as Hloop.
  { intros sels Hall child. induction Hall as [|s sels Hs _ IH]; intros result errs st.
    - apply Hrefl.
    - rewrite findSelectors_loop_cons. specialize (Hs child st).
      destruct (findSelector Sprint src resp s child st) as [[found err] st1].
      destruct err; (eapply Htrans; [exact Hs|apply IH]). }
  assert (∀ nested name children i result errs st,
            (∀ child st, Rel st (nested child st).2) →
            Rel st (findAll_nested nested name children i result errs st).2)
    as Hchildren.
  { intros nested name children i result errs st Hnested.
    revert i result errs st.
    induction children as [|child rest IH]; intros i result errs st; simpl.
    - apply Hrefl.
    - specialize (Hnested child st).
      destruct (nested child st) as [[found err] st1].
      destruct err; (eapply Htrans; [exact Hnested|apply IH]). }
  induction selector as [l name expr ty all follow sels fl fields IH]
    using Selector_tree_ind.
  intros parent st. specialize (Hloop sels IH).
  rewrite findSelector_unfold. simpl. destruct all.
  - unfold findAllSelector, findAllSelector_with. simpl.
    destruct (FindAll parent expr ty) as [children [err|]]; [by apply Hlog|].
    destruct follow; simpl.
    + specialize (Hfollow (mkSelector l name expr ty true true sels fl fields)
                    (map Value children) (log (EvFindAll parent expr ty) st)).
      destruct (followSelector _ _ _ _ _ _) as [[found errs] st1].
      eapply Htrans; [|exact Hfollow]. by apply Hlog.
    + destruct (bool_decide (0 < length sels)); simpl; [|by apply Hlog].
      pose proof (Hchildren (findSelectors Sprint src resp sels) name children 0
                    [] None (log (EvFindAll parent expr ty) st)
                    (λ child st0, Hloop child ∅ None st0)) as Hq.
      destruct (findAll_nested _ _ _ _ _ _ _) as [[result errs] st1].
      eapply Htrans; [|exact Hq]. by apply Hlog.
  - destruct (Find parent expr ty) as [[child|] [err|]]; try by apply Hlog.
    destruct follow.
    + specialize (Hfollow (mkSelector l name expr ty false true sels fl fields)
                    [Value child] (log (EvFind parent expr ty) st)).
      destruct (followSelector _ _ _ _ _ _) as [[found errs] st1].
      eapply Htrans; [|exact Hfollow]. by apply Hlog.
    + destruct (bool_decide (0 < length sels)); [|by apply Hlog].
      specialize (Hloop child ∅ None (log (EvFind parent expr ty) st)).
      unfold findSelectors.
      destruct (findSelectors_loop _ _ _ _ _ _) as [[found errs] st1].
      eapply Htrans; [|exact Hloop]. by apply Hlog.
Qed.

Lemma made_in_mono (a b a' b' : loc) (ev : event) :
  a' ≤ a → b ≤ b' → made_in a b ev → made_in a' b' ev.
Proof.
  intros Ha Hb. destruct ev; simpl; try done.
  intros Hin. eapply Forall_impl; [exact Hin|]. simpl. intros; lia.
Qed.

Lemma own_requests_refl (st : St) : own_requests st st.
Proof. split; [done|]. exists []. by rewrite app_nil_r. Qed.

Lemma own_requests_trans (st1 st2 st3 : St) :
  own_requests st1 st2 → own_requests st2 st3 → own_requests st1 st3.
Proof.
  intros (Hn1 & t1 & Ht1 & Hq1) (Hn2 & t2 & Ht2 & Hq2).
  split; [lia|]. exists (t1 ++ t2). split; [by rewrite Ht2, Ht1, app_assoc|].
  apply Forall_app. split.
  - eapply Forall_impl; [exact Hq1|]. intros ev. apply made_in_mono; lia.
  - eapply Forall_impl; [exact Hq2|]. intros ev. apply made_in_mono; lia.
Qed.

Lemma own_requests_log (ev : event) (st : St) :
  is_extract ev = false → own_requests st (log ev st).
Proof.
  intros Hev. split; [done|]. exists [ev]. split; [done|].
  constructor; [by destruct ev|constructor].
Qed.

Lemma Rules_Clone_locs (rules : Rules) (n : loc) :
  n ≤ (Rules_Clone rules n).2 ∧
  Forall (λ l, n ≤ l < (Rules_Clone rules n).2) (Rules_locs (Rules_Clone rules n).1).
Proof.
  unfold Rules_Clone, Header_Clone, URL_copy, Rules_locs.
  destruct (Header rules) as [h|];
    [pose proof (CloneSelectors_spec (Rules_Selectors rules) (S n)) as Hs;
     destruct (CloneSelectors (Rules_Selectors rules) (S n)) as [cs n2]
    |pose proof (CloneSelectors_spec (Rules_Selectors rules) n) as Hs;
     destruct (CloneSelectors (Rules_Selectors rules) n) as [cs n2]];
    destruct Hs as (_ & Hn2 & Hr); rewrite Forall_forall in Hr;
    destruct (URL rules), (Proxy rules); simpl in *;
    (split; [lia|]; repeat (apply Forall_cons_2; [lia|]);
     apply Forall_forall; intros l Hl; apply Hr in Hl; lia).
Qed.

Lemma with_URL_locs (rules : Rules) (u : @url_URL U) (a b : loc) :
  a ≤ url_loc u < b → Forall (λ l, a ≤ l < b) (Rules_locs rules) →
  Forall (λ l, a ≤ l < b) (Rules_locs (with_URL rules u)).
Proof.
  unfold Rules_locs. simpl. intros Hu.
  rewrite !Forall_app. intros (Hh & _ & Hp & Hrest).
  split; [done|]. constructor; [done|]. by apply Forall_app.
Qed.

Lemma follow_urls_locs (resp : R) (rawURL : list value) (urls : list (@url_URL U))
    (errs : option error) (n0 n : loc) :
  n0 ≤ n → Forall (λ u, n0 ≤ url_loc u < n) urls →
  let out := follow_urls Sprint resp rawURL urls errs n in
  n ≤ out.2 ∧ Forall (λ u, n0 ≤ url_loc u < out.2) out.1.1.
Proof.
  revert urls errs n.
  induction rawURL as [|rawU rest IH]; intros urls errs n Hn Hurls; simpl.
  - done.
  - assert (∀ m, n ≤ m → Forall (λ u : @url_URL U, n0 ≤ url_loc u < m) urls)
      as Hwiden.
    { intros m Hm. eapply Forall_impl; [exact Hurls|]. simpl. intros; lia. }
    unfold ToURL. destruct rawU as [| | s | | | | | | |];
      try (destruct (IH urls (AddError errs (Sprint VNil) (Some ErrMustBeString)) n
                       Hn Hurls) as [? ?]; done);
      try (edestruct (IH urls) as [? ?]; [exact Hn|exact Hurls|]; done).
    destruct (url_Parse s) as [u|err].
    + destruct (url_IsAbs u) eqn:Habs; simpl; rewrite Habs.
      * edestruct (IH (urls ++ [mkURL n u]) errs (S n)) as [? ?]; [lia| |].
        { apply Forall_app. split; [apply Hwiden; lia|].
          constructor; [simpl; lia|constructor]. }
        split; [lia|done].
      * edestruct (IH (urls ++ [mkURL (S n)
                                  (url_ResolveReference (Resp_URL resp) u)])
                     errs (S (S n))) as [? ?]; [lia| |].
        { apply Forall_app. split; [apply Hwiden; lia|].
          constructor; [simpl; lia|constructor]. }
        split; [lia|done].
    + edestruct (IH urls) as [? ?]; [exact Hn|exact Hurls|]. done.
Qed.

Lemma Selector_Rules_next (selector : Selector) (src : Rules) (n : loc) :
  n ≤ (Selector_Rules selector src n).2.
Proof.
  unfold Selector_Rules, Header_Clone, URL_copy.
  pose proof (CloneSelectors_spec (Selectors selector) n) as Hs.
  destruct (CloneSelectors (Selectors selector) n) as [cs n1].
  destruct Hs as (_ & Hn1 & _).
  destruct (decide (size (Fields selector) = 0));
    [|destruct (Fields selector !! KeyProxy), (Fields selector !! KeyHeader)];
    destruct (Proxy src), (Header src); simpl; lia.
Qed.

Lemma follow_fetch_own (resp : R) (rules : Rules) (urls : list (@url_URL U))
    (result : gmap string value) (errs : option error) (n0 : loc) (st : St) :
  n0 ≤ st_next st → Forall (λ u, n0 ≤ url_loc u < st_next st) urls →
  let st' := (follow_fetch resp rules urls result errs st).2 in
  st_next st ≤ st_next st' ∧
  ∃ t, st_trace st' = st_trace st ++ t ∧ Forall (made_in n0 (st_next st')) t.
Proof.
  revert result errs st.
  induction urls as [|u rest IH]; intros result errs st Hn0 Hurls; simpl.
  - split; [done|]. exists []. by rewrite app_nil_r.
  - pose proof (Rules_Clone_locs rules (st_next st)) as [Hn1 Hlocs].
    destruct (Rules_Clone rules (st_next st)) as [cRules0 n1]. simpl in *.
    destruct (Resp_Extract resp (with_URL cRules0 u) (st_world st))
      as [[found err] w1].
    apply Forall_cons in Hurls as [Hu Hrest].
    assert (Forall (λ u : @url_URL U, n0 ≤ url_loc u < n1) rest) as Hrest'.
    { eapply Forall_impl; [exact Hrest|]. simpl. intros; lia. }
    assert (made_in n0 n1 (EvExtract (with_URL cRules0 u) found err : event))
      as Hmade.
    { simpl. apply with_URL_locs; [lia|].
      eapply Forall_impl; [exact Hlocs|]. simpl. intros; lia. }
    set (st1 := mkSt n1 w1 (st_trace st ++ [EvExtract (with_URL cRules0 u) found err])).
    assert (∀ result' errs',
              let st' := (follow_fetch resp rules rest result' errs' st1).2 in
              st_next st ≤ st_next st' ∧
              ∃ t, st_trace st' = st_trace st ++ t ∧
                   Forall (made_in n0 (st_next st')) t) as Hgo.
    { intros result' errs'.
      destruct (IH result' errs' st1) as (Hn & t & Ht & Hq); [simpl; lia|done|].
      simpl in *. split; [lia|].
      exists (EvExtract (with_URL cRules0 u) found err :: t).
      split; [by rewrite Ht, <- app_assoc|].
      constructor; [|done]. eapply made_in_mono; [| |exact Hmade]; lia. }
    destruct err; apply Hgo.
Qed.

Lemma followSelector_own (src : Rules) (resp : R) (selector : Selector)
    (rawURL : list value) (st : St) :
  own_requests st (followSelector Sprint src resp selector rawURL st).2.
Proof.
  unfold followSelector.
  pose proof (follow_urls_locs resp rawURL [] None (st_next st) (st_next st)
                (le_n _) (Forall_nil_2 _)) as [Hn1 Hurls].
  destruct (follow_urls Sprint resp rawURL [] None (st_next st))
    as [[urls errs] n1]. simpl in *.
  destruct errs as [e|].
  - split; [done|]. exists []. by rewrite app_nil_r.
  - pose proof (Selector_Rules_next selector src n1) as Hn2.
    destruct (Selector_Rules selector src n1) as [rules n2]. simpl in *.
    destruct (follow_fetch_own resp rules urls ∅ None (st_next st)
                (mkSt n2 (st_world st) (st_trace st))) as (Hn & t & Ht & Hq).
    { simpl. lia. }
    { eapply Forall_impl; [exact Hurls|]. simpl. intros; lia. }
    simpl in *. split; [lia|]. by exists t.
Qed.

(** X13.  Every page the engine asks for is asked for with rules of their
    own: the header, the field map, the URL, the proxy, the selectors and
    their field maps are all made during the evaluation, so none of them
    is one of the caller's rules or selectors, which a [Do] that sets the
    header on the rules it is given leaves alone. *)
Theorem requests_use_new_rules (src : Rules) (resp : R) (selectors : list Selector)
    (parent : E) (st : St) :
  let out := findSelectors Sprint src resp selectors parent st in
  st_next st ≤ st_next out.2 ∧
  ∀ f, f ∈ extracts (drop (length (st_trace st)) (st_trace out.2)) →
       Forall (λ l, st_next st ≤ l < st_next out.2) (Rules_locs f.1.1).
Proof.
  intros out.
  assert (own_requests st out.2) as (Hn & t & Ht & Hq).
  { pose proof (findSelector_closure own_requests src resp own_requests_refl
                  own_requests_trans own_requests_log
                  (followSelector_own src resp)) as Hone.
    unfold out, findSelectors. clear out.
    generalize (∅ : gmap string value) (@None error).
    revert st. induction selectors as [|s sels IH]; intros st result errs.
    - apply own_requests_refl.
    - rewrite findSelectors_loop_cons. specialize (Hone s parent st).
      destruct (findSelector Sprint src resp s parent st) as [[found err] st1].
      destruct err; (eapply own_requests_trans; [exact Hone|apply IH]). }
  split; [done|]. rewrite Ht, drop_app_length.
  intros [[rules found] err] Hf. unfold extracts in Hf.
  apply list_elem_of_omap in Hf as (ev & Hev & Hsome).
  rewrite Forall_forall in Hq. specialize (Hq ev Hev).
  destruct ev; simplify_eq. exact Hq.
Qed.

End EngineRequests.

Lemma no_follow_no_request_witness :
  let selectors :=
    [ex_sel "title" "title" false false [];
     ex_sel "a-url" "a" true false [ex_sel "id" "id" false false []]] in
  let out := findSelectors ex_Sprint ex_rules ex_resp selectors ex_page ex_st in
  Forall (λ s, follows s = false) selectors ∧
  st_world out.2 = st_world ex_st ∧ st_next out.2 = st_next ex_st ∧
  extracts (st_trace out.2) = extracts (st_trace ex_st).
Proof.
  intros selectors out.
  assert (Forall (λ s, follows s = false) selectors) as Hno
    by (repeat constructor).
  split; [exact Hno|].
  exact (no_follow_no_request ex_Sprint ex_rules ex_resp selectors ex_page ex_st Hno).
Defined.

Lemma find_all_nested_children_witness :
  let selector := ex_sel "links" "a" true false [ex_sel "id" "(" false false []] in
  let out := findSelector ex_Sprint ex_rules ex_resp selector ex_page ex_st in
  FindAll ex_page (Expr selector) (Type_ selector) =
    ([ExDoc (VStr "/a") []; ExDoc (VStr "/b!") []], None) ∧
  out.1.1 = VList [] ∧
  (entries_of out.1.2).*1 = ["links#0"; "links#1"].
Proof.
  intros selector out.
  assert (FindAll ex_page (Expr selector) (Type_ selector) =
            ([ExDoc (VStr "/a") []; ExDoc (VStr "/b!") []], None)) as Hfind
    by reflexivity.
  split; [exact Hfind|].
  destruct (find_all_nested_children ex_Sprint ex_rules ex_resp selector ex_page
              ex_st _ eq_refl eq_refl ltac:(discriminate) Hfind)
    as (_ & Hres & Herrs).
  split; [exact Hres|]. unfold out. rewrite Herrs. reflexivity.
Defined.

(** ** More on building selectors *)

Section ConstructionMore.
Context {U : Type}.
Context (map_range : gmap string (@value U) → list (string * @value U)).

(** Go ranges over the entries of the map, each one once. *)
Hypothesis map_range_perm : ∀ m, map_range m ≡ₚ map_to_list m.

Local Abbreviation value := (@value U).
Local Abbreviation Selector := (@Selector U).

Lemma newSelector_made (name : string) (v : value) (convFunc : ConvFunc)
    (n n' : loc) (selector : Selector) (e : option error) :
  newSelector map_range name v convFunc n = (Ret (Some selector, e), n') →
  Name selector = name ∧ n' = S (S n).
Proof.
  unfold newSelector. intros Hnew. destruct v; simplify_eq; try done.
  - destruct (decide (s = "")); by simplify_eq.
  - destruct (processRaw map_range (delete KeyName m) _ convFunc)
      as [[selector' err]|r]; by simplify_eq.
Qed.

Lemma newSelector_next (name : string) (v : value) (convFunc : ConvFunc) (n : loc) :
  (newSelector map_range name v convFunc n).2 = S (S n).
Proof.
  unfold newSelector. destruct v; try done.
  - by destruct (decide (s = "")).
  - by destruct (processRaw map_range (delete KeyName m) _ convFunc) as [[? ?]|?].
Qed.

Lemma newSelectors_loop_names (convFunc : ConvFunc) (entries : list (string * value))
    (selectors : list Selector) (errs : option error) (n : loc)
    (selectors' : list Selector) (errs' : option error) (n' : loc) :
  newSelectors_loop map_range convFunc entries selectors errs n =
    (Ret (selectors', errs'), n') →
  ∃ new picked,
    selectors' = selectors ++ new ∧
    picked `sublist_of` entries ∧
    Name <$> new = picked.*1 ∧
    Forall (λ p, p.1 ≠ "" ∧ is_nil p.2 = false ∧ p.2 ≠ VStr "") picked.
Proof.
  revert selectors errs n.
  induction entries as [|[name v] entries IH]; intros selectors errs n Hloop.
  - simpl in Hloop. simplify_eq. exists [], []. by rewrite app_nil_r.
  - simpl in Hloop.
    destruct (bool_decide (name = "") || is_nil v) eqn:Hskip.
    { destruct (IH _ _ _ Hloop) as (new & picked & Hsels & Hsub & Hnames & Hall).
      exists new, picked. split_and!; try done. by constructor. }
    apply orb_false_elim in Hskip as [Hname%bool_decide_eq_false Hnil].
    destruct (newSelector map_range name v convFunc n) as [[[s e]|r] n1] eqn:Hone;
      [|done].
    destruct e as [err|]; [|destruct s as [selector|]].
    + assert (newSelectors_loop map_range convFunc entries selectors
                (AddError errs name (Some err)) n1 = (Ret (selectors', errs'), n'))
        as Hloop' by by destruct s.
      destruct (IH _ _ _ Hloop') as (new & picked & Hsels & Hsub & Hnames & Hall).
      exists new, picked. split_and!; try done. by constructor.
    + destruct (IH _ _ _ Hloop) as (new & picked & Hsels & Hsub & Hnames & Hall).
      destruct (newSelector_made _ _ _ _ _ _ _ Hone) as [Hn _].
      exists (selector :: new), ((name, v) :: picked).
      split; [by rewrite Hsels, <- app_assoc|]. split; [by constructor|].
      split; [by rewrite !fmap_cons, Hn, Hnames|].
      constructor; [|done]. simpl. split_and!; try done.
      intros ->. by rewrite newSelector_empty in Hone.
    + destruct (IH _ _ _ Hloop) as (new & picked & Hsels & Hsub & Hnames & Hall).
      exists new, picked. split_and!; try done. by constructor.
Qed.

(** X14.  The selectors that [newSelectors] builds from a raw mapping have
    names that are all different and not empty, each one a key of the
    mapping whose value is neither nil nor the empty string, in the order
    in which the mapping was ranged over: what the evaluation of siblings
    asks of their names. *)
Theorem new_selectors_names (m : gmap string value) (convFunc : ConvFunc) (n : loc)
    (selectors : list Selector) (errs : option error) (n' : loc) :
  newSelectors map_range (VMap m) convFunc n = (Ret (selectors, errs), n') →
  NoDup (Name <$> selectors) ∧
  Forall (λ s, Name s ≠ "" ∧
               ∃ v, m !! Name s = Some v ∧ is_nil v = false ∧ v ≠ VStr "")
    selectors ∧
  (Name <$> selectors) `sublist_of` (map_range m).*1.
Proof using map_range_perm.
  unfold newSelectors. intros Hnew.
  destruct (newSelectors_loop_names _ _ _ _ _ _ _ _ Hnew)
    as (new & picked & -> & Hsub & Hnames & Hall).
  rewrite app_nil_l, Hnames.
  assert (picked.*1 `sublist_of` (map_range m).*1) as Hkeys
    by by apply fmap_sublist.
  split_and!; [|
    |done].
  - eapply sublist_NoDup; [|exact Hkeys].
    rewrite (map_range_perm m). apply NoDup_fst_map_to_list.
  - apply Forall_forall. intros s Hs.
    assert (Name s ∈ picked.*1) as Hin.
    { rewrite <- Hnames. by apply list_elem_of_fmap_2. }
    apply list_elem_of_fmap in Hin as ([name v] & Heq & Hp). simpl in Heq.
    rewrite Forall_forall in Hall. destruct (Hall _ Hp) as (Hne & Hnil & Hstr).
    simpl in *. subst name. split; [done|]. exists v. split_and!; try done.
    apply elem_of_map_to_list. rewrite <- (map_range_perm m).
    by eapply elem_of_sublist.
Qed.

End ConstructionMore.

Lemma new_selectors_names_witness :
  let raw : gmap string (@value string) :=
    {[ "title" := VStr "//title"; "media" := VStr ""; "links" := VStr "//a" ]} in
  let out := newSelectors map_to_list (VMap raw) None 10 in
  (∀ m : gmap string (@value string), map_to_list m ≡ₚ map_to_list m) ∧
  length (match out.1 with Ret (selectors, _) => selectors | Panic _ => [] end) = 2 ∧
  ∀ selectors errs,
    out.1 = Ret (selectors, errs) →
    NoDup (Name <$> selectors) ∧
    (Name <$> selectors) `sublist_of` (map_to_list raw).*1.
Proof.
  intros raw out.
  assert (∀ m : gmap string (@value string), map_to_list m ≡ₚ map_to_list m)
    as Hrange by reflexivity.
  split; [exact Hrange|]. split; [reflexivity|].
  intros selectors errs Hout.
  destruct (new_selectors_names map_to_list Hrange raw None 10 selectors errs out.2)
    as (Hnd & _ & Hsub).
  - rewrite <- Hout. apply surjective_pairing.
  - split; [exact Hnd | exact Hsub].
Defined.

(** ** The order of the entries of a raw selector *)

Section RawOrder.
Context {U : Type}.

Local Abbreviation value := (@value U).
Local Abbreviation Selector := (@Selector U).
Local Abbreviation action := (@action U).

Lemma assign_Selector_uniform (key : string) (v : value) :
  (∀ s, assign_Selector s key v =
        Panic "reflect: call of reflect.Value.Type on zero Value") ∨
  (∃ (a : action) e,
     (a = Keep ∨ action_key a = Some key) ∧
     ∀ s, assign_Selector s key v = Ret (apply_action a s, e)).
Proof.
  unfold assign_Selector.
  destruct (bool_decide (key ∈ [KeyName; KeyExpr; KeyType; KeyAll; KeyFollow;
                                 KeySelectors; KeyFields])).
  - destruct v; repeat case_decide; subst;
      first [ by left
            | right; exists Keep, (Some ErrNotAssignable);
              split; [by left|by intros []]
            | right; eexists (SetName _), None; split; [by right|done]
            | right; eexists (SetExpr _), None; split; [by right|done]
            | right; eexists (SetType _), None; split; [by right|done]
            | right; eexists (SetAll _), None; split; [by right|done]
            | right; eexists (SetFollow _), None; split; [by right|done]
            | right; eexists (SetSelectors _), None; split; [by right|done]
            | right; eexists (SetFields _), None; split; [by right|done] ].
  - destruct v;
      first [ right; exists (DropField key), None; split; [by right|done]
            | right; eexists (PutField key _), None; split; [by right|done] ].
Qed.

Lemma apply_action_comm (a1 a2 : action) (k1 k2 : string) (s : Selector) :
  a1 = Keep ∨ action_key a1 = Some k1 →
  a2 = Keep ∨ action_key a2 = Some k2 →
  k1 ≠ k2 → k1 ≠ KeyFields → k2 ≠ KeyFields →
  apply_action a1 (apply_action a2 s) = apply_action a2 (apply_action a1 s).
Proof.
  intros [->|H1] [->|H2] Hne Hf1 Hf2; try done.
  destruct s as [l name expr ty all follow sels fl fields].
  destruct a1, a2; simpl in *; simplify_eq; try done; f_equal.
  - by apply insert_insert_ne.
  - by rewrite delete_insert_ne.
  - by rewrite delete_insert_ne.
  - apply delete_delete.
Qed.

Lemma entry_uniform (convFunc : @ConvFunc U) (key : string) (v : value) :
  (∀ rest s errs,
     processRaw_loop convFunc ((key, v) :: rest) s errs =
     Panic "reflect: call of reflect.Value.Type on zero Value") ∨
  (∃ (a : action) e,
     (a = Keep ∨ action_key a = Some key) ∧
     ∀ rest s errs,
       processRaw_loop convFunc ((key, v) :: rest) s errs =
       processRaw_loop convFunc rest (apply_action a s) (AddError errs key e)).
Proof.
  simpl.
  destruct (match convFunc with Some f => f key v | None => (v, None) end)
    as [v' err].
  destruct err as [e|].
  - right. exists Keep, (Some e). split; [by left|done].
  - destruct (assign_Selector_uniform key v') as [Hp|(a & e & Ha & Hs)].
    + left. intros rest s errs. by rewrite Hp.
    + right. exists a, e. split; [done|]. intros rest s errs. by rewrite Hs.
Qed.

Lemma AddError_is_Some (errs : option error) (key : string) (err : option error) :
  is_Some (AddError errs key err) ↔ is_Some errs ∨ (key ≠ "" ∧ is_Some err).
Proof.
  unfold AddError. destruct err as [e|].
  - destruct (decide (key = "")) as [->|Hkey].
    + split; [by left|]. by intros [?|[? _]].
    + split; [intros _; right; eauto|].
      intros _. by destruct errs as [[]|].
  - split; [by left|]. intros [?|[_ [? ?]]]; done.
Qed.

Lemma same_selector_trans (o1 o2 o3 : outcome (Selector * option error)) :
  same_selector o1 o2 → same_selector o2 o3 → same_selector o1 o3.
Proof.
  destruct o1 as [[s1 e1]|r1], o2 as [[s2 e2]|r2], o3 as [[s3 e3]|r3];
    simpl; try done.
  - intros [-> H12] [-> H23]. split; [done|]. by rewrite H12.
  - by intros -> ->.
Qed.

Lemma processRaw_loop_cong (convFunc : @ConvFunc U) (raw : list (string * value))
    (s : Selector) (e e' : option error) :
  (is_Some e ↔ is_Some e') →
  same_selector (processRaw_loop convFunc raw s e) (processRaw_loop convFunc raw s e').
Proof.
  revert s e e'. induction raw as [|[key v] raw IH]; intros s e e' He.
  - done.
  - destruct (entry_uniform convFunc key v) as [Hp|(a & err & _ & Hs)].
    + by rewrite !Hp.
    + rewrite !Hs. apply IH. rewrite !AddError_is_Some. by rewrite He.
Qed.

Lemma processRaw_loop_perm (convFunc : @ConvFunc U) (raw1 raw2 : list (string * value)) :
  raw1 ≡ₚ raw2 → NoDup raw1.*1 → KeyFields ∉ raw1.*1 →
  ∀ s e e', (is_Some e ↔ is_Some e') →
    same_selector (processRaw_loop convFunc raw1 s e)
                  (processRaw_loop convFunc raw2 s e').
Proof.
  induction 1 as [|[key v] l l' Hperm IH|[kx vx] [ky vy] l|l1 l2 l3 H12 IH12 H23 IH23];
    intros Hnd Hfields s e e' He.
  - done.
  - rewrite fmap_cons in Hnd, Hfields. apply NoDup_cons in Hnd as [_ Hnd].
    apply not_elem_of_cons in Hfields as [_ Hfields].
    destruct (entry_uniform convFunc key v) as [Hp|(a & err & _ & Hs)].
    + by rewrite !Hp.
    + rewrite !Hs. apply IH; [done|done|]. rewrite !AddError_is_Some. by rewrite He.
  - rewrite !fmap_cons in Hnd, Hfields. simpl in Hnd, Hfields.
    apply NoDup_cons in Hnd as [Hne _].
    apply not_elem_of_cons in Hne as [Hne _].
    apply not_elem_of_cons in Hfields as [Hfy Hfields].
    apply not_elem_of_cons in Hfields as [Hfx _].
    destruct (entry_uniform convFunc kx vx) as [Hpx|(ax & ex & Hax & Hsx)];
      destruct (entry_uniform convFunc ky vy) as [Hpy|(ay & ey & Hay & Hsy)].
    + by rewrite Hpy, Hpx.
    + by rewrite Hsy, !Hpx.
    + by rewrite Hsx, !Hpy.
    + rewrite Hsy, Hsx, Hsx, Hsy.
      rewrite (apply_action_comm ax ay kx ky) by done.
      apply processRaw_loop_cong. rewrite !AddError_is_Some. rewrite He. tauto.
  - eapply same_selector_trans.
    + by apply (IH12 Hnd Hfields s e e).
    + apply IH23; [by rewrite <- H12|by rewrite <- H12|done].
Qed.

(** X15.  Which selector [processRaw] builds from a raw map that has no
    entry under [Fields] does not depend on the order in which Go ranges
    over the map: in any two orders it panics in both with the same value,
    or it returns the same selector, and an error in both or in neither. *)
Theorem process_raw_any_order
    (range1 range2 : gmap string value → list (string * value))
    (raw : gmap string value) (output : Selector) (convFunc : @ConvFunc U) :
  (∀ m, range1 m ≡ₚ map_to_list m) →
  (∀ m, range2 m ≡ₚ map_to_list m) →
  raw !! KeyFields = None →
  same_selector (processRaw range1 raw output convFunc)
                (processRaw range2 raw output convFunc).
Proof.
  intros H1 H2 Hfields. unfold processRaw.
  apply processRaw_loop_perm; [by rewrite H1, H2| | |done].
  - rewrite H1. apply NoDup_fst_map_to_list.
  - rewrite H1. intros Hin. apply list_elem_of_fmap in Hin as ([k v] & Hk & Hin).
    simpl in Hk. subst k. apply elem_of_map_to_list in Hin. congruence.
Qed.

End RawOrder.

Lemma process_raw_any_order_witness :
  let raw : gmap string (@value string) :=
    {[ "Expr" := VStr "//a"; "All" := VBool true; "note" := VNum 1 ]} in
  let output : @Selector string := mkSelector 0 "" "" "" false false [] 1 ∅ in
  let backwards (m : gmap string (@value string)) := reverse (map_to_list m) in
  raw !! KeyFields = None ∧
  same_selector (processRaw map_to_list raw output None)
                (processRaw backwards raw output None).
Proof.
  intros raw output backwards. split; [reflexivity|].
  apply (process_raw_any_order map_to_list backwards raw output None).
  - reflexivity.
  - intros m. apply reverse_Permutation.
  - reflexivity.
Defined.

(** ** Selectors on plain text *)

Section TextProps.
Context {U R W : Type} `{!NetURL U, !Response U R W}.
Context (Sprint : @value U → string).
Context (EqualFold : string → string → bool).
Context (re_Compile : string → option error).
Context (re_Find : string → string → option string).
Context (re_FindAll : string → string → list string).

Local Abbreviation value := (@value U).
Local Abbreviation Selector := (@Selector U).
Local Abbreviation Rules := (@Rules U).
Local Abbreviation St := (@St U TextElement W).
Local Abbreviation on_text :=
  (Text_Element (U:=U) EqualFold re_Compile re_Find re_FindAll).
Local Abbreviation text_findSelector :=
  (@findSelector U TextElement R W _ on_text _ Sprint).
Local Abbreviation text_findSelectors :=
  (@findSelectors U TextElement R W _ on_text _ Sprint).

Lemma text_findSelector_not_nil (src : Rules) (resp : R) (selector : Selector)
    (text : TextElement) (st : St) :
  (text_findSelector src resp selector text st).1.2 = None →
  is_nil (text_findSelector src resp selector text st).1.1 = false.
Proof.
  rewrite findSelector_unfold. destruct (All selector).
  - unfold findAllSelector, findAllSelector_with. simpl.
    destruct (Text_FindAll _ _ _ _ _ _) as [children [err|]]; [done|].
    destruct (negb (Follow selector) &&
              bool_decide (0 < length (Selectors selector))).
    + by destruct (findAll_nested _ _ _ _ _ _ _) as [[result errs] st1].
    + destruct (Follow selector); [|done].
      by destruct (followSelector _ _ _ _ _ _) as [[found errs] st1].
  - simpl. unfold Text_Find.
    destruct (negb (bool_decide (Type_ selector = "")) &&
              negb (EqualFold (Type_ selector) RegularExpr)); [done|].
    destruct (re_Compile (Expr selector)); [done|].
    destruct (Follow selector).
    + by destruct (followSelector _ _ _ _ _ _) as [[found errs] st1].
    + destruct (bool_decide (0 < length (Selectors selector))); [|done].
      by destruct (findSelectors _ _ _ _ _ _) as [[found errs] st1].
Qed.

(** X16.  On plain text a selector that gives no error never gives nil:
    the mapping that [findSelectors] builds on a [TextElement] holds no
    nil.  A selector without [All], [Follow] and nested selectors whose
    type is empty or [regular] and whose expression compiles gives the
    match as a string, and the empty string when nothing matches. *)
Theorem text_selectors_never_nil (src : Rules) (resp : R)
    (selectors : list Selector) (text : TextElement) (st : St) :
  (∀ name v,
     (text_findSelectors src resp selectors text st).1.1 !! name = Some v →
     is_nil v = false) ∧
  (∀ selector,
     All selector = false → Follow selector = false → Selectors selector = [] →
     Type_ selector = "" ∨ EqualFold (Type_ selector) RegularExpr = true →
     re_Compile (Expr selector) = None →
     (text_findSelector src resp selector text st).1 =
     (VStr (default "" (re_Find (Expr selector) (text_data text))), None)).
Proof.
  split.
  - unfold findSelectors.
    assert (map_Forall (λ _ v, is_nil v = false) (∅ : gmap string value)) as Hinv
      by apply map_Forall_empty.
    revert Hinv. generalize (∅ : gmap string value) (@None error). revert st.
    induction selectors as [|s sels IH]; intros st result errs Hinv name v.
    + simpl. apply Hinv.
    + rewrite findSelectors_loop_cons.
      pose proof (text_findSelector_not_nil src resp s text st) as Hs.
      destruct (findSelector Sprint src resp s text st) as [[found err] st1].
      destruct err as [e|]; [by apply IH|].
      apply IH. apply map_Forall_insert_2; [by apply Hs|done].
  - intros selector Hall Hfollow Hsels Hty Hre.
    rewrite findSelector_unfold, Hall, Hfollow, Hsels. simpl.
    unfold Text_Find. rewrite Hre.
    by destruct Hty as [-> | ->]; rewrite ?andb_false_r.
Qed.

End TextProps.

(** ** The registry of parsers *)

Section RegistryProps.
Context {U E R W : Type} `{!NetURL U, !Element U E, !Response U R W}.
Context (Sprint : @value U → string).
Context (re_Compile : string → option error).
Context (re_MatchString : string → string → bool).
Context (ContentType : R → string).
Context (funcs_range : gmap string (@ParserFunc E R) → list (string * @ParserFunc E R)).

(** Go ranges over the functions, each one once. *)
Hypothesis funcs_range_perm : ∀ m, funcs_range m ≡ₚ map_to_list m.

Local Abbreviation Rules := (@Rules U).
Local Abbreviation St := (@St U E W).
Local Abbreviation Parsers := (@Parsers E R).
Local Abbreviation ParserFunc := (@ParserFunc E R).
Local Abbreviation Match := (Parsers_Match re_MatchString funcs_range).
Local Abbreviation Parse :=
  (Parsers_Parse Sprint re_MatchString ContentType funcs_range).

Lemma Parsers_Match_spec (parsers : Parsers) (contentType : string) :
  Match parsers contentType = true ↔
  ∃ expr f, funcs parsers !! expr = Some f ∧ re_MatchString expr contentType = true.
Proof using funcs_range_perm.
  unfold Parsers_Match. rewrite existsb_exists. split.
  - intros ([expr f] & Hin & Hm). exists expr, f. split; [|done].
    apply list_elem_of_In in Hin. rewrite (funcs_range_perm _) in Hin.
    by apply elem_of_map_to_list in Hin.
  - intros (expr & f & Hin & Hm). exists (expr, f). split; [|done].
    apply list_elem_of_In. rewrite (funcs_range_perm _).
    by apply elem_of_map_to_list.
Qed.

(** X17.  [Match] says whether [Parse] finds a parser: it is true exactly
    when an expression of the registry matches the Content-Type, in
    whatever order Go ranges over the registry.  Where [Match] is false
    [Parse] gives [ErrNotMatch] and touches nothing; where it is true
    [Parse] gives what one of the functions whose expression matches
    gives, and when only one expression matches it is that one. *)
Theorem parse_needs_match (parsers : Parsers) (rules : Rules) (resp : R) (st : St) :
  let matching expr f :=
    funcs parsers !! expr = Some f ∧
    re_MatchString expr (ContentType resp) = true in
  (Match parsers (ContentType resp) = true ↔ ∃ expr f, matching expr f) ∧
  (Match parsers (ContentType resp) = false →
   Parse parsers (Some rules) (Some resp) st = ((∅, Some ErrNotMatch), st)) ∧
  (Match parsers (ContentType resp) = true →
   ∃ expr f, matching expr f ∧
     Parse parsers (Some rules) (Some resp) st = parse_with Sprint f rules resp st) ∧
  (∀ expr f, matching expr f →
     (∀ expr' f', matching expr' f' → expr' = expr) →
     Parse parsers (Some rules) (Some resp) st = parse_with Sprint f rules resp st).
Proof using funcs_range_perm.
  intros matching.
  assert (∀ ef, find (λ ef : string * ParserFunc,
                        re_MatchString ef.1 (ContentType resp))
                  (funcs_range (funcs parsers)) = Some ef →
                matching ef.1 ef.2) as Hfound.
  { intros [expr f] Hfind. apply find_some in Hfind as [Hin Hm].
    split; [|done]. apply list_elem_of_In in Hin.
    rewrite (funcs_range_perm _) in Hin. by apply elem_of_map_to_list in Hin. }
  assert (find (λ ef : string * ParserFunc,
                  re_MatchString ef.1 (ContentType resp))
            (funcs_range (funcs parsers)) = None →
          Match parsers (ContentType resp) = false) as Hnone.
  { intros Hfind. unfold Parsers_Match. apply not_true_is_false.
    rewrite existsb_exists. intros (ef & Hin & Hm).
    by rewrite (find_none _ _ Hfind ef Hin) in Hm. }
  split; [apply Parsers_Match_spec|]. unfold Parsers_Parse.
  destruct (find _ (funcs_range (funcs parsers))) as [[expr f]|] eqn:Hfind.
  - specialize (Hfound _ eq_refl). simpl in Hfound. split_and!.
    + intros Hno. assert (Match parsers (ContentType resp) = true) as Hyes
        by (apply Parsers_Match_spec; eauto).
      congruence.
    + intros _. by exists expr, f.
    + intros expr0 f0 [Hin0 Hm0] Honly.
      destruct Hfound as [Hin Hm].
      assert (expr = expr0) as -> by (apply (Honly expr f); by split).
      congruence.
  - specialize (Hnone eq_refl). split_and!.
    + done.
    + intros Hyes. congruence.
    + intros expr0 f0 Hmatching _.
      assert (Match parsers (ContentType resp) = true) as Hyes
        by (apply Parsers_Match_spec; eauto).
      congruence.
Qed.

(** X18.  [Set] with an expression that is not empty and compiles adds to
    what the registry matches exactly what the expression matches, and
    keeps the rest; with an expression that does not compile it returns
    the error of [regexp.Compile] and leaves the registry as it was; and
    after [Clear] nothing matches. *)
Theorem set_extends_match (parsers : Parsers) (expr : string) (f : ParserFunc) :
  (expr ≠ "" → re_Compile expr = None →
   ∃ parsers',
     Parsers_Set re_Compile (Some parsers) expr (Some f) = (Some parsers', None) ∧
     funcs parsers' !! expr = Some f ∧
     ∀ contentType,
       Match parsers' contentType =
       Match parsers contentType || re_MatchString expr contentType) ∧
  (∀ err, expr ≠ "" → re_Compile expr = Some err →
     Parsers_Set re_Compile (Some parsers) expr (Some f) = (Some parsers, Some err)) ∧
  (∀ contentType, Match (Parsers_Clear parsers) contentType = false).
Proof using funcs_range_perm.
  split_and!.
  - intros Hne Hre. unfold Parsers_Set. rewrite decide_False, Hre by done.
    eexists. split; [done|]. simpl. split; [apply lookup_insert_eq|].
    intros contentType. apply eq_iff_eq_true.
    rewrite orb_true_iff, !Parsers_Match_spec. simpl. split.
    + intros (expr' & f' & Hin & Hm).
      destruct (decide (expr' = expr)) as [->|Hother]; [by right|].
      left. exists expr', f'. by rewrite lookup_insert_ne in Hin.
    + intros [(expr' & f' & Hin & Hm)|Hm].
      * destruct (decide (expr' = expr)) as [->|Hother].
        -- exists expr, f. by rewrite lookup_insert_eq.
        -- exists expr', f'. by rewrite lookup_insert_ne.
      * exists expr, f. by rewrite lookup_insert_eq.
  - intros err Hne Hre. unfold Parsers_Set. by rewrite decide_False, Hre.
  - intros contentType. apply not_true_is_false. rewrite Parsers_Match_spec.
    simpl. intros (expr' & f' & Hin & _). by rewrite lookup_empty in Hin.
Qed.

End RegistryProps.

Lemma parse_needs_match_witness :
  let ct := ex_ContentType ex_resp in
  (∀ m : gmap string (@ParserFunc ex_doc string), map_to_list m ≡ₚ map_to_list m) ∧
  (Parsers_Match ex_MatchString map_to_list ex_parsers ct = true ↔
   ∃ expr f, funcs ex_parsers !! expr = Some f ∧ ex_MatchString expr ct = true).
Proof.
  intros ct.
  assert (∀ m : gmap string (@ParserFunc ex_doc string),
            map_to_list m ≡ₚ map_to_list m) as Hrange by reflexivity.
  split; [exact Hrange|].
  exact (proj1 (parse_needs_match ex_Sprint ex_MatchString ex_ContentType
                  map_to_list Hrange ex_parsers ex_rules ex_resp ex_st)).
Defined.

Lemma set_extends_match_witness :
  let f : @ParserFunc ex_doc string := λ _, (Some ex_mixed, None) in
  (∀ m : gmap string (@ParserFunc ex_doc string), map_to_list m ≡ₚ map_to_list m) ∧
  ex_compile "application/json" = None ∧
  ∃ parsers',
    Parsers_Set ex_compile (Some ex_parsers) "application/json" (Some f) =
      (Some parsers', None) ∧
    ∀ contentType,
      Parsers_Match ex_MatchString map_to_list parsers' contentType =
      Parsers_Match ex_MatchString map_to_list ex_parsers contentType ||
      ex_MatchString "application/json" contentType.
Proof.
  intros f.
  assert (∀ m : gmap string (@ParserFunc ex_doc string),
            map_to_list m ≡ₚ map_to_list m) as Hrange by reflexivity.
  split; [exact Hrange|]. split; [reflexivity|].
  destruct (proj1 (set_extends_match ex_compile ex_MatchString map_to_list Hrange
                     ex_parsers "application/json" f)
              ltac:(discriminate) eq_refl) as (parsers' & Hset & _ & Hmatch).
  exists parsers'. split; [exact Hset | exact Hmatch].
Defined.

(** ** The robots.txt checker *)

Section RobotsProps.
Context {U R W RD : Type} `{!NetURL U}.
Context (TrimSpace : string → string) (resp_URL : R → option (@url_URL U)).
Context (url_Path url_Host : U → string).
Context (resp_ReadAll : R → string * option error).
Context (resp_StatusCode : R → Z).
Context (FromStatusAndBytes : Z → string → RD + error).
Context (TestAgent : RD → string → string → bool).

Local Abbreviation Rules := (@Rules U).
Local Abbreviation Colibri := (@Colibri U R W).
Local Abbreviation DSt := (@DSt U W).
Local Abbreviation url_URL := (@url_URL U).
Local Abbreviation allowed :=
  (IsAllowed TrimSpace resp_URL url_Path url_Host resp_ReadAll resp_StatusCode
     FromStatusAndBytes TestAgent).

(** The calls of a [Do] that ignores robots.txt: none to a checker, and
    the transport is given the rules with their header defaulted. *)
Lemma Do_ignoring_robots (c : Colibri) (rules : Rules) (st : DSt) :
  IgnoreRobotsTxt rules = true →
  let out := Do TrimSpace resp_URL c (Some rules) st in
  ∃ new, d_calls out.2 = d_calls st ++ new ∧
    (∀ r, CallIsAllowed r ∉ new) ∧
    (∀ r, CallClientDo r ∈ new → ∃ h, r = with_Header rules h).
Proof.
  intros Hignore out.
  destruct (Client c) as [client|] eqn:Hclient.
  2:{ exists []. unfold out, Do. rewrite Hclient. simpl. rewrite app_nil_r.
      split; [done|]. split; intros r Hr; elem_cases. }
  destruct (Do_shape TrimSpace resp_URL c client rules st Hclient)
    as (gate & wait & fetch & stamp & done & Hcalls & Hgate & Hwait & Hfetch
        & Hstamp & Hdone).
  fold out in Hcalls, Hfetch, Hstamp.
  destruct (default_header_fields TrimSpace rules (d_next st)) as (_ & _ & Hi).
  destruct (default_header_frame TrimSpace rules (d_next st)) as [h Hh].
  exists (gate ++ wait ++ fetch ++ stamp ++ done). split; [done|].
  rewrite Hi, Hignore in Hgate.
  destruct Hgate as [-> |(_ & _ & ?)]; [|done].
  destruct Hwait as [-> |(-> & _ & _)];
    destruct Hfetch as [(-> & -> & -> & _)| ->];
    try (destruct Hstamp as [[-> _]|(rp & -> & _ & _)]);
    try (destruct Hdone as [[-> _]|(-> & _ & _)]);
    simpl; (split; intros r Hr; elem_cases; simplify_eq; eauto).
Qed.

(** X19.  [IsAllowed] asks for nothing when the URL is robots.txt itself
    or the host is known, and the data stay as they are.  Otherwise it
    makes one [Do], which consults no checker and asks the transport for
    robots.txt only: a GET with [IgnoreRobotsTxt] set at the URL of the
    rules resolved against [/robots.txt].  The data change only when that
    went well, by the entry of the host, whose verdict is returned. *)
Theorem is_allowed_fetch (data : gmap string RD) (c : Colibri) (rules : Rules)
    (st : DSt) :
  let out := allowed data c rules st in
  let new := drop (length (d_calls st)) (d_calls out.2) in
  (∀ u, URL rules = Some u →
     url_Path (url_val u) = robotsTxtPath ∨ is_Some (data !! url_Host (url_val u)) →
     out.2 = st ∧ out.1.2 = data) ∧
  (∀ r, CallIsAllowed r ∉ new) ∧
  (∀ r, CallClientDo r ∈ new →
     Method r = "GET" ∧ IgnoreRobotsTxt r = true ∧
     ∃ u ref, URL rules = Some u ∧ url_Parse robotsTxtPath = inl ref ∧
              url_val <$> URL r = Some (url_ResolveReference (url_val u) ref)) ∧
  (out.1.2 = data ∨
   ∃ u robotsData,
     URL rules = Some u ∧ data !! url_Host (url_val u) = None ∧
     out.1.2 = <[url_Host (url_val u) := robotsData]> data ∧
     out.1.1 = Ret (robots_verdict url_Path TestAgent robotsData u rules)).
Proof.
  intros out new. unfold new, out, IsAllowed. clear out new.
  destruct (URL rules) as [u|] eqn:Hurl.
  2:{ simpl. rewrite drop_all. split_and!; try done; try by left.
      all: intros r Hr; elem_cases. }
  destruct (decide (url_Path (url_val u) = robotsTxtPath)) as [Hpath|Hpath].
  { simpl. rewrite drop_all. split_and!; try done; try by left.
    all: intros r Hr; elem_cases. }
  destruct (data !! url_Host (url_val u)) as [robotsData|] eqn:Hhost.
  { simpl. rewrite drop_all. split_and!; try done; try by left.
    all: intros r Hr; elem_cases. }
  destruct (url_Parse robotsTxtPath) as [ref|err] eqn:Href.
  2:{ simpl. rewrite drop_all. split_and!; try by left.
      - intros u0 Hu0 [?|[? ?]]; simplify_eq.
      - intros r Hr; elem_cases.
      - intros r Hr; elem_cases. }
  unfold robots_rules.
  destruct (Selector_Rules _ rules (S (d_next st))) as [r0 n1].
  set (robotsRules := mkRules "GET" _ _ _ _ _ true _ _ _ _).
  destruct (Do_ignoring_robots c robotsRules (mkDSt (S n1) (d_world st) (d_calls st))
              eq_refl) as (calls & Hcalls & Hgate & Hfetch).
  destruct (Do TrimSpace resp_URL c (Some robotsRules) _) as [[[resp err] rules1] st1].
  simpl in Hcalls.
  assert (drop (length (d_calls st)) (d_calls st1) = calls) as Hnew
    by by rewrite Hcalls, drop_app_length.
  assert (∀ r, CallClientDo r ∈ calls →
            Method r = "GET" ∧ IgnoreRobotsTxt r = true ∧
            ∃ u0 ref0, Some u = Some u0 ∧ (inl ref : U + error) = inl ref0 ∧
              url_val <$> URL r = Some (url_ResolveReference (url_val u0) ref0))
    as Hasked.
  { intros r Hr. destruct (Hfetch r Hr) as [h ->]. simpl.
    split; [done|]. split; [done|]. by exists u, ref. }
  assert (∀ u0, Some u = Some u0 →
            url_Path (url_val u0) = robotsTxtPath ∨
            is_Some (data !! url_Host (url_val u0)) → False) as Hnot.
  { intros u0 ? [?|[? ?]]; simplify_eq. }
  destruct err as [e|]; [|destruct resp as [rp|]];
    [ | destruct (resp_ReadAll rp) as [buf [err1|]];
        [|destruct (FromStatusAndBytes (resp_StatusCode rp) buf) as [rd|err2]] | ];
    simpl; rewrite Hnew;
    (split_and!; [by intros u0 Hu0 Hor; destruct (Hnot u0 Hu0 Hor)|done|done|]);
    first [by left | right; by exists u, rd].
Qed.

(** X20.  robots.txt is asked for once for a host: after [IsAllowed] has
    allowed a URL that is not robots.txt itself, a later [IsAllowed] on a
    URL of the same host asks for nothing and leaves the data as they
    are, whatever rules, [Colibri] and state it is called with. *)
Theorem is_allowed_fetches_once (data : gmap string RD) (c c' : Colibri)
    (rules rules' : Rules) (st st' : DSt) (u u' : url_URL) :
  URL rules = Some u → url_Path (url_val u) ≠ robotsTxtPath →
  (allowed data c rules st).1.1 = Ret None →
  URL rules' = Some u' → url_Host (url_val u') = url_Host (url_val u) →
  let data' := (allowed data c rules st).1.2 in
  (allowed data' c' rules' st').2 = st' ∧ (allowed data' c' rules' st').1.2 = data'.
Proof.
  intros Hurl Hpath Hok Hurl' Hhost data'.
  assert (is_Some (data' !! url_Host (url_val u))) as Hknown.
  { unfold data'. revert Hok. unfold IsAllowed. rewrite Hurl.
    rewrite decide_False by done.
    destruct (data !! url_Host (url_val u)) as [rd|] eqn:Hrd; [by eauto|].
    destruct (url_Parse robotsTxtPath) as [ref|err]; [|done].
    destruct (robots_rules rules u ref (d_next st)) as [robotsRules n1].
    destruct (Do TrimSpace resp_URL c (Some robotsRules) _)
      as [[[resp err] rules1] st1].
    destruct err as [e|]; [done|]. destruct resp as [rp|]; [|done].
    destruct (resp_ReadAll rp) as [buf [err1|]]; [done|].
    destruct (FromStatusAndBytes (resp_StatusCode rp) buf) as [rd|err2]; [|done].
    simpl. intros _. rewrite lookup_insert_eq. eauto. }
  unfold IsAllowed. rewrite Hurl'.
  destruct (decide (url_Path (url_val u') = robotsTxtPath)); [done|].
  rewrite Hhost. by destruct Hknown as [rd ->].
Qed.

End RobotsProps.

Lemma is_allowed_fetches_once_witness :
  let c := mkColibri (Some ex_client) None None in
  let run := IsAllowed ex_TrimSpace ex_resp_URL ex_Path ex_Host ex_ReadAll
               ex_StatusCode ex_FromStatusAndBytes ex_TestAgent in
  let first := run ∅ c ex_rules ex_dst in
  ex_Path "https://ex.test/p" ≠ robotsTxtPath ∧
  first.1.1 = Ret None ∧
  length (d_calls first.2) = 1 ∧
  (run first.1.2 c ex_rules ex_dst).2 = ex_dst.
Proof.
  intros c run first.
  assert (ex_Path "https://ex.test/p" ≠ robotsTxtPath) as Hpath
    by (vm_compute; discriminate).
  split; [exact Hpath|]. split; [reflexivity|]. split; [reflexivity|].
  exact (proj1 (is_allowed_fetches_once ex_TrimSpace ex_resp_URL ex_Path ex_Host
                  ex_ReadAll ex_StatusCode ex_FromStatusAndBytes ex_TestAgent
                  ∅ c c ex_rules ex_rules ex_dst ex_dst
                  (mkURL 1 "https://ex.test/p") (mkURL 1 "https://ex.test/p")
                  eq_refl Hpath eq_refl eq_refl eq_refl)).
Defined.

(** ** Siblings with the same name *)

Section EngineNames.
Context {U E R W : Type} `{!NetURL U, !Element U E, !Response U R W}.
Context (Sprint : @value U → string).

Local Abbreviation value := (@value U).
Local Abbreviation Selector := (@Selector U).
Local Abbreviation Rules := (@Rules U).
Local Abbreviation St := (@St U E W).

Lemma fold_kept_last (tries : list (Selector * (value * option error)))
    (name : string) :
  fold_left (λ (m : gmap string value) t,
               match t.2.2 with
               | None => <[Name t.1 := t.2.1]> m
               | Some _ => m
               end) tries ∅ !! name =
  (λ t, t.2.1) <$> last (List.filter (gave name) tries).
Proof.
  induction tries as [|t tries IH] using rev_ind; [done|].
  rewrite fold_left_app, List.filter_app. simpl. unfold gave at 2.
  destruct t as [s [found [e|]]]; simpl.
  - by rewrite andb_false_r, app_nil_r.
  - rewrite andb_true_r. destruct (decide (Name s = name)) as [Heq|Hne].
    + rewrite bool_decide_eq_true_2 by done. rewrite last_snoc. simpl.
      by rewrite Heq, lookup_insert_eq.
    + rewrite bool_decide_eq_false_2 by done.
      by rewrite app_nil_r, lookup_insert_ne.
Qed.

(** X21.  Whatever the names of the siblings are, the result of
    [findSelectors] holds under a name what the last sibling of that name
    that gave no error gave, and nothing when none did: a later sibling
    replaces the value of an earlier one of the same name, and one that
    fails leaves the value of an earlier one in place. *)
Theorem find_selectors_last_wins (src : Rules) (resp : R)
    (selectors : list Selector) (parent : E) (st : St) (name : string) :
  let tries := attempts Sprint src resp selectors parent st in
  let out := findSelectors Sprint src resp selectors parent st in
  out.1.1 !! name = (λ t, t.2.1) <$> last (List.filter (gave name) tries).
Proof.
  intros tries out. unfold out, findSelectors.
  destruct (findSelectors_loop_attempts Sprint src resp selectors parent ∅ None st)
    as [Hfold _].
  rewrite Hfold. simpl. apply fold_kept_last.
Qed.

End EngineNames.
